(** * robotcode: event dispatch and reference search

    A shallow embedding of

      - [robotcode/utils/async_event.py]
      - [robotcode/language_server/parts/folding_range.py]
      - [robotcode/language_server/robotframework/parts/references.py]

    Python objects are identified by a natural number (their [id]); an
    async generator run to exhaustion is the list of the items it
    yielded together with the exception that ended it, if any. *)

From Stdlib Require Import Ascii.
From stdpp Require Import ssreflect.
From stdpp Require Import gmap strings list.

Set Warnings "-rewrite-rw,-clear-no-such-hyp,-register-all".

Open Scope string_scope.
Open Scope list_scope.

(** ** Exceptions and generators *)

Inductive exn : Type :=
  | IndexError
  | KeyError
  | ValueError
  | TypeError
  | AttributeError
  | CancelledError
  | SystemExit
  | KeyboardInterrupt
  | ListenerError (tag : nat).

Global Instance exn_eq_dec : EqDecision exn.
Proof. solve_decision. Defined.

(** What an (async) generator did when iterated to its end. *)
Record Gen (A : Type) : Type := MkGen {
  yielded : list A;
  raised : option exn
}.
Arguments MkGen {A} _ _.
Arguments yielded {A} _.
Arguments raised {A} _.

Definition gen_pass {A} : Gen A := MkGen [] None.
Definition gen_yield {A} (x : A) : Gen A := MkGen [x] None.
Definition gen_raise {A} (e : exn) : Gen A := MkGen [] (Some e).

(** Sequencing of two pieces of a generator body: the second piece runs
    only when the first one did not raise. *)
Definition gen_seq {A} (g1 g2 : Gen A) : Gen A :=
  match raised g1 with
  | Some _ => g1
  | None => MkGen (yielded g1 ++ yielded g2) (raised g2)
  end.

(** [for x in l: body x] inside a generator. *)
Fixpoint gen_for {A B} (l : list B) (body : B → Gen A) : Gen A :=
  match l with
  | [] => gen_pass
  | x :: l' => gen_seq (body x) (gen_for l' body)
  end.

(** Running [f] on everything a generator yielded, as long as nothing
    raises, and ending as the generator ended. *)
Definition gen_bind {A B} (g : Gen A) (f : A → Gen B) : Gen B :=
  gen_seq (gen_for (yielded g) f) (MkGen [] (raised g)).

(** ** [async_event.py] *)

Module AsyncEvent.

Section dispatch.
Context {Args Res : Type}.

(** What calling (and, for a coroutine, awaiting) a listener gives. *)
Inductive outcome : Type :=
  | Returned (r : Res)
  | Raised (e : exn).

Definition callable : Type := Args → outcome.

(** The live callables, by object identity.  A weak reference to the
    object [r] is dereferenced by looking [r] up here: [None] once the
    object has been collected. *)
Definition deref (objs : gmap nat callable) (method_listener : nat)
  : option callable := objs !! method_listener.

(** [AsyncEventResultIteratorBase]: [self.listeners] is a set of weak
    references, which hash and compare as their referents do. *)
Record AsyncEventResultIteratorBase : Type := MkBase {
  listeners : gset nat
}.

Definition __init__ : AsyncEventResultIteratorBase := MkBase ∅.

Definition add (self : AsyncEventResultIteratorBase) (callback : nat)
  : AsyncEventResultIteratorBase :=
  MkBase (listeners self ∪ {[callback]}).

(** [set.remove] raises [KeyError] on a missing element. *)
Definition set_remove (s : gset nat) (x : nat) : exn + gset nat :=
  if decide (x ∈ s) then inr (s ∖ {[x]}) else inl KeyError.

Definition remove (self : AsyncEventResultIteratorBase) (callback : nat)
  : exn + AsyncEventResultIteratorBase :=
  match set_remove (listeners self) callback with
  | inr s => inr (MkBase s)
  | inl e => inl e
  end.

(** [remove_listener], the finalizer [add] attaches to each weak
    reference: it runs when the referent dies; an exception raised by a
    weak reference callback is not propagated. *)
Definition remove_listener (self : AsyncEventResultIteratorBase) (ref : nat)
  : AsyncEventResultIteratorBase :=
  match set_remove (listeners self) ref with
  | inr s => MkBase s
  | inl _ => self
  end.

(** One run of a dispatch: the listeners it called, in order, and what
    the generator produced. *)
Record Run (A : Type) : Type := MkRun {
  invoked : list nat;
  produced : Gen A
}.
Arguments MkRun {A} _ _.
Arguments invoked {A} _.
Arguments produced {A} _.

(** [AsyncEventResultIteratorBase._notify]: listeners are called one
    after the other; a listener that raises ends the generator. *)
Fixpoint _notify_loop (objs : gmap nat callable) (args : Args)
    (refs : list nat) : Run Res :=
  match refs with
  | [] => MkRun [] gen_pass
  | method_listener :: refs' =>
      match deref objs method_listener with
      | Some method =>
          match method args with
          | Returned result =>
              let rest := _notify_loop objs args refs' in
              MkRun (method_listener :: invoked rest)
                    (gen_seq (gen_yield result) (produced rest))
          | Raised e => MkRun [method_listener] (gen_raise e)
          end
      | None => _notify_loop objs args refs'
      end
  end.

Definition _notify (self : AsyncEventResultIteratorBase)
    (objs : gmap nat callable) (args : Args) : Run Res :=
  _notify_loop objs args (elements (listeners self)).

(** [AsyncEvent.__call__]: the list comprehension over [_notify]. *)
Definition AsyncEvent_call (self : AsyncEventResultIteratorBase)
    (objs : gmap nat callable) (args : Args) : exn + list Res :=
  let g := produced (_notify self objs args) in
  match raised g with
  | Some e => inl e
  | None => inr (yielded g)
  end.

(** A future created for a listener, with the outcome it completes
    with. *)
Definition future : Type := nat * outcome.

(** [asyncio.as_completed]: the futures in the order in which they
    finish, which is any rearrangement of the order of submission. *)
Record Scheduler : Type := MkScheduler {
  as_completed : list future → list future;
  as_completed_perm : ∀ l, as_completed l ≡ₚ l
}.

(** Keyword arguments of the concurrent [_notify]s; [None] is an
    argument that was not passed. *)
Record NotifyKwargs : Type := MkKwargs {
  ignore_exceptions : option bool
}.

Definition no_kwargs : NotifyKwargs := MkKwargs None.

(** The declared default is [ignore_exceptions=True]. *)
Definition ignore_exceptions_of (kw : NotifyKwargs) : bool :=
  default true (ignore_exceptions kw).

(** The first loop of the concurrent [_notify]s when nothing raises in
    it: one future per listener whose referent is alive.  The loop with
    the failures it can have is [Submission.submit], which agrees with
    this one on listeners that do not fail there. *)
Definition awaitables_of (objs : gmap nat callable) (args : Args)
    (refs : list nat) : list future :=
  omap (λ method_listener,
          match deref objs method_listener with
          | Some method => Some (method_listener, method args)
          | None => None
          end) refs.

(** The body of the second loop, for one completed future:
  <<
    try:
        yield await a
    except BaseException as e:
        if not ignore_exceptions:
            yield e
  >> *)
Definition await_entry (ignore : bool) (a : future) : list (Res + exn) :=
  match a.2 with
  | Returned r => [inl r]
  | Raised e => if ignore then [] else [inr e]
  end.

(** [AsyncTaskingEventResultIteratorBase] *)
Record AsyncTaskingEventResultIteratorBase : Type := MkTasking {
  tasking_base : AsyncEventResultIteratorBase;
  _task_name_prefix : string
}.

Definition tasking_notify (sched : Scheduler)
    (self : AsyncTaskingEventResultIteratorBase)
    (objs : gmap nat callable) (args : Args) (kw : NotifyKwargs)
  : Run (Res + exn) :=
  let awaitables :=
    awaitables_of objs args (elements (listeners (tasking_base self))) in
  MkRun (awaitables.*1)
        (MkGen (as_completed sched awaitables
                  ≫= await_entry (ignore_exceptions_of kw)) None).

(** [add] as the tasking dispatcher inherits it. *)
Definition tasking_add (callback : nat)
    (self : AsyncTaskingEventResultIteratorBase)
  : AsyncTaskingEventResultIteratorBase :=
  MkTasking (add (tasking_base self) callback) (_task_name_prefix self).

(** [AsyncThreadingEventResultIteratorBase]; the executor is created
    on the first dispatch that is not given one. *)
Record AsyncThreadingEventResultIteratorBase : Type := MkThreading {
  threading_base : AsyncEventResultIteratorBase;
  __executor : option string;
  __thread_name_prefix : string
}.

Definition threading_notify (sched : Scheduler)
    (self : AsyncThreadingEventResultIteratorBase)
    (objs : gmap nat callable) (args : Args)
    (executor : option string) (kw : NotifyKwargs)
  : AsyncThreadingEventResultIteratorBase * Run (Res + exn) :=
  let self' :=
    match executor with
    | Some _ => self
    | None =>
        match __executor self with
        | Some _ => self
        | None => MkThreading (threading_base self)
                    (Some (__thread_name_prefix self))
                    (__thread_name_prefix self)
        end
    end in
  let awaitables :=
    awaitables_of objs args (elements (listeners (threading_base self))) in
  (self',
   MkRun (awaitables.*1)
         (MkGen (as_completed sched awaitables
                   ≫= await_entry (ignore_exceptions_of kw)) None)).

(** The values the listeners behind some futures returned, and the
    exceptions the others raised. *)
Definition returned_values (aws : list future) : list Res :=
  omap (λ a, match a.2 with Returned r => Some r | Raised _ => None end) aws.

Definition raised_exceptions (aws : list future) : list exn :=
  omap (λ a, match a.2 with Returned _ => None | Raised e => Some e end) aws.

(** The entry that stands for a listener in a result collection that
    surfaces failures. *)
Definition tagged_entry (a : future) : Res + exn :=
  match a.2 with
  | Returned r => inl r
  | Raised e => inr e
  end.

(** *** The life of a dispatcher

    What can happen to a dispatcher between two dispatches: a live
    callable is registered, a listener is removed explicitly, or a
    registered object dies, which runs the finalizer of its weak
    reference. *)
Inductive op : Type :=
  | OpAdd (callback : nat) (method : callable)
  | OpRemove (callback : nat)
  | OpExpire (callback : nat).

Record World : Type := MkWorld {
  w_objs : gmap nat callable;
  w_self : AsyncEventResultIteratorBase
}.

Definition step (w : World) (o : op) : World :=
  match o with
  | OpAdd callback method =>
      MkWorld (<[callback := method]> (w_objs w)) (add (w_self w) callback)
  | OpRemove callback =>
      match remove (w_self w) callback with
      | inr self' => MkWorld (w_objs w) self'
      | inl _ => w
      end
  | OpExpire callback =>
      MkWorld (delete callback (w_objs w))
              (remove_listener (w_self w) callback)
  end.

Definition run_ops (w : World) (ops : list op) : World :=
  foldl step w ops.

Definition adds (callback : nat) (o : op) : Prop :=
  match o with
  | OpAdd c _ => c = callback
  | _ => False
  end.

End dispatch.

(** *** Event descriptors

    [AsyncEventDescriptorBase]: the descriptor object is an attribute of
    the class that declares the event.  Event objects live in a store,
    [__event] holds the address of the one this descriptor created. *)
Section descriptor.
Context {Event : Type}.

Record AsyncEventDescriptorBase : Type := MkDescriptor {
  _func : string;
  __factory : Event;
  __event : option nat;
  _owner : option string;
  _owner_name : option string
}.

Definition descriptor_init (func : string) (factory : Event)
  : AsyncEventDescriptorBase :=
  MkDescriptor func factory None None None.

Definition __set_name__ (self : AsyncEventDescriptorBase)
    (owner name : string) : AsyncEventDescriptorBase :=
  MkDescriptor (_func self) (__factory self) (__event self)
               (Some owner) (Some name).

(** What [__get__] returns: the descriptor itself when the attribute is
    read on the class, the event object otherwise. *)
Inductive attribute : Type :=
  | TheDescriptor
  | TheEvent (address : nat).

Definition __get__ (self : AsyncEventDescriptorBase)
    (store : gmap nat Event) (obj : option nat)
  : AsyncEventDescriptorBase * gmap nat Event * attribute :=
  match obj with
  | None => (self, store, TheDescriptor)
  | Some _ =>
      match __event self with
      | None =>
          let address := fresh (dom store) in
          (MkDescriptor (_func self) (__factory self) (Some address)
                        (_owner self) (_owner_name self),
           <[address := __factory self]> store,
           TheEvent address)
      | Some address => (self, store, TheEvent address)
      end
  end.

(** [instance.event], for its value and for what it does to the
    descriptor and the store. *)
Definition event_of (self : AsyncEventDescriptorBase)
    (store : gmap nat Event) (obj : nat) : option nat :=
  match (__get__ self store (Some obj)).2 with
  | TheEvent address => Some address
  | TheDescriptor => None
  end.

(** [instance.event.m(...)] for a method [m] that updates the event
    object in place. *)
Definition update_through (m : Event → Event)
    (self : AsyncEventDescriptorBase) (store : gmap nat Event) (obj : nat)
  : AsyncEventDescriptorBase * gmap nat Event :=
  let '(self', store', attr) := __get__ self store (Some obj) in
  match attr with
  | TheEvent address => (self', alter m address store')
  | TheDescriptor => (self', store')
  end.

(** [instance.event.m(...)] for a method [m] that reads the event
    object; [None] when the attribute is not an event in the store. *)
Definition read_through {B} (m : Event → B)
    (self : AsyncEventDescriptorBase) (store : gmap nat Event) (obj : nat)
  : option B :=
  let '(self', store', attr) := __get__ self store (Some obj) in
  match attr with
  | TheEvent address => m <$> store' !! address
  | TheDescriptor => None
  end.


(** [_get_name_prefix] *)
Definition _get_name_prefix (descriptor : AsyncEventDescriptorBase)
    (qualname : string) : string :=
  match _owner descriptor, _owner_name descriptor with
  | Some owner, Some name => owner +:+ "." +:+ name
  | Some owner, None => owner +:+ ".None"
  | None, _ => qualname
  end.

End descriptor.

Arguments AsyncEventDescriptorBase : clear implicits.

Arguments outcome : clear implicits.
Arguments callable : clear implicits.
Arguments future : clear implicits.
Arguments Scheduler : clear implicits.
Arguments Run : clear implicits.
Arguments MkRun {A} _ _.
Arguments invoked {A} _.
Arguments produced {A} _.

End AsyncEvent.

(** ** [async_event.py]: the loop that creates the futures

    The concurrent [_notify]s create their futures in a first loop and
    await them in a second one.  Only the second loop has a [try]:
    what raises in the first loop leaves the generator before it has
    yielded anything. *)

Module Submission.
Import AsyncEvent.

Section submission.
Context {Args Res : Type}.

(** A live listener as the first loop sees it.
<<
    future = asyncio.ensure_future(
        method( *args, **kwargs)
        if inspect.iscoroutinefunction(method)
        or inspect.isawaitable(method)
        or inspect.iscoroutinefunction(inspect.unwrap(method))
        else wrap_to_coro(method)( *args, **kwargs)
    )
    if isinstance(future, asyncio.Task):
        future.set_name(... method.__qualname__ ...)
>>
    [coroutine] is the conditional expression: evaluated in the loop,
    it raises ([inl]) or gives a coroutine, which ends as the outcome
    says once it runs.  [__qualname__] is the attribute of that name,
    [None] when the object has none. *)
Record Listener : Type := MkListener {
  coroutine : Args → exn + outcome Res;
  __qualname__ : option string
}.

(** A listener that does not fail in the loop: its call is made, and
    fails if it fails, when the future runs. *)
Definition listener_of (qualname : string) (method : callable Args Res)
  : Listener :=
  MkListener (λ args, inr (method args)) (Some qualname).

(** What the first loop leaves: the live listeners it reached, in
    order, the futures it appended to [awaitables], and the exception
    that ended it, if any. *)
Record Submitted : Type := MkSubmitted {
  reached : list nat;
  awaitables : list (future Res);
  aborted : option exn
}.

(** The first loop.  The name is read after [ensure_future] by the
    tasking variant and before [_run_in_asyncio_thread] is called by
    the threading variant, in both before the future is given its
    done-callback and appended. *)
Fixpoint submit (objs : gmap nat Listener) (args : Args) (refs : list nat)
  : Submitted :=
  match refs with
  | [] => MkSubmitted [] [] None
  | method_listener :: refs' =>
      match objs !! method_listener with
      | None => submit objs args refs'
      | Some method =>
          match coroutine method args with
          | inl e => MkSubmitted [method_listener] [] (Some e)
          | inr result =>
              match __qualname__ method with
              | None => MkSubmitted [method_listener] [] (Some AttributeError)
              | Some _ =>
                  let rest := submit objs args refs' in
                  MkSubmitted (method_listener :: reached rest)
                              ((method_listener, result) :: awaitables rest)
                              (aborted rest)
              end
          end
      end
  end.

(** The two loops of a concurrent [_notify], one after the other. *)
Definition notify (sched : Scheduler Res) (listeners : gset nat)
    (objs : gmap nat Listener) (args : Args) (kw : NotifyKwargs)
  : Run (Res + exn) :=
  let submitted := submit objs args (elements listeners) in
  MkRun (reached submitted)
        match aborted submitted with
        | Some e => gen_raise e
        | None =>
            MkGen (as_completed sched (awaitables submitted)
                     ≫= await_entry (ignore_exceptions_of kw)) None
        end.

(** A list comprehension over an async generator. *)
Definition collected {A} (g : Gen A) : exn + list A :=
  match raised g with
  | Some e => inl e
  | None => inr (yielded g)
  end.

(** [AsyncTaskingEventResultIteratorBase._notify] *)
Definition tasking_notify (sched : Scheduler Res)
    (self : AsyncTaskingEventResultIteratorBase)
    (objs : gmap nat Listener) (args : Args) (kw : NotifyKwargs)
  : Run (Res + exn) :=
  notify sched (listeners (tasking_base self)) objs args kw.


(** [AsyncThreadingEventResultIteratorBase._notify]; the executor is
    created before the first loop. *)
Definition threading_notify (sched : Scheduler Res)
    (self : AsyncThreadingEventResultIteratorBase)
    (objs : gmap nat Listener) (args : Args)
    (executor : option string) (kw : NotifyKwargs)
  : AsyncThreadingEventResultIteratorBase * Run (Res + exn) :=
  let self' :=
    match executor with
    | Some _ => self
    | None =>
        match __executor self with
        | Some _ => self
        | None => MkThreading (threading_base self)
                    (Some (__thread_name_prefix self))
                    (__thread_name_prefix self)
        end
    end in
  (self', notify sched (listeners (threading_base self)) objs args kw).

(** [AsyncThreadingEvent.__call__] *)
Definition AsyncThreadingEvent_call (sched : Scheduler Res)
    (self : AsyncThreadingEventResultIteratorBase)
    (objs : gmap nat Listener) (args : Args) (kw : NotifyKwargs)
  : exn + list (Res + exn) :=
  collected (produced (threading_notify sched self objs args None kw).2).

(** *** What a dispatch is expected to do, said without the loops

    The registered listeners that are alive, in the order of
    iteration of the set. *)
Definition live (objs : gmap nat Listener) (listeners : gset nat)
  : list (nat * Listener) :=
  omap (λ r, (λ method, (r, method)) <$> objs !! r) (elements listeners).

(** The exception with which a listener makes the first loop fail. *)
Definition fails_in_loop (args : Args) (method : Listener) : option exn :=
  match coroutine method args with
  | inl e => Some e
  | inr _ =>
      match __qualname__ method with
      | None => Some AttributeError
      | Some _ => None
      end
  end.

(** The value a listener returns, and the exception it raises, when
    its future runs. *)
Definition value_of (args : Args) (method : Listener) : option Res :=
  match coroutine method args with
  | inr (Returned r) => Some r
  | _ => None
  end.

Definition error_of (args : Args) (method : Listener) : option exn :=
  match coroutine method args with
  | inr (Raised e) => Some e
  | _ => None
  end.

(** *** Completion callbacks *)

(** Whether a result is the value [None]. *)
Variable is_None : Res → bool.

(** A result as [Optional[_TResult]] has it. *)
Definition as_optional (r : Res) : option Res :=
  if is_None r then None else Some r.

(** A [result_callback]: called with a result and an exception, it
    returns ([None]) or raises. *)
Definition result_callback : Type := option Res → option exn → option exn.

(** [_done], the done-callback that both [_notify]s attach to every
    future when a [result_callback] is given: the calls it makes, in
    order, and the exception that leaves it, if any.
<<
    try:
        result_callback(f.result(), f.exception())
    except KeyboardInterrupt:
        raise
    except BaseException as e:
        result_callback(None, e)
>>
    [f.result()] is evaluated first and raises the exception of a
    failed future. *)
Definition _done (callback : option result_callback) (f : future Res)
  : list (option Res * option exn) * option exn :=
  match callback with
  | None => ([], None)
  | Some result_callback =>
      let handler (calls : list (option Res * option exn)) (e : exn) :=
        match e with
        | KeyboardInterrupt => (calls, Some KeyboardInterrupt)
        | _ => (calls ++ [(None, Some e)], result_callback None (Some e))
        end in
      match f.2 with
      | Returned r =>
          match result_callback (as_optional r) None with
          | None => ([(as_optional r, None)], None)
          | Some e => handler [(as_optional r, None)] e
          end
      | Raised e => handler [] e
      end
  end.

(** The call that reports the outcome of a future. *)
Definition report (f : future Res) : option Res * option exn :=
  match f.2 with
  | Returned r => (as_optional r, None)
  | Raised e => (None, Some e)
  end.

(** The calls a dispatch makes to its [result_callback]: the futures
    that were given the done-callback run it as they finish, whether
    the first loop came to its end or not. *)
Definition callback_calls (sched : Scheduler Res) (listeners : gset nat)
    (objs : gmap nat Listener) (args : Args)
    (callback : option result_callback)
  : list (option Res * option exn) :=
  as_completed sched (awaitables (submit objs args (elements listeners)))
    ≫= λ f, (_done callback f).1.

End submission.

Arguments Listener : clear implicits.
Arguments Submitted : clear implicits.
Arguments result_callback : clear implicits.

End Submission.

(** ** [folding_range.py] *)

Module FoldingRangePart.
Import AsyncEvent.

Record FoldingRange : Type := MkFoldingRange {
  start_line : nat;
  end_line : nat
}.

Record TextDocument : Type := MkTextDocument {
  document_uri : string;
  document_text : string
}.

(** A listener of [collect_folding_range] is called with the sender
    and the document. *)
Definition collect_args : Type := nat * TextDocument.

Abbreviation collect_event := AsyncThreadingEventResultIteratorBase.

(** The loop of [_text_document_folding_range] over the collected
    entries: the ranges gathered so far and the exceptions logged. *)
Fixpoint aggregate (entries : list (list FoldingRange + exn))
    (results : list FoldingRange) (logged : list exn)
  : list FoldingRange * list exn :=
  match entries with
  | [] => (results, logged)
  | inr result :: rest => aggregate rest results (logged ++ [result])
  | inl result :: rest => aggregate rest (results ++ result) logged
  end.

(** [FoldingRangeProtocolPart._text_document_folding_range]; the
    dispatcher is called with the two positional arguments only. *)
Definition _text_document_folding_range
    (sched : Scheduler (list FoldingRange))
    (self : nat) (collect_folding_range : collect_event)
    (objs : gmap nat (Submission.Listener collect_args (list FoldingRange)))
    (documents : gmap string TextDocument) (uri : string)
  : exn + list FoldingRange * list exn :=
  match documents !! uri with
  | None => inl KeyError
  | Some document =>
      match Submission.AsyncThreadingEvent_call sched collect_folding_range
              objs (self, document) no_kwargs with
      | inl e => inl e
      | inr entries => inr (aggregate entries [] [])
      end
  end.

End FoldingRangePart.

(** ** [references.py] *)

Module References.

(** *** Data *)

Record Position : Type := MkPosition { line : nat; character : nat }.
Record Range : Type := MkRange { range_start : Position; range_end : Position }.
Record Location : Type := MkLocation { uri : string; range : Range }.

(** A token of the parsed script ([robot.parsing.lexer.tokens.Token]). *)
Record Token : Type := MkToken {
  type : string;
  value : string;
  lineno : nat;
  col_offset : nat
}.

Global Instance Position_eq_dec : EqDecision Position.
Proof. solve_decision. Defined.
Global Instance Range_eq_dec : EqDecision Range.
Proof. solve_decision. Defined.
Global Instance Location_eq_dec : EqDecision Location.
Proof. solve_decision. Defined.
Global Instance Token_eq_dec : EqDecision Token.
Proof. solve_decision. Defined.

(** The token types the search looks at. *)
Definition KEYWORD : string := "KEYWORD".
Definition NAME : string := "NAME".
Definition ARGUMENT : string := "ARGUMENT".
Definition VARIABLE : string := "VARIABLE".
Definition KEYWORD_NAME : string := "KEYWORD NAME".

(** The classes of syntax tree nodes the search tells apart with
    [isinstance]. *)
Inductive NodeClass : Type :=
  | KeywordCall
  | Fixture
  | Template
  | TestTemplate
  | KeywordName
  | SectionBlock
  | TestCase
  | Keyword
  | OtherNode.

Global Instance NodeClass_eq_dec : EqDecision NodeClass.
Proof. solve_decision. Defined.

(** A node: its class, and its tokens when it is a [HasTokens]. *)
Record Node : Type := MkNode {
  node_class : NodeClass;
  tokens : option (list Token)
}.

(** The parsed file [iter_nodes] walks over. *)
Record File : Type := MkFile { file_nodes : list Node }.

(** [Statement.get_token], given token types: the first token of one of
    the types. *)
Definition get_token (n : Node) (types : list string) : option Token :=
  List.find (λ t, bool_decide (type t ∈ types)) (default [] (tokens n)).

(** [Statement.get_tokens], given token types *)
Definition get_tokens (n : Node) (types : list string) : list Token :=
  List.filter (λ t, bool_decide (type t ∈ types)) (default [] (tokens n)).

(** [KeywordDoc], with its classification methods as fields; [kw_oid]
    is the identity of the object. *)
Record KeywordDoc : Type := MkKeywordDoc {
  kw_oid : nat;
  doc_name : string;
  doc_source : option string;
  doc_range : Range;
  is_error_handler : bool;
  is_any_run_keyword : bool;
  is_run_keyword : bool;
  is_run_keyword_with_condition : bool;
  run_keyword_condition_count : nat;
  is_run_keywords : bool;
  is_run_keyword_if : bool
}.

(** Modelled from the spec: the declaration of [KeywordDoc] (and so the
    meaning of [==] on it) is missing; "Identity is by definition
    object, not name - two keywords with the same name in different
    libraries are distinct". *)
Definition keyworddoc_eq (a b : KeywordDoc) : bool :=
  bool_decide (kw_oid a = kw_oid b).

Inductive VariableClass : Type :=
  | ArgumentDefinition
  | LocalVariableDefinition
  | OtherVariableDefinition.

Record VariableDefinition : Type := MkVariableDefinition {
  var_oid : nat;
  var_name : string;
  var_class : VariableClass;
  var_source : option string;
  var_range : Range
}.

(** Modelled from the spec: the declaration of [VariableDefinition] is
    missing; "same-named variables in different scopes are distinct",
    identity is by definition object. *)
Definition variable_eq (a b : VariableDefinition) : bool :=
  bool_decide (var_oid a = var_oid b).

Record LibraryDoc : Type := MkLibraryDoc {
  lib_oid : nat;
  lib_source : option string;
  keywords : list KeywordDoc
}.

(** Modelled from the spec: the declaration of [LibraryDoc] is missing
    too; its objects are compared as the definitions they hold are, by
    identity. *)
Definition librarydoc_eq (a b : LibraryDoc) : bool :=
  bool_decide (lib_oid a = lib_oid b).

(** [Namespace], the resolver of one file. *)
Record Namespace : Type := MkNamespace {
  source : string;
  model : File;
  find_keyword : string → option KeywordDoc;
  find_variable : string → list Node → Position → option VariableDefinition;
  get_libraries : list (string * LibraryDoc);
  get_resources : list (string * LibraryDoc);
  get_libraries_matchers : list string;
  get_resources_matchers : list string;
  get_library_doc : LibraryDoc
}.

(** The helpers of [utils.ast], [utils.async_ast], [library_doc] and
    [robot.utils] that the search calls and that are not part of the
    files embedded here. *)
Class Helpers : Type := MkHelpers {
  is_not_variable_token : Token → bool;
  unescape : string → string;
  iter_over_keyword_names_and_owners : string → list (option string * option string);
  (** a [KeywordMatcher] is represented by the normalized name it
      compares by *)
  KeywordMatcher : string → string;
  ALL_RUN_KEYWORDS_MATCHERS : list string;
  range_from_token : Token → Range;
  range_from_token_or_node : Node → Token → Range;
  tokenize_variables : Token → list Token;
  iter_nodes : File → list Node;
  (** [str(Uri.from_path(p))] and [str(Uri.from_path(p).normalized())] *)
  uri_from_path : string → string;
  uri_from_path_normalized : string → string
}.

(** *** Unwrapping of run keywords *)

Section unwrap.
Context `{Helpers} {A : Type}.

(** The nested call [get_keyword_references_from_tokens(namespace,
    kw_doc, node, t, args, unescape_kw_token)], seen from the
    unwrapper. *)
Variable rec : Token → list Token → bool → Gen A.

Definition is_AND (e : Token) : bool := bool_decide (value e = "AND").
Definition is_ELSE (e : Token) : bool :=
  bool_decide (value e ∈ ["ELSE"; "ELSE IF"]).

(** [list.index]: the first position of an equal element,
    [ValueError] when there is none. *)
Fixpoint py_index (l : list Token) (x : Token) : option nat :=
  match l with
  | [] => None
  | y :: l' => if decide (y = x) then Some 0 else S <$> py_index l' x
  end.

Definition nested (t : Token) (args : list Token) : Gen A :=
  if is_not_variable_token t then rec t args true else gen_pass.

(** The [while arguments:] loop of the [is_run_keywords] branch; an
    iteration removes at least one token, so [length arguments]
    iterations are enough. *)
Fixpoint run_keywords_loop (fuel : nat) (arguments : list Token)
    (has_separator : bool) : Gen A :=
  match fuel with
  | O => gen_pass
  | S fuel' =>
      match arguments with
      | [] => gen_pass
      | t :: arguments =>
          if is_AND t then run_keywords_loop fuel' arguments has_separator
          else
            match List.find is_AND arguments with
            | Some separator_token =>
                match py_index arguments separator_token with
                | Some i =>
                    let args := take i arguments in
                    let arguments := drop (S i) arguments in
                    gen_seq (nested t args)
                            (run_keywords_loop fuel' arguments true)
                | None => gen_raise ValueError
                end
            | None =>
                let args := if has_separator then arguments else [] in
                gen_seq (nested t args)
                        (run_keywords_loop fuel' arguments has_separator)
            end
      end
  end.

(** The [while arguments:] loop of the [is_run_keyword_if] branch. *)
Fixpoint run_keyword_if_loop (fuel : nat) (arguments : list Token)
  : Gen A :=
  match fuel with
  | O => gen_pass
  | S fuel' =>
      match arguments with
      | [] => gen_pass
      | t :: arguments =>
          if is_ELSE t then run_keyword_if_loop fuel' arguments
          else
            match List.find is_ELSE arguments with
            | Some separator_token =>
                match py_index arguments separator_token with
                | Some i =>
                    let args := take i arguments in
                    let arguments := drop (S i) arguments in
                    let arguments :=
                      if bool_decide (value separator_token = "ELSE IF")
                      then drop 1 arguments else arguments in
                    gen_seq (nested t args)
                            (run_keyword_if_loop fuel' arguments)
                | None => gen_raise ValueError
                end
            | None =>
                gen_seq (nested t [])
                        (run_keyword_if_loop fuel' arguments)
            end
      end
  end.

(** [get_keyword_references_from_any_run_keyword], the [elif] chain
    read from its last branch to its first.  [arguments[1]] raises
    [IndexError] when there is no such token. *)
Definition any_run_keyword (namespace : Namespace) (kw_token : Token)
    (arguments : list Token) : Gen A :=
  if negb (is_not_variable_token kw_token) then gen_pass
  else
    match find_keyword namespace (value kw_token) with
    | None => gen_pass
    | Some kw =>
        if negb (is_any_run_keyword kw) then gen_pass
        else
          let branch_if :=
            if is_run_keyword_if kw && bool_decide (1 < length arguments)
            then run_keyword_if_loop (length arguments) (drop 1 arguments)
            else gen_pass in
          let branch_keywords :=
            if is_run_keywords kw
            then run_keywords_loop (length arguments) arguments false
            else branch_if in
          let cond_count := run_keyword_condition_count kw in
          let branch_condition :=
            if is_run_keyword_with_condition kw
               && bool_decide (cond_count < length arguments)
            then
              match arguments !! 1 with
              | None => gen_raise IndexError
              | Some a1 =>
                  if is_not_variable_token a1
                  then
                    match arguments !! cond_count with
                    | Some t => rec t (drop (S cond_count) arguments) true
                    | None => gen_raise IndexError
                    end
                  else branch_keywords
              end
            else branch_keywords in
          if is_run_keyword kw && bool_decide (0 < length arguments)
          then
            match arguments !! 0 with
            | None => gen_raise IndexError
            | Some a0 =>
                if is_not_variable_token a0
                then rec a0 (drop 1 arguments) false
                else branch_condition
            end
          else branch_condition
    end.

End unwrap.

(** The nested invocations the unwrapper makes for a call: name token,
    argument tokens, and whether the name is escape-decoded. *)
Definition Invocation : Type := Token * list Token * bool.

Definition nested_invocations `{Helpers} (namespace : Namespace)
    (kw_token : Token) (arguments : list Token) : Gen Invocation :=
  any_run_keyword (λ t args u, gen_yield (t, args, u))
                  namespace kw_token arguments.

(** Making a recorded invocation. *)
Definition invoke {A} (rec : Token → list Token → bool → Gen A)
    (i : Invocation) : Gen A := rec i.1.1 i.1.2 i.2.

(** *** The unwrapping as the specification words it

    These three follow the table of the specification, not the
    source; the theorems compare them with [nested_invocations]. *)

(** "arg[0..N-1] = condition(s), arg[N] = nested keyword name
    (escape-decoded), arg[N+1:] = its arguments" *)
Definition conditional_by_the_spec (n : nat) (arguments : list Token)
  : list Invocation :=
  match arguments !! n with
  | Some t => [(t, drop (S n) arguments, true)]
  | None => []
  end.

(** The segments between the tokens that satisfy [P]. *)
Fixpoint split_on (P : Token → bool) (l : list Token) : list (list Token) :=
  match l with
  | [] => [[]]
  | x :: l' =>
      if P x then [] :: split_on P l'
      else
        match split_on P l' with
        | segment :: segments => (x :: segment) :: segments
        | [] => [[x]]
        end
  end.

Definition segment_invocation (segment : list Token) : list Invocation :=
  match segment with
  | t :: args => [(t, args, true)]
  | [] => []
  end.

(** "arguments split on literal AND separators; each segment's first
    token is a nested keyword name (escape-decoded), remainder are its
    arguments; if no AND present, every token is its own zero-argument
    invocation" *)
Definition run_keywords_by_the_spec (arguments : list Token)
  : list Invocation :=
  if existsb is_AND arguments
  then split_on is_AND arguments ≫= segment_invocation
  else (λ t, (t, [], true)) <$> arguments.

(** A group of a run-keyword-if chain: after its condition, if it has
    one, a name and its arguments. *)
Definition group_invocation (with_condition : bool) (group : list Token)
  : list Invocation :=
  segment_invocation (if with_condition then drop 1 group else group).

(** "arg[0] = condition, arg[1] = then keyword name (escape-decoded),
    following tokens up to an ELSE IF/ELSE marker are its arguments;
    ELSE IF starts a new condition+name+args group; terminal ELSE
    group has name+args but no condition" *)
Fixpoint run_keyword_if_groups (with_condition : bool) (group : list Token)
    (rest : list Token) : list Invocation :=
  match rest with
  | [] => group_invocation with_condition group
  | x :: rest' =>
      if bool_decide (value x = "ELSE IF") then
        group_invocation with_condition group
        ++ run_keyword_if_groups true [] rest'
      else if bool_decide (value x = "ELSE") then
        group_invocation with_condition group
        ++ run_keyword_if_groups false [] rest'
      else run_keyword_if_groups with_condition (group ++ [x]) rest'
  end.

Definition run_keyword_if_by_the_spec (arguments : list Token)
  : list Invocation :=
  run_keyword_if_groups true [] arguments.

(** *** Matching a call against the target keyword *)

Section search.
Context `{Helpers}.

Definition in_matchers (m : string) (ms : list string) : bool :=
  bool_decide (m ∈ ms).

(** The body of [get_keyword_references_from_tokens], with [rec] for
    the calls that come back to it from the unwrapper; [arguments] is
    passed a list by every caller. *)
Definition from_tokens_body
    (rec : Token → list Token → bool → Gen Location)
    (namespace : Namespace) (kw_doc : KeywordDoc) (node : Node)
    (kw_token : option Token) (arguments : list Token)
    (unescape_kw_token : bool) : Gen Location :=
  match kw_token with
  | None => gen_pass
  | Some kw_token =>
      if is_not_variable_token kw_token then
        let kw_matcher := KeywordMatcher (doc_name kw_doc) in
        let kw_name :=
          if unescape_kw_token then unescape (value kw_token)
          else value kw_token in
        gen_for (iter_over_keyword_names_and_owners kw_name)
          (λ '(lib, name),
             if match lib with
                | Some lib =>
                    let lib_matcher := KeywordMatcher lib in
                    negb (in_matchers lib_matcher
                            (get_libraries_matchers namespace))
                    && negb (in_matchers lib_matcher
                               (get_resources_matchers namespace))
                | None => false
                end
             then gen_pass
             else
               match name with
               | None => gen_pass
               | Some name =>
                   let name_matcher := KeywordMatcher name in
                   gen_seq
                     (if bool_decide (kw_matcher = name_matcher) then
                        match find_keyword namespace kw_name with
                        | Some kw =>
                            if keyworddoc_eq kw kw_doc then
                              gen_yield
                                (MkLocation
                                   (uri_from_path_normalized
                                      (source namespace))
                                   (range_from_token_or_node node kw_token))
                            else gen_pass
                        | None => gen_pass
                        end
                      else gen_pass)
                     (if in_matchers name_matcher ALL_RUN_KEYWORDS_MATCHERS
                         && bool_decide (arguments ≠ [])
                      then any_run_keyword rec namespace kw_token arguments
                      else gen_pass)
               end)
      else gen_pass
  end.

(** The recursion, bounded by [fuel]: every call that comes back
    from the unwrapper has fewer argument tokens, so
    [S (length arguments)] is enough (see [from_tokens_fuel]). *)
Fixpoint from_tokens (fuel : nat) (namespace : Namespace)
    (kw_doc : KeywordDoc) (node : Node) (kw_token : option Token)
    (arguments : list Token) (unescape_kw_token : bool)
  : Gen Location :=
  match fuel with
  | O => gen_pass
  | S fuel' =>
      from_tokens_body
        (λ t args u, from_tokens fuel' namespace kw_doc node (Some t) args u)
        namespace kw_doc node kw_token arguments unescape_kw_token
  end.

Definition get_keyword_references_from_tokens (namespace : Namespace)
    (kw_doc : KeywordDoc) (node : Node) (kw_token : option Token)
    (arguments : list Token) (unescape_kw_token : bool)
  : Gen Location :=
  from_tokens (S (length arguments)) namespace kw_doc node kw_token
    arguments unescape_kw_token.

Definition get_keyword_references_from_any_run_keyword
    (namespace : Namespace) (kw_doc : KeywordDoc) (node : Node)
    (kw_token : Token) (arguments : list Token) : Gen Location :=
  any_run_keyword
    (λ t args u,
       get_keyword_references_from_tokens namespace kw_doc node
         (Some t) args u)
    namespace kw_token arguments.

(** What stands behind a location that the keyword search reports
    for [kw_doc] in the file of [namespace]: a token that is not a
    variable, whose bare name matches the name of [kw_doc] and whose
    text, resolved in [namespace], is the object [kw_doc]. *)
Definition keyword_use (namespace : Namespace) (kw_doc : KeywordDoc)
    (node : Node) (loc : Location) : Prop :=
  ∃ (tok : Token) (kw_name : string) (lib : option string)
    (name : string) (kw : KeywordDoc),
    loc = MkLocation (uri_from_path_normalized (source namespace))
            (range_from_token_or_node node tok)
    ∧ is_not_variable_token tok = true
    ∧ (kw_name = value tok ∨ kw_name = unescape (value tok))
    ∧ (lib, Some name) ∈ iter_over_keyword_names_and_owners kw_name
    ∧ KeywordMatcher name = KeywordMatcher (doc_name kw_doc)
    ∧ find_keyword namespace kw_name = Some kw
    ∧ kw_oid kw = kw_oid kw_doc.

(** Every keyword that a name resolves to in the file and that runs a
    keyword after conditions has at least one condition, as the
    keywords of this kind of the standard library have. *)
Definition conditions_first (namespace : Namespace) : Prop :=
  ∀ name kw, find_keyword namespace name = Some kw →
             is_run_keyword_with_condition kw = true →
             0 < run_keyword_condition_count kw.

(** "track the current enclosing test/keyword block": the block that
    encloses the last of the nodes visited so far is the latest test
    case or keyword among them, unless a section begins after it. *)
Definition begins_block (n : Node) : bool :=
  bool_decide (node_class n ∈ [TestCase; Keyword]).

Definition begins_section (n : Node) : bool :=
  bool_decide (node_class n = SectionBlock).

Definition current_block_of (visited : list Node) : option Node :=
  match List.find (λ n, begins_block n || begins_section n)
          (reverse visited) with
  | Some n => if begins_block n then Some n else None
  | None => None
  end.

(** "the enclosing scope chain" of a node that comes after the nodes
    [preceding]: the block that encloses it, if there is one, and the
    node. *)
Definition scope_chain (preceding : list Node) (node : Node) : list Node :=
  match current_block_of (preceding ++ [node]) with
  | Some block => [block]
  | None => []
  end ++ [node].

(** What stands behind a location that the variable search reports
    for [variable] in a document: a variable token of one of the
    nodes, whose name, resolved through the enclosing scope chain of
    that node among the nodes of the file, is the object
    [variable]. *)
Definition variable_use (namespace : option Namespace) (doc_uri : string)
    (variable : VariableDefinition) (nodes : list Node) (loc : Location)
  : Prop :=
  ∃ (ns : Namespace) (preceding : list Node) (node : Node)
    (following : list Node) (toks : list Token) (token sub_token : Token)
    (v : VariableDefinition),
    namespace = Some ns
    ∧ nodes = preceding ++ node :: following
    ∧ tokens node = Some toks
    ∧ token ∈ toks
    ∧ sub_token ∈ tokenize_variables token
    ∧ type sub_token = VARIABLE
    ∧ loc = MkLocation doc_uri (range_from_token sub_token)
    ∧ find_variable ns (value sub_token) (scope_chain preceding node)
        (range_start (range_from_token token)) = Some v
    ∧ var_oid v = var_oid variable.

(** *** The walk over one file, for a keyword

    The events of a walk that matter for cancellation: a node is
    taken from [iter_nodes], [check_canceled] is awaited. *)
Inductive event : Type :=
  | EvNode (node : Node)
  | EvCheckCanceled.

Record Walk : Type := MkWalk {
  trace : list event;
  walk_result : exn + list Location
}.

Definition is_check (e : event) : bool :=
  match e with EvCheckCanceled => true | EvNode _ => false end.

Definition is_visit (e : event) : bool :=
  match e with EvNode _ => true | EvCheckCanceled => false end.

(** How often a walk awaited [check_canceled], and how many nodes it
    took from [iter_nodes]. *)
Definition checks (tr : list event) : nat := length (List.filter is_check tr).
Definition visits (tr : list event) : nat := length (List.filter is_visit tr).

(** The [isinstance] chain in the body of the loop of
    [_find_keyword_references_in_namespace]. *)
Definition references_at_node (namespace : Namespace)
    (kw_doc : KeywordDoc) (node : Node) : Gen Location :=
  match node_class node with
  | KeywordCall =>
      get_keyword_references_from_tokens namespace kw_doc node
        (get_token node [KEYWORD]) (get_tokens node [ARGUMENT]) false
  | Fixture =>
      get_keyword_references_from_tokens namespace kw_doc node
        (get_token node [NAME]) (get_tokens node [ARGUMENT]) false
  | Template | TestTemplate =>
      get_keyword_references_from_tokens namespace kw_doc node
        (get_token node [NAME; ARGUMENT]) [] false
  | _ => gen_pass
  end.

(** The loop of [_find_keyword_references_in_namespace].
    [canceled k] tells whether the request is found cancelled by the
    [k]-th [check_canceled] of the walk, which then raises. *)
Fixpoint keyword_walk (canceled : nat → bool) (k : nat)
    (namespace : Namespace) (kw_doc : KeywordDoc) (nodes : list Node)
    (result : list Location) : Walk :=
  match nodes with
  | [] => MkWalk [] (inr result)
  | node :: nodes' =>
      let here := [EvNode node; EvCheckCanceled] in
      if canceled k then MkWalk here (inl CancelledError)
      else
        let g := references_at_node namespace kw_doc node in
        match raised g with
        | Some e => MkWalk here (inl e)
        | None =>
            let w := keyword_walk canceled (S k) namespace kw_doc nodes'
                       (result ++ yielded g) in
            MkWalk (here ++ trace w) (walk_result w)
        end
  end.

Definition _find_keyword_references_in_namespace (canceled : nat → bool)
    (namespace : Namespace) (kw_doc : KeywordDoc) : Walk :=
  keyword_walk canceled 0 namespace kw_doc
    (iter_nodes (model namespace)) [].

(** *** The walk over one file, for a variable *)

(** The body of the innermost loop of
    [_find_variable_references_in_file], for one [sub_token]. *)
Definition variable_reference (namespace : option Namespace)
    (doc_uri : string) (variable : VariableDefinition)
    (current_block : option Node) (node : Node) (token sub_token : Token)
  : Gen Location :=
  if bool_decide (type sub_token = VARIABLE) then
    match namespace with
    | None => gen_raise AttributeError
    | Some namespace =>
        let found_variable :=
          find_variable namespace (value sub_token)
            (match current_block with
             | Some b => [b]
             | None => []
             end ++ [node])
            (range_start (range_from_token token)) in
        if match found_variable with
           | Some v => variable_eq v variable
           | None => false
           end
        then gen_yield (MkLocation doc_uri (range_from_token sub_token))
        else gen_pass
    end
  else gen_pass.

Definition variable_references_at_node (namespace : option Namespace)
    (doc_uri : string) (variable : VariableDefinition)
    (current_block : option Node) (node : Node) : Gen Location :=
  match tokens node with
  | Some toks =>
      gen_for toks (λ token,
        gen_for (tokenize_variables token) (λ sub_token,
          variable_reference namespace doc_uri variable current_block
            node token sub_token))
  | None => gen_pass
  end.

(** The loop of [_find_variable_references_in_file]. *)
Fixpoint variable_walk (namespace : option Namespace) (doc_uri : string)
    (variable : VariableDefinition) (nodes : list Node)
    (current_block : option Node) (result : list Location) : Walk :=
  match nodes with
  | [] => MkWalk [] (inr result)
  | node :: nodes' =>
      let here := [EvNode node] in
      let current_block :=
        match node_class node with
        | SectionBlock => None
        | TestCase | Keyword => Some node
        | _ => current_block
        end in
      let g := variable_references_at_node namespace doc_uri variable
                 current_block node in
      match raised g with
      | Some e => MkWalk here (inl e)
      | None =>
          let w := variable_walk namespace doc_uri variable nodes'
                     current_block (result ++ yielded g) in
          MkWalk (here ++ trace w) (walk_result w)
      end
  end.

(** *** The workspace search

    What the server's other parts answer at one moment. *)
Record Workspace : Type := MkWorkspace {
  get_workspace_folder : string → option string;
  get_namespace : string → option Namespace;
  get_model : string → File;
  (** the URI of the document opened for a path *)
  get_or_open_document : string → string;
  to_path : string → string;
  (** the script and resource files below a folder that the
      configured patterns do not exclude *)
  iter_files : string → list string
}.

Definition lib_doc_in (lib_doc : LibraryDoc)
    (entries : list (string * LibraryDoc)) : bool :=
  existsb (λ e, librarydoc_eq lib_doc e.2) entries.

Definition _find_keyword_references_in_file (ws : Workspace)
    (canceled : nat → bool) (kw_doc : KeywordDoc)
    (lib_doc : option LibraryDoc) (file : string) : Walk :=
  let doc := get_or_open_document ws file in
  match get_namespace ws doc with
  | None => MkWalk [] (inl AttributeError)
  | Some namespace =>
      if match lib_doc with
         | Some lib_doc =>
             match lib_source lib_doc with
             | Some lib_source =>
                 negb (bool_decide (file = lib_source))
                 && negb (lib_doc_in lib_doc (get_libraries namespace))
                 && negb (lib_doc_in lib_doc (get_resources namespace))
             | None => false
             end
         | None => false
         end
      then MkWalk [] (inr [])
      else _find_keyword_references_in_namespace canceled namespace kw_doc
  end.

Definition _find_variable_references_in_file (ws : Workspace)
    (variable : VariableDefinition) (file : string) : Walk :=
  let doc := get_or_open_document ws file in
  variable_walk (get_namespace ws doc) doc variable
    (iter_nodes (get_model ws doc)) None [].

(** [asyncio.gather(..., return_exceptions=True)] followed by the
    loop that logs the exceptions and extends [result] with the
    rest. *)
Definition gather (futures : list Walk) : list Location :=
  futures ≫= λ w,
    match walk_result w with
    | inl _ => []
    | inr e => e
    end.

Definition owning_library (kw_doc : KeywordDoc)
    (entries : list (string * LibraryDoc)) : option LibraryDoc :=
  snd <$> List.find
            (λ e, existsb (keyworddoc_eq kw_doc) (keywords e.2)) entries.

(** [_find_keyword_references]; the Python value [None] is [None],
    a list [l] is [Some l]. *)
Definition _find_keyword_references (ws : Workspace)
    (canceled : string → nat → bool) (document : string)
    (kw_doc : KeywordDoc) : option (list Location) :=
  match get_workspace_folder ws document with
  | None => Some []
  | Some folder =>
      match get_namespace ws document with
      | None => None
      | Some namespace =>
          let lib_doc :=
            match owning_library kw_doc (get_libraries namespace) with
            | Some l => l
            | None =>
                match owning_library kw_doc (get_resources namespace) with
                | Some l => l
                | None => get_library_doc namespace
                end
            end in
          let futures :=
            (λ f, _find_keyword_references_in_file ws (canceled f)
                    kw_doc (Some lib_doc) f) <$> iter_files ws folder in
          Some (gather futures)
      end
  end.

(** [_find_variable_references] *)
Definition _find_variable_references (ws : Workspace)
    (document : string) (variable : VariableDefinition)
  : option (list Location) :=
  match get_workspace_folder ws document with
  | None => Some []
  | Some folder =>
      match get_namespace ws document with
      | None => None
      | Some namespace =>
          let futures :=
            match var_class variable with
            | ArgumentDefinition | LocalVariableDefinition =>
                [_find_variable_references_in_file ws variable
                   (to_path ws document)]
            | OtherVariableDefinition =>
                (λ f, _find_variable_references_in_file ws variable f)
                  <$> iter_files ws folder
            end in
          Some (gather futures)
      end
  end.

(** Unpacking [*value] inside a list display: [None] is not
    iterable. *)
Definition splice (value : option (list Location))
  : exn + list Location :=
  match value with
  | None => inl TypeError
  | Some l => inr l
  end.

(** [references_KeywordName].  [ws] is what the server answers when
    the handler asks for the namespace, [ws'] what it answers later,
    when the search does. *)
Definition references_KeywordName (ws ws' : Workspace)
    (canceled : string → nat → bool) (node : Node) (document : string)
    (include_declaration : bool) : exn + option (list Location) :=
  match get_namespace ws document with
  | None => inr None
  | Some namespace =>
      match get_token node [KEYWORD_NAME] with
      | None => inr None
      | Some name_token =>
          match find_keyword namespace (value name_token) with
          | Some keyword =>
              match doc_source keyword with
              | Some keyword_source =>
                  if negb (bool_decide (keyword_source = ""))
                     && negb (is_error_handler keyword)
                  then
                    let declaration :=
                      if include_declaration
                      then [MkLocation (uri_from_path keyword_source)
                              (range_from_token_or_node node name_token)]
                      else [] in
                    match splice (_find_keyword_references ws' canceled
                                    document keyword) with
                    | inl e => inl e
                    | inr references =>
                        inr (Some (declaration ++ references)%list)
                    end
                  else inr None
              | None => inr None
              end
          | None => inr None
          end
      end
  end.

End search.

End References.

(** ** More of [folding_range.py]: the advertised capability *)

Module FoldingCapability.
Import AsyncEvent.

Record ServerCapabilities : Type := MkServerCapabilities {
  folding_range_provider : option bool
}.

(** [extend_capabilities]; [len] of the listener set counts the
    registered references. *)
Definition extend_capabilities
    (collect_folding_range : AsyncThreadingEventResultIteratorBase)
    (capabilities : ServerCapabilities) : ServerCapabilities :=
  if bool_decide (size (listeners (threading_base collect_folding_range)) ≠ 0)
  then MkServerCapabilities (Some true)
  else capabilities.

End FoldingCapability.

(** ** More of [references.py]: the choice of a handler *)

Module SyntaxDispatch.

(** A class of syntax tree nodes with its base classes, as [__bases__]
    gives them; [AST] is [ast.AST]. *)
Inductive Cls : Type :=
  | AST
  | Class (name : string) (bases : list Cls).

(** The attributes of the protocol part, by name: [Some true] for a
    callable one, [Some false] for another one, [None] when [hasattr]
    fails. *)
Definition Attributes : Type := string → option bool.

(** [_find_method]; the result is the name of the method found. *)
Fixpoint _find_method (self : Attributes) (cls : Cls) : option string :=
  match cls with
  | AST => None
  | Class name bases =>
      let method_name := "references_" +:+ name in
      let in_bases :=
        (fix first (bs : list Cls) : option string :=
           match bs with
           | [] => None
           | base :: bs' =>
               match _find_method self base with
               | Some method => Some method
               | None => first bs'
               end
           end) bases in
      match self method_name with
      | Some true => Some method_name
      | _ => in_bases
      end
  end.

(** The classes [_find_method] looks at, below [ast.AST]: the class
    itself and, through its bases, those above it. *)
Inductive looks_at : Cls → Cls → Prop :=
  | looks_at_self name bases : looks_at (Class name bases) (Class name bases)
  | looks_at_base name bases base c :
      base ∈ bases → looks_at base c → looks_at (Class name bases) c.

Definition class_name (c : Cls) : string :=
  match c with
  | AST => "AST"
  | Class name _ => name
  end.

(** The handlers [RobotReferencesProtocolPart] defines. *)
Definition part_attributes : Attributes := λ name,
  if bool_decide (name ∈ ["references_KeywordName"; "references_KeywordCall";
                          "references_Fixture"; "references_TestTemplate";
                          "references_Template"])
  then Some true else None.

End SyntaxDispatch.

(** ** More of [references.py]: the default handler *)

Module DefaultHandler.
Import References.

(** The helpers of [utils.ast] and [lsp_types] that only the default
    handler calls. *)
Class PositionHelpers : Type := MkPositionHelpers {
  get_tokens_at_position : Node → Position → list Token;
  is_in_range : Position → Range → bool;
  (** [tokenize_variables(token, ignore_errors=True)] *)
  tokenize_variables_ignoring_errors : Token → list Token
}.

Section default_handler.
Context `{Helpers} `{PositionHelpers}.

(** The exceptions the handler lets through:
<<
    except (SystemExit, KeyboardInterrupt, asyncio.CancelledError):
        raise
    except BaseException:
        pass
>> *)
Definition passes_through (e : exn) : bool :=
  match e with
  | SystemExit | KeyboardInterrupt | CancelledError => true
  | _ => false
  end.

(** The inner loop, over the variable tokens of one token: [inr (Some l)]
    when it returns [l], [inr None] when it ends, [inl e] when [e] is
    raised. *)
Fixpoint sub_tokens_loop (ws' : Workspace) (namespace : Namespace)
    (nodes : list Node) (document : string) (position : Position)
    (include_declaration : bool) (sub_tokens : list Token)
  : exn + option (list Location) :=
  match sub_tokens with
  | [] => inr None
  | sub_token :: rest =>
      let continue :=
        sub_tokens_loop ws' namespace nodes document position
          include_declaration rest in
      if bool_decide (type sub_token = VARIABLE) then
        let range := range_from_token sub_token in
        if is_in_range position range then
          match find_variable namespace (value sub_token) nodes position with
          | Some variable =>
              let declaration :=
                match var_source variable with
                | Some variable_source =>
                    if include_declaration
                       && negb (bool_decide (variable_source = ""))
                    then [MkLocation (uri_from_path variable_source)
                            (var_range variable)]
                    else []
                | None => []
                end in
              match splice (_find_variable_references ws' document variable) with
              | inl e => inl e
              | inr references => inr (Some (declaration ++ references))
              end
          | None => continue
          end
        else continue
      else continue
  end.

(** The outer loop, over the tokens at the position, with its [try]. *)
Fixpoint tokens_loop (ws' : Workspace) (namespace : Namespace)
    (nodes : list Node) (document : string) (position : Position)
    (include_declaration : bool) (toks : list Token)
  : exn + option (list Location) :=
  match toks with
  | [] => inr None
  | token :: rest =>
      match sub_tokens_loop ws' namespace nodes document position
              include_declaration (tokenize_variables_ignoring_errors token)
      with
      | inr (Some result) => inr (Some result)
      | inr None =>
          tokens_loop ws' namespace nodes document position
            include_declaration rest
      | inl e =>
          if passes_through e then inl e
          else tokens_loop ws' namespace nodes document position
                 include_declaration rest
      end
  end.

(** [_references_default]; [ws] and [ws'] as for
    [references_KeywordName]. *)
Definition _references_default (ws ws' : Workspace) (nodes : list Node)
    (document : string) (position : Position) (include_declaration : bool)
  : exn + option (list Location) :=
  match get_namespace ws document with
  | None => inr None
  | Some namespace =>
      match last nodes with
      | None => inr None
      | Some node =>
          match tokens node with
          | None => inr None
          | Some _ =>
              tokens_loop ws' namespace nodes document position
                include_declaration (get_tokens_at_position node position)
          end
      end
  end.

End default_handler.

End DefaultHandler.

(** ** Sample data *)

Module Samples.
Import AsyncEvent FoldingRangePart.

Definition suite : TextDocument :=
  MkTextDocument "file:///tests/suite.robot" "*** Test Cases ***".

Definition sections_listener : callable collect_args (list FoldingRange) :=
  λ _, Returned [MkFoldingRange 0 3].
Definition blocks_listener : callable collect_args (list FoldingRange) :=
  λ _, Returned [MkFoldingRange 1 2; MkFoldingRange 5 9].
Definition failing_listener : callable collect_args (list FoldingRange) :=
  λ _, Raised (ListenerError 7).

Definition sample_objs : gmap nat (callable collect_args (list FoldingRange)) :=
  {[ 1 := sections_listener; 2 := failing_listener; 3 := blocks_listener ]}.

Definition sample_base : AsyncEventResultIteratorBase := MkBase {[ 1; 2; 3 ]}.

Definition sample_world : World := MkWorld sample_objs sample_base.

(** Futures that finish in the order of submission, and in the
    opposite order. *)
Definition in_order : Scheduler (list FoldingRange) :=
  @MkScheduler _ (λ l, l) (λ l, Permutation_refl l).

Definition last_first : Scheduler (list FoldingRange) :=
  @MkScheduler _ reverse reverse_Permutation.

Definition sample_ops : list op :=
  [OpExpire 3; OpAdd 4 blocks_listener; OpRemove 1].



Definition sample_descriptor
  : AsyncEventDescriptorBase AsyncTaskingEventResultIteratorBase :=
  __set_name__
    (descriptor_init "collect" (MkTasking __init__ "AsyncTaskingEvent"))
    "ReferencesProtocolPart" "collect".

(** A second event, declared beside the first. *)
Definition other_descriptor
  : AsyncEventDescriptorBase AsyncTaskingEventResultIteratorBase :=
  __set_name__
    (descriptor_init "other" (MkTasking __init__ "AsyncTaskingEvent"))
    "ReferencesProtocolPart" "other".



Definition unnamed_listener
  : Submission.Listener collect_args (list FoldingRange) :=
  Submission.MkListener (λ _, inr (Returned [MkFoldingRange 4 6])) None.



(** A listener that returns the value [None]. *)
Definition silent_listener
  : Submission.Listener collect_args (list FoldingRange) :=
  Submission.listener_of "Silent.collect" (λ _, Returned []).

(** *** A script with run keywords *)

Import References.

Definition lower (c : ascii) : ascii :=
  let n := Ascii.nat_of_ascii c in
  if bool_decide (65 ≤ n ∧ n ≤ 90)%nat then Ascii.ascii_of_nat (n + 32)
  else c.

(** Lower case, without spaces and underscores. *)
Fixpoint normalize (s : string) : string :=
  match s with
  | EmptyString => EmptyString
  | String c s' =>
      if bool_decide (c = " "%char ∨ c = "_"%char) then normalize s'
      else String (lower c) (normalize s')
  end.

Definition token_range (t : Token) : Range :=
  MkRange (MkPosition (lineno t) (col_offset t))
          (MkPosition (lineno t) (col_offset t + String.length (value t))).

Definition is_variable_text (s : string) : bool := String.prefix "${" s.

(** Helpers for scripts whose names have no qualifier and no escape,
    and whose variable tokens are a single variable. *)
Definition sample_helpers : Helpers := {|
  is_not_variable_token t := negb (is_variable_text (value t));
  unescape s := s;
  iter_over_keyword_names_and_owners s := [(None, Some s)];
  KeywordMatcher := normalize;
  ALL_RUN_KEYWORDS_MATCHERS :=
    normalize <$> ["Run Keyword"; "Run Keywords"; "Run Keyword If";
                   "Run Keyword Unless"; "Wait Until Keyword Succeeds"];
  range_from_token := token_range;
  range_from_token_or_node _ t := token_range t;
  tokenize_variables t :=
    if is_variable_text (value t)
    then [MkToken VARIABLE (value t) (lineno t) (col_offset t)]
    else [t];
  iter_nodes := file_nodes;
  uri_from_path p := "file://" +:+ p;
  uri_from_path_normalized p := "file://" +:+ p
|}.

Definition nowhere : Range := MkRange (MkPosition 0 0) (MkPosition 0 0).

Definition user_keyword (oid : nat) (name : string) : KeywordDoc :=
  MkKeywordDoc oid name (Some "/tests/keywords.resource") nowhere
    false false false false 0 false false.

Definition run_keyword_doc : KeywordDoc :=
  MkKeywordDoc 1 "Run Keyword" None nowhere false true true false 0 false false.
Definition run_keywords_doc : KeywordDoc :=
  MkKeywordDoc 2 "Run Keywords" None nowhere false true false false 0 true false.
Definition run_keyword_if_doc : KeywordDoc :=
  MkKeywordDoc 3 "Run Keyword If" None nowhere false true false false 0 false true.
Definition run_keyword_unless_doc : KeywordDoc :=
  MkKeywordDoc 4 "Run Keyword Unless" None nowhere
    false true false true 1 false false.
Definition wait_until_doc : KeywordDoc :=
  MkKeywordDoc 5 "Wait Until Keyword Succeeds" None nowhere
    false true false true 2 false false.

Definition kw_a : KeywordDoc := user_keyword 10 "KwA".
Definition kw_b : KeywordDoc := user_keyword 11 "KwB".
Definition kw_c : KeywordDoc := user_keyword 12 "KwC".
Definition my_keyword : KeywordDoc := user_keyword 13 "My Keyword".
(** a keyword whose name is also the text of an argument *)
Definition arg1_keyword : KeywordDoc := user_keyword 14 "arg1".
(** a second keyword named as [my_keyword] is, in another resource *)
Definition other_my_keyword : KeywordDoc :=
  MkKeywordDoc 15 "My Keyword" (Some "/tests/other.resource") nowhere
    false false false false 0 false false.

Definition sample_keywords : list KeywordDoc :=
  [run_keyword_doc; run_keywords_doc; run_keyword_if_doc;
   run_keyword_unless_doc; wait_until_doc;
   kw_a; kw_b; kw_c; my_keyword; arg1_keyword].

Definition lookup_keyword (docs : list KeywordDoc) (name : string)
  : option KeywordDoc :=
  List.find (λ k, bool_decide (normalize (doc_name k) = normalize name)) docs.

Definition keywords_resource : LibraryDoc :=
  MkLibraryDoc 100 (Some "/tests/keywords.resource")
    [kw_a; kw_b; kw_c; my_keyword; arg1_keyword].

Definition suite_doc : LibraryDoc :=
  MkLibraryDoc 101 (Some "/tests/suite.robot") [].

Definition keyword_token (v : string) : Token := MkToken KEYWORD v 3 4.
Definition argument (v : string) (col : nat) : Token :=
  MkToken ARGUMENT v 3 col.

(** [Run Keywords    KwA    AND    KwB    arg1] *)
Definition run_keywords_call : Node :=
  MkNode KeywordCall
    (Some [keyword_token "Run Keywords"; argument "KwA" 20;
           argument "AND" 27; argument "KwB" 34; argument "arg1" 41]).

(** [Run Keyword If    ${cond}    KwA    ELSE IF    ${cond2}    KwB
    ELSE    KwC] *)
Definition run_keyword_if_call : Node :=
  MkNode KeywordCall
    (Some [keyword_token "Run Keyword If"; argument "${cond}" 22;
           argument "KwA" 33; argument "ELSE IF" 40;
           argument "${cond2}" 51; argument "KwB" 63;
           argument "ELSE" 70; argument "KwC" 78]).

(** [Run Keyword If    ${cond}    KwA    arg1] *)
Definition run_keyword_if_short_call : Node :=
  MkNode KeywordCall
    (Some [keyword_token "Run Keyword If"; argument "${cond}" 22;
           argument "KwA" 33; argument "arg1" 40]).

(** [Wait Until Keyword Succeeds    3x    ${interval}    My Keyword] *)
Definition wait_until_call : Node :=
  MkNode KeywordCall
    (Some [keyword_token "Wait Until Keyword Succeeds";
           argument "3x" 35; argument "${interval}" 41;
           argument "My Keyword" 56]).

(** [Wait Until Keyword Succeeds    3x    1s    My Keyword] *)
Definition wait_until_plain_call : Node :=
  MkNode KeywordCall
    (Some [keyword_token "Wait Until Keyword Succeeds";
           argument "3x" 35; argument "1s" 41;
           argument "My Keyword" 47]).

Definition test_case : Node :=
  MkNode TestCase (Some [MkToken "TESTCASE NAME" "Example" 2 0]).

Definition sample_file : File :=
  MkFile [MkNode SectionBlock None; test_case; run_keywords_call;
          run_keyword_if_call; wait_until_call].

Definition sample_variable : VariableDefinition :=
  MkVariableDefinition 50 "${cond}" OtherVariableDefinition
    (Some "/tests/suite.robot") nowhere.

Definition sample_namespace : Namespace := {|
  source := "/tests/suite.robot";
  model := sample_file;
  find_keyword := lookup_keyword sample_keywords;
  find_variable name _ _ :=
    if bool_decide (name = "${cond}") then Some sample_variable else None;
  get_libraries := [];
  get_resources := [("keywords", keywords_resource)];
  get_libraries_matchers := [];
  get_resources_matchers := [normalize "keywords"];
  get_library_doc := suite_doc
|}.

(** The same file when its import resolves [My Keyword] to the other
    definition of that name. *)
Definition shadowing_namespace : Namespace := {|
  source := "/tests/suite.robot";
  model := sample_file;
  find_keyword := lookup_keyword (other_my_keyword :: sample_keywords);
  find_variable _ _ _ := None;
  get_libraries := [];
  get_resources := [("other", keywords_resource)];
  get_libraries_matchers := [];
  get_resources_matchers := [normalize "other"];
  get_library_doc := suite_doc
|}.

(** A workspace with one folder and one script in it. *)
Definition sample_workspace : Workspace := {|
  get_workspace_folder u :=
    if String.prefix "file:///tests/" u then Some "/tests" else None;
  get_namespace u :=
    if bool_decide (u = "file:///tests/suite.robot")
    then Some sample_namespace else None;
  get_model _ := sample_file;
  get_or_open_document p := "file://" +:+ p;
  to_path u := String.substring 7 (String.length u - 7) u;
  iter_files _ := ["/tests/suite.robot"]
|}.

(** The workspace once the namespace of the script is gone. *)
Definition stale_workspace : Workspace := {|
  get_workspace_folder := get_workspace_folder sample_workspace;
  get_namespace _ := None;
  get_model := get_model sample_workspace;
  get_or_open_document := get_or_open_document sample_workspace;
  to_path := to_path sample_workspace;
  iter_files := iter_files sample_workspace
|}.

Definition never_canceled : string → nat → bool := λ _ _, false.

(** Positions on the line of a token, between its ends. *)
Definition position_in (p : Position) (r : Range) : bool :=
  bool_decide (line p = line (range_start r)
               ∧ character (range_start r) ≤ character p
               ∧ character p ≤ character (range_end r))%nat.

Definition sample_position_helpers : DefaultHandler.PositionHelpers := {|
  DefaultHandler.get_tokens_at_position node p :=
    List.filter (λ t, position_in p (token_range t))
                (default [] (tokens node));
  DefaultHandler.is_in_range := position_in;
  DefaultHandler.tokenize_variables_ignoring_errors :=
    tokenize_variables (Helpers:=sample_helpers)
|}.

(** The header of the definition of [My Keyword]. *)
Definition my_keyword_header : Node :=
  MkNode KeywordName (Some [MkToken KEYWORD_NAME "My Keyword" 9 0]).

End Samples.

(** * Properties *)

(** ** Generators *)

Lemma gen_seq_pass_l {A} (g : Gen A) : gen_seq gen_pass g = g.
Proof. by destruct g. Qed.

Lemma gen_seq_pass_r {A} (g : Gen A) : gen_seq g gen_pass = g.
Proof.
  destruct g as [l [e|]]; rewrite /gen_seq /=; [done|].
  by rewrite app_nil_r.
Qed.

Lemma gen_seq_assoc {A} (g1 g2 g3 : Gen A) :
  gen_seq g1 (gen_seq g2 g3) = gen_seq (gen_seq g1 g2) g3.
Proof.
  destruct g1 as [l1 [e1|]], g2 as [l2 [e2|]], g3 as [l3 e3];
    rewrite /gen_seq /= ?app_assoc //.
Qed.

Lemma elem_of_gen_seq {A} (x : A) (g1 g2 : Gen A) :
  x ∈ yielded (gen_seq g1 g2) → x ∈ yielded g1 ∨ x ∈ yielded g2.
Proof.
  rewrite /gen_seq. destruct (raised g1); [by left|].
  simpl. by rewrite elem_of_app.
Qed.

Lemma elem_of_gen_for {A B} (x : A) (l : list B) (body : B → Gen A) :
  x ∈ yielded (gen_for l body) → ∃ y, y ∈ l ∧ x ∈ yielded (body y).
Proof.
  induction l as [|y l IH]; simpl.
  - by intros ?%elem_of_nil.
  - intros [Hx|Hx]%elem_of_gen_seq.
    + exists y. split; [left|done].
    + destruct (IH Hx) as (z & ? & ?). exists z. split; [by right|done].
Qed.

Lemma gen_for_app {A B} (l1 l2 : list B) (f : B → Gen A) :
  gen_for (l1 ++ l2) f = gen_seq (gen_for l1 f) (gen_for l2 f).
Proof.
  induction l1 as [|x l1 IH]; simpl.
  - by rewrite gen_seq_pass_l.
  - by rewrite IH gen_seq_assoc.
Qed.

Lemma gen_for_ext {A B} (l : list B) (f1 f2 : B → Gen A) :
  (∀ x, x ∈ l → f1 x = f2 x) → gen_for l f1 = gen_for l f2.
Proof.
  induction l as [|x l IH]; intros Hf; simpl; [done|].
  assert (f1 x = f2 x) as -> by (apply Hf; left).
  f_equal. apply IH. intros y Hy. apply Hf. by right.
Qed.

Lemma gen_bind_pass {A B} (f : A → Gen B) : gen_bind gen_pass f = gen_pass.
Proof. done. Qed.

Lemma gen_bind_yield {A B} (x : A) (f : A → Gen B) :
  gen_bind (gen_yield x) f = f x.
Proof.
  rewrite /gen_bind /=. change (MkGen [] None) with (@gen_pass B).
  by rewrite !gen_seq_pass_r.
Qed.

Lemma gen_bind_raise {A B} e (f : A → Gen B) :
  gen_bind (gen_raise e) f = gen_raise e.
Proof. done. Qed.

Lemma gen_bind_seq {A B} (g1 g2 : Gen A) (f : A → Gen B) :
  gen_bind (gen_seq g1 g2) f = gen_seq (gen_bind g1 f) (gen_bind g2 f).
Proof.
  destruct g1 as [l1 [e1|]], g2 as [l2 r2]; rewrite /gen_bind /=.
  - rewrite {1}/gen_seq /=.
    set (g := gen_seq (gen_for l1 f) (MkGen [] (Some e1))).
    assert (Hg : is_Some (raised g)).
    { rewrite /g /gen_seq.
      destruct (raised (gen_for l1 f)) eqn:E; rewrite /= ?E; eauto. }
    destruct Hg as [e He]. rewrite /gen_seq He. done.
  - rewrite {1}/gen_seq /= gen_for_app.
    change (MkGen [] None) with (@gen_pass B).
    by rewrite gen_seq_pass_r gen_seq_assoc.
Qed.

Lemma gen_bind_ext {A B} (g : Gen A) (f1 f2 : A → Gen B) :
  (∀ x, x ∈ yielded g → f1 x = f2 x) → gen_bind g f1 = gen_bind g f2.
Proof. intros Hf. rewrite /gen_bind. by rewrite (gen_for_ext _ f1 f2). Qed.

Lemma elem_of_gen_bind {A B} (x : B) (g : Gen A) (f : A → Gen B) :
  x ∈ yielded (gen_bind g f) → ∃ y, y ∈ yielded g ∧ x ∈ yielded (f y).
Proof.
  intros [Hx|Hx]%elem_of_gen_seq.
  - by apply elem_of_gen_for.
  - by apply elem_of_nil in Hx.
Qed.

Lemma raised_gen_seq {A} (g1 g2 : Gen A) :
  raised g1 = None → raised g2 = None → raised (gen_seq g1 g2) = None.
Proof. intros H1 H2. by rewrite /gen_seq H1. Qed.

Lemma yielded_gen_seq {A} (g1 g2 : Gen A) :
  raised g1 = None → yielded (gen_seq g1 g2) = yielded g1 ++ yielded g2.
Proof. intros H1. by rewrite /gen_seq H1. Qed.

Lemma raised_gen_for {A B} (l : list B) (f : B → Gen A) :
  (∀ x, x ∈ l → raised (f x) = None) → raised (gen_for l f) = None.
Proof.
  induction l as [|x l IH]; intros Hf; simpl; [done|].
  apply raised_gen_seq; [apply Hf; left|].
  apply IH. intros y Hy. apply Hf. by right.
Qed.

Lemma elem_of_gen_for_iff {A B} (x : A) (l : list B) (body : B → Gen A) :
  (∀ y, y ∈ l → raised (body y) = None) →
  x ∈ yielded (gen_for l body) ↔ ∃ y, y ∈ l ∧ x ∈ yielded (body y).
Proof.
  intros Hsafe. split; [apply elem_of_gen_for|].
  induction l as [|y l IH]; intros (z & Hz & Hx); simpl.
  { by apply elem_of_nil in Hz. }
  rewrite yielded_gen_seq; [|apply Hsafe; left].
  apply elem_of_app. apply elem_of_cons in Hz as [->|Hz]; [by left|].
  right. apply IH; [|by exists z]. intros w Hw. apply Hsafe. by right.
Qed.

(** ** Dispatch *)

Section dispatch_properties.
Import AsyncEvent.
Context {Args Res : Type}.
Implicit Types (objs : gmap nat (callable Args Res)) (args : Args).
Implicit Types (aws : list (future Res)) (sched : Scheduler Res).

Lemma bind_await_entry_ignoring aws :
  aws ≫= await_entry true = inl <$> returned_values aws.
Proof.
  induction aws as [|[r [v|e]] aws IH]; simpl; [done| |done].
  rewrite /await_entry /=. by f_equal.
Qed.

Lemma bind_await_entry_surfacing aws :
  aws ≫= await_entry false = tagged_entry <$> aws.
Proof.
  induction aws as [|[r [v|e]] aws IH]; simpl; [done| |];
    rewrite /await_entry /tagged_entry /=; by f_equal.
Qed.

Lemma returned_values_perm aws aws' :
  aws ≡ₚ aws' → returned_values aws ≡ₚ returned_values aws'.
Proof. intros Hp. rewrite /returned_values. by rewrite Hp. Qed.

Lemma raised_exceptions_perm aws aws' :
  aws ≡ₚ aws' → raised_exceptions aws ≡ₚ raised_exceptions aws'.
Proof. intros Hp. rewrite /raised_exceptions. by rewrite Hp. Qed.


Lemma awaitables_of_fst objs args refs r :
  r ∈ (awaitables_of objs args refs).*1 → r ∈ refs ∧ is_Some (objs !! r).
Proof.
  induction refs as [|x refs IH]; simpl.
  - by intros ?%elem_of_nil.
  - rewrite /deref. destruct (objs !! x) as [m|] eqn:Hx; simpl.
    + intros [->|Hr]%elem_of_cons.
      * split; [left|by eexists].
      * destruct (IH Hr). split; [by right|done].
    + intros Hr. destruct (IH Hr). split; [by right|done].
Qed.

Lemma awaitables_of_elem objs args refs r m :
  r ∈ refs → objs !! r = Some m → (r, m args) ∈ awaitables_of objs args refs.
Proof.
  intros Hr Hm. rewrite /awaitables_of list_elem_of_omap.
  exists r. split; [done|]. by rewrite /deref Hm.
Qed.

Lemma _notify_loop_invoked objs args refs r :
  r ∈ invoked (_notify_loop objs args refs) → r ∈ refs.
Proof.
  induction refs as [|x refs IH]; simpl.
  - by intros ?%elem_of_nil.
  - destruct (deref objs x) as [m|]; [destruct (m args)|]; simpl.
    + intros [->|Hr]%elem_of_cons; [left|right; auto].
    + intros ->%list_elem_of_singleton. left.
    + intros Hr. right; auto.
Qed.

Lemma remove_missing (self : AsyncEventResultIteratorBase) callback :
  callback ∉ listeners self → remove self callback = inl KeyError.
Proof.
  intros Hn. rewrite /remove /set_remove. by rewrite decide_False.
Qed.

Lemma remove_inv (self self' : AsyncEventResultIteratorBase) callback :
  remove self callback = inr self' →
  callback ∈ listeners self ∧ listeners self' = listeners self ∖ {[callback]}.
Proof.
  rewrite /remove /set_remove. case_decide; [|done].
  intros [= <-]. done.
Qed.

Lemma remove_listener_listeners (self : AsyncEventResultIteratorBase) ref :
  listeners (remove_listener self ref) = listeners self ∖ {[ref]}.
Proof.
  rewrite /remove_listener /set_remove. case_decide; [done|].
  set_solver.
Qed.

Lemma step_keeps_out (w : World (Args:=Args) (Res:=Res)) o callback :
  ¬ adds callback o →
  callback ∉ listeners (w_self w) →
  callback ∉ listeners (w_self (step w o)).
Proof.
  intros Ho Hn. destruct o as [c m|c|c]; simpl.
  - simpl in Ho. set_solver.
  - destruct (remove (w_self w) c) as [e|self'] eqn:Hr; [done|].
    apply remove_inv in Hr as [_ Hr]. simpl. set_solver.
  - rewrite remove_listener_listeners. set_solver.
Qed.

Lemma run_ops_keeps_out (w : World (Args:=Args) (Res:=Res)) ops callback :
  Forall (λ o, ¬ adds callback o) ops →
  callback ∉ listeners (w_self w) →
  callback ∉ listeners (w_self (run_ops w ops)).
Proof.
  intros Hops. revert w.
  induction Hops as [|o ops Ho _ IH]; intros w Hn; [done|].
  apply IH. by apply step_keeps_out.
Qed.

Lemma not_registered_not_invoked sched
    (self : AsyncEventResultIteratorBase) objs args kw prefix executor
    callback :
  callback ∉ listeners self →
  (callback ∉ invoked (_notify self objs args))
  ∧ (callback ∉ invoked (tasking_notify sched (MkTasking self prefix)
                           objs args kw))
  ∧ (callback ∉ invoked (threading_notify sched
                           (MkThreading self executor prefix)
                           objs args None kw).2).
Proof.
  intros Hn. split_and!.
  - intros Hi. apply _notify_loop_invoked in Hi.
    by apply elem_of_elements in Hi.
  - rewrite /tasking_notify /=.
    intros [Hi _]%awaitables_of_fst. by apply elem_of_elements in Hi.
  - rewrite /threading_notify /=.
    intros [Hi _]%awaitables_of_fst. by apply elem_of_elements in Hi.
Qed.

(** C6: as long as a listener is not added (again), [remove] on it
    raises [KeyError], the "not found" failure, when it was never
    added and when it has expired; and once [remove] has succeeded no
    dispatch of any of the three kinds calls it, and a second [remove]
    fails. *)
Theorem C6_remove_unregisters sched (w : World (Args:=Args) (Res:=Res))
    callback ops args kw prefix executor :
  Forall (λ o, ¬ adds callback o) ops →
  remove (w_self (run_ops (MkWorld (w_objs w) __init__) ops)) callback
    = inl KeyError
  ∧ remove (w_self (run_ops (step w (OpExpire callback)) ops)) callback
    = inl KeyError
  ∧ (∀ self', remove (w_self w) callback = inr self' →
      let w' := run_ops (MkWorld (w_objs w) self') ops in
      (callback ∉ invoked (_notify (w_self w') (w_objs w') args))
      ∧ (callback ∉ invoked (tasking_notify sched
                               (MkTasking (w_self w') prefix)
                               (w_objs w') args kw))
      ∧ (callback ∉ invoked (threading_notify sched
                               (MkThreading (w_self w') executor prefix)
                               (w_objs w') args None kw).2)
      ∧ remove (w_self w') callback = inl KeyError).
Proof.
  intros Hops. split_and!.
  - apply remove_missing, run_ops_keeps_out; [done|]. simpl. set_solver.
  - apply remove_missing, run_ops_keeps_out; [done|]. simpl.
    rewrite remove_listener_listeners. set_solver.
  - intros self' [_ Hr]%remove_inv w'.
    assert (Hout : callback ∉ listeners (w_self w')).
    { apply run_ops_keeps_out; [done|]. simpl. rewrite Hr. set_solver. }
    destruct (not_registered_not_invoked sched (w_self w') (w_objs w')
                args kw prefix executor callback Hout) as (?&?&?).
    split_and!; [done..|]. by apply remove_missing.
Qed.

End dispatch_properties.

(** What C6 says of a dispatcher with three listeners, for the second
    of them. *)
Lemma C6_remove_unregisters_witness :
  Forall (λ o, ¬ AsyncEvent.adds 2 o) Samples.sample_ops
  ∧ AsyncEvent.remove (AsyncEvent.w_self Samples.sample_world) 2
    = inr (AsyncEvent.MkBase ({[ 1; 2; 3 ]} ∖ {[ 2 ]}))
  ∧ (2 ∉ AsyncEvent.invoked
           (AsyncEvent._notify
              (AsyncEvent.w_self
                 (AsyncEvent.run_ops
                    (AsyncEvent.MkWorld Samples.sample_objs
                       (AsyncEvent.MkBase ({[ 1; 2; 3 ]} ∖ {[ 2 ]})))
                    Samples.sample_ops))
              (AsyncEvent.w_objs
                 (AsyncEvent.run_ops
                    (AsyncEvent.MkWorld Samples.sample_objs
                       (AsyncEvent.MkBase ({[ 1; 2; 3 ]} ∖ {[ 2 ]})))
                    Samples.sample_ops))
              (0, Samples.suite))).
Proof.
  assert (Hops : Forall (λ o, ¬ AsyncEvent.adds 2 o) Samples.sample_ops).
  { repeat constructor; simpl; auto. }
  assert (Hrm : AsyncEvent.remove (AsyncEvent.w_self Samples.sample_world) 2
                = inr (AsyncEvent.MkBase ({[ 1; 2; 3 ]} ∖ {[ 2 ]}))).
  { vm_compute. reflexivity. }
  split; [exact Hops|]. split; [exact Hrm|].
  destruct (C6_remove_unregisters Samples.in_order Samples.sample_world 2
              Samples.sample_ops (0, Samples.suite) AsyncEvent.no_kwargs
              "prefix" None Hops) as (_ & _ & H).
  exact (proj1 (H _ Hrm)).
Defined.

(** ** Event descriptors *)

Section descriptor_properties.
Import AsyncEvent.
Context {Event : Type}.
Implicit Types (d : AsyncEventDescriptorBase Event) (store : gmap nat Event).

Lemma get_on_class d store : __get__ d store None = (d, store, TheDescriptor).
Proof. done. Qed.

(** The first access through an instance allocates the event, at an
    address that was free. *)
Lemma get_first d store obj :
  __event d = None →
  ∃ address,
    store !! address = None
    ∧ __get__ d store (Some obj)
      = (MkDescriptor (_func d) (__factory d) (Some address)
           (_owner d) (_owner_name d),
         <[address := __factory d]> store, TheEvent address).
Proof.
  intros Hd. exists (fresh (dom store)). split.
  - apply not_elem_of_dom, is_fresh.
  - by rewrite /__get__ Hd.
Qed.



End descriptor_properties.

Section descriptor_sharing.
Import AsyncEvent.
Context {Args Res : Type}.
Abbreviation Tasking := AsyncTaskingEventResultIteratorBase.
Implicit Types (d : AsyncEventDescriptorBase Tasking).
Implicit Types (store : gmap nat Tasking).
Implicit Types (objs : gmap nat (callable Args Res)).


End descriptor_sharing.


(** ** Folding ranges *)

Section folding_range_properties.
Import AsyncEvent FoldingRangePart.

Lemma aggregate_values (values : list (list FoldingRange)) results logged :
  aggregate (inl <$> values) results logged
  = (results ++ mjoin values, logged).
Proof.
  revert results. induction values as [|v values IH]; intros results; simpl.
  - by rewrite app_nil_r.
  - by rewrite IH app_assoc.
Qed.

End folding_range_properties.

(** ** Unwrapping of run keywords *)

Section unwrap_properties.
Import References.
Context `{Helpers}.

Local Abbreviation record := (λ t args u, gen_yield (t, args, u)).

Lemma py_index_lt l x i : py_index l x = Some i → i < length l.
Proof.
  revert i. induction l as [|y l IH]; intros i; simpl; [done|].
  case_decide; [intros [= <-]; lia|].
  destruct (py_index l x) as [j|]; simpl; [|done].
  intros [= <-]. specialize (IH j eq_refl). lia.
Qed.

Lemma py_index_lookup l x i : py_index l x = Some i → l !! i = Some x.
Proof.
  revert i. induction l as [|y l IH]; intros i; simpl; [done|].
  case_decide; [intros [= <-]; by subst|].
  destruct (py_index l x) as [j|]; simpl; [|done].
  intros [= <-]. by apply IH.
Qed.

(** [arguments.index(separator_token)] finds the token that [next]
    found: the [ValueError] of the model never happens. *)
Lemma py_index_of_find (P : Token → bool) l x :
  List.find P l = Some x →
  ∃ i, py_index l x = Some i
       ∧ List.find P (take i l) = None
       ∧ l !! i = Some x ∧ P x = true.
Proof.
  induction l as [|y l IH]; simpl; [done|].
  destruct (P y) eqn:Hy.
  - intros [= ->]. exists 0. by rewrite decide_True.
  - intros Hf. destruct (IH Hf) as (i & Hi & Hnone & Hl & Hx).
    exists (S i). case_decide as Heq.
    + subst y. congruence.
    + rewrite Hi /= Hy. done.
Qed.

Section replay.
Context {A : Type} (rec : Token → list Token → bool → Gen A).

Lemma nested_replay t args :
  nested rec t args = gen_bind (nested record t args) (invoke rec).
Proof.
  rewrite /nested. destruct (is_not_variable_token t); [|done].
  by rewrite gen_bind_yield.
Qed.

Lemma run_keywords_loop_replay fuel arguments has_separator :
  run_keywords_loop rec fuel arguments has_separator
  = gen_bind (run_keywords_loop record fuel arguments has_separator)
      (invoke rec).
Proof.
  revert arguments has_separator.
  induction fuel as [|fuel IH]; intros [|t arguments] hs; simpl;
    try done.
  destruct (is_AND t); [apply IH|].
  destruct (List.find is_AND arguments) as [sep|].
  - destruct (py_index arguments sep) as [i|]; [|done].
    by rewrite gen_bind_seq -IH -nested_replay.
  - by rewrite gen_bind_seq -IH -nested_replay.
Qed.

Lemma run_keyword_if_loop_replay fuel arguments :
  run_keyword_if_loop rec fuel arguments
  = gen_bind (run_keyword_if_loop record fuel arguments) (invoke rec).
Proof.
  revert arguments.
  induction fuel as [|fuel IH]; intros [|t arguments]; simpl; try done.
  destruct (is_ELSE t); [apply IH|].
  destruct (List.find is_ELSE arguments) as [sep|].
  - destruct (py_index arguments sep) as [i|]; [|done].
    by rewrite gen_bind_seq -IH -nested_replay.
  - by rewrite gen_bind_seq -IH -nested_replay.
Qed.

(** The unwrapper does nothing with [rec] but call it on the
    invocations [nested_invocations] lists, in that order. *)
Lemma any_run_keyword_replay namespace kw_token arguments :
  any_run_keyword rec namespace kw_token arguments
  = gen_bind (nested_invocations namespace kw_token arguments)
      (invoke rec).
Proof.
  rewrite /nested_invocations /any_run_keyword.
  destruct (is_not_variable_token kw_token); simpl; [|done].
  destruct (find_keyword namespace (value kw_token)) as [kw|]; [|done].
  destruct (is_any_run_keyword kw); simpl; [|done].
  assert (Hif :
    (if is_run_keyword_if kw && bool_decide (1 < length arguments)
     then run_keyword_if_loop rec (length arguments) (drop 1 arguments)
     else gen_pass)
    = gen_bind
        (if is_run_keyword_if kw && bool_decide (1 < length arguments)
         then run_keyword_if_loop record (length arguments)
                (drop 1 arguments)
         else gen_pass) (invoke rec)).
  { destruct (_ && _); [apply run_keyword_if_loop_replay|done]. }
  assert (Hkws :
    (if is_run_keywords kw
     then run_keywords_loop rec (length arguments) arguments false
     else if is_run_keyword_if kw && bool_decide (1 < length arguments)
     then run_keyword_if_loop rec (length arguments) (drop 1 arguments)
     else gen_pass)
    = gen_bind
        (if is_run_keywords kw
         then run_keywords_loop record (length arguments) arguments false
         else if is_run_keyword_if kw && bool_decide (1 < length arguments)
         then run_keyword_if_loop record (length arguments)
                (drop 1 arguments)
         else gen_pass) (invoke rec)).
  { destruct (is_run_keywords kw); [apply run_keywords_loop_replay|done]. }
  set (cond_guard := is_run_keyword_with_condition kw
                     && bool_decide (run_keyword_condition_count kw
                                     < length arguments)).
  assert (Hcond :
    (if cond_guard then
       match arguments !! 1 with
       | None => gen_raise IndexError
       | Some a1 =>
           if is_not_variable_token a1 then
             match arguments !! run_keyword_condition_count kw with
             | Some t =>
                 rec t (drop (S (run_keyword_condition_count kw)) arguments)
                   true
             | None => gen_raise IndexError
             end
           else
             if is_run_keywords kw
             then run_keywords_loop rec (length arguments) arguments false
             else if is_run_keyword_if kw
                     && bool_decide (1 < length arguments)
             then run_keyword_if_loop rec (length arguments)
                    (drop 1 arguments)
             else gen_pass
       end
     else
       if is_run_keywords kw
       then run_keywords_loop rec (length arguments) arguments false
       else if is_run_keyword_if kw && bool_decide (1 < length arguments)
       then run_keyword_if_loop rec (length arguments) (drop 1 arguments)
       else gen_pass)
    = gen_bind
        (if cond_guard then
           match arguments !! 1 with
           | None => gen_raise IndexError
           | Some a1 =>
               if is_not_variable_token a1 then
                 match arguments !! run_keyword_condition_count kw with
                 | Some t =>
                     record t
                       (drop (S (run_keyword_condition_count kw)) arguments)
                       true
                 | None => gen_raise IndexError
                 end
               else
                 if is_run_keywords kw
                 then run_keywords_loop record (length arguments)
                        arguments false
                 else if is_run_keyword_if kw
                         && bool_decide (1 < length arguments)
                 then run_keyword_if_loop record (length arguments)
                        (drop 1 arguments)
                 else gen_pass
           end
         else
           if is_run_keywords kw
           then run_keywords_loop record (length arguments) arguments false
           else if is_run_keyword_if kw
                   && bool_decide (1 < length arguments)
           then run_keyword_if_loop record (length arguments)
                  (drop 1 arguments)
           else gen_pass) (invoke rec)).
  { destruct cond_guard; [|done].
    destruct (arguments !! 1) as [a1|]; [|done].
    destruct (is_not_variable_token a1); [|done].
    destruct (arguments !! run_keyword_condition_count kw); [|done].
    by rewrite gen_bind_yield. }
  destruct (is_run_keyword kw && bool_decide (0 < length arguments));
    [|done].
  destruct (arguments !! 0) as [a0|]; [|done].
  destruct (is_not_variable_token a0); [|done].
  by rewrite gen_bind_yield.
Qed.

End replay.

(** Every nested invocation has fewer argument tokens than the call
    it is unwrapped from. *)
Lemma nested_shorter t args (i : Invocation) :
  i ∈ yielded (nested record t args) → i.1.2 = args.
Proof.
  rewrite /nested. destruct (is_not_variable_token t); simpl.
  - by intros ->%list_elem_of_singleton.
  - by intros ?%elem_of_nil.
Qed.

Lemma run_keywords_loop_shorter fuel arguments has_separator
    (i : Invocation) :
  i ∈ yielded (run_keywords_loop record fuel arguments has_separator) →
  length i.1.2 < length arguments.
Proof.
  revert arguments has_separator.
  induction fuel as [|fuel IH]; intros [|t arguments] hs; simpl;
    try by intros ?%elem_of_nil.
  destruct (is_AND t).
  { intros Hi%IH. lia. }
  destruct (List.find is_AND arguments) as [sep|].
  - destruct (py_index arguments sep) as [j|]; [|by intros ?%elem_of_nil].
    intros [Hi|Hi]%elem_of_gen_seq.
    + apply nested_shorter in Hi as ->. rewrite length_take. lia.
    + apply IH in Hi. rewrite length_drop in Hi. lia.
  - intros [Hi|Hi]%elem_of_gen_seq.
    + apply nested_shorter in Hi as ->. destruct hs; simpl; lia.
    + apply IH in Hi. lia.
Qed.

Lemma run_keyword_if_loop_shorter fuel arguments (i : Invocation) :
  i ∈ yielded (run_keyword_if_loop record fuel arguments) →
  length i.1.2 < length arguments.
Proof.
  revert arguments.
  induction fuel as [|fuel IH]; intros [|t arguments]; simpl;
    try by intros ?%elem_of_nil.
  destruct (is_ELSE t).
  { intros Hi%IH. lia. }
  destruct (List.find is_ELSE arguments) as [sep|].
  - destruct (py_index arguments sep) as [j|]; [|by intros ?%elem_of_nil].
    intros [Hi|Hi]%elem_of_gen_seq.
    + apply nested_shorter in Hi as ->. rewrite length_take. lia.
    + apply IH in Hi. case_bool_decide;
        rewrite ?length_drop in Hi; lia.
  - intros [Hi|Hi]%elem_of_gen_seq.
    + apply nested_shorter in Hi as ->. simpl; lia.
    + apply IH in Hi. lia.
Qed.

Lemma nested_invocations_shorter namespace kw_token arguments
    (i : Invocation) :
  i ∈ yielded (nested_invocations namespace kw_token arguments) →
  length i.1.2 < length arguments.
Proof.
  rewrite /nested_invocations /any_run_keyword.
  destruct (is_not_variable_token kw_token); simpl;
    [|by intros ?%elem_of_nil].
  destruct (find_keyword namespace (value kw_token)) as [kw|];
    [|by intros ?%elem_of_nil].
  destruct (is_any_run_keyword kw); simpl; [|by intros ?%elem_of_nil].
  assert (Hif : i ∈ yielded
      (if is_run_keyword_if kw && bool_decide (1 < length arguments)
       then run_keyword_if_loop record (length arguments) (drop 1 arguments)
       else gen_pass) → length i.1.2 < length arguments).
  { destruct (_ && _); [|by intros ?%elem_of_nil].
    intros Hi%run_keyword_if_loop_shorter. rewrite length_drop in Hi. lia. }
  assert (Hkws : i ∈ yielded
      (if is_run_keywords kw
       then run_keywords_loop record (length arguments) arguments false
       else if is_run_keyword_if kw && bool_decide (1 < length arguments)
       then run_keyword_if_loop record (length arguments) (drop 1 arguments)
       else gen_pass) → length i.1.2 < length arguments).
  { destruct (is_run_keywords kw); [|done].
    apply run_keywords_loop_shorter. }
  assert (Hcond : i ∈ yielded
      (if is_run_keyword_with_condition kw
          && bool_decide (run_keyword_condition_count kw < length arguments)
       then
         match arguments !! 1 with
         | None => gen_raise IndexError
         | Some a1 =>
             if is_not_variable_token a1 then
               match arguments !! run_keyword_condition_count kw with
               | Some t =>
                   record t
                     (drop (S (run_keyword_condition_count kw)) arguments)
                     true
               | None => gen_raise IndexError
               end
             else
               if is_run_keywords kw
               then run_keywords_loop record (length arguments)
                      arguments false
               else if is_run_keyword_if kw
                       && bool_decide (1 < length arguments)
               then run_keyword_if_loop record (length arguments)
                      (drop 1 arguments)
               else gen_pass
         end
       else
         if is_run_keywords kw
         then run_keywords_loop record (length arguments) arguments false
         else if is_run_keyword_if kw && bool_decide (1 < length arguments)
         then run_keyword_if_loop record (length arguments)
                (drop 1 arguments)
         else gen_pass) → length i.1.2 < length arguments).
  { destruct (is_run_keyword_with_condition kw); [|exact Hkws].
    rewrite andb_true_l.
    destruct (bool_decide (run_keyword_condition_count kw < length arguments))
      eqn:Hlen; [|exact Hkws].
    apply bool_decide_eq_true in Hlen.
    destruct (arguments !! 1) as [a1|]; [|by intros ?%elem_of_nil].
    destruct (is_not_variable_token a1); [|exact Hkws].
    destruct (arguments !! run_keyword_condition_count kw);
      [|by intros ?%elem_of_nil].
    intros ->%list_elem_of_singleton. simpl. rewrite length_drop. lia. }
  destruct (is_run_keyword kw); [|exact Hcond].
  rewrite andb_true_l.
  destruct (bool_decide (0 < length arguments)) eqn:Hlen; [|exact Hcond].
  apply bool_decide_eq_true in Hlen.
  destruct (arguments !! 0) as [a0|]; [|by intros ?%elem_of_nil].
  destruct (is_not_variable_token a0); [|exact Hcond].
  intros ->%list_elem_of_singleton. simpl. rewrite length_drop. lia.
Qed.

(** The loops are not cut short by their bound. *)
Lemma run_keywords_loop_fuel {A} (rec : Token → list Token → bool → Gen A)
    (f1 f2 : nat) (arguments : list Token) has_separator :
  (length arguments ≤ f1)%nat → (length arguments ≤ f2)%nat →
  run_keywords_loop rec f1 arguments has_separator
  = run_keywords_loop rec f2 arguments has_separator.
Proof.
  revert f2 arguments has_separator.
  induction f1 as [|f1 IH]; intros [|f2] [|t arguments] hs; simpl;
    try done; try lia.
  intros H1 H2. destruct (is_AND t); [apply IH; lia|].
  destruct (List.find is_AND arguments) as [sep|].
  - destruct (py_index arguments sep) as [j|]; [|done].
    f_equal. apply IH; rewrite length_drop; lia.
  - f_equal. apply IH; lia.
Qed.

Lemma run_keyword_if_loop_fuel {A}
    (rec : Token → list Token → bool → Gen A) (f1 f2 : nat)
    (arguments : list Token) :
  (length arguments ≤ f1)%nat → (length arguments ≤ f2)%nat →
  run_keyword_if_loop rec f1 arguments = run_keyword_if_loop rec f2 arguments.
Proof.
  revert f2 arguments.
  induction f1 as [|f1 IH]; intros [|f2] [|t arguments]; simpl;
    try done; try lia.
  intros H1 H2. destruct (is_ELSE t); [apply IH; lia|].
  destruct (List.find is_ELSE arguments) as [sep|].
  - destruct (py_index arguments sep) as [j|]; [|done].
    f_equal. apply IH; case_bool_decide; rewrite ?length_drop; lia.
  - f_equal. apply IH; lia.
Qed.

Lemma from_tokens_S fuel namespace kw_doc node kw_token arguments u :
  from_tokens (S fuel) namespace kw_doc node kw_token arguments u
  = from_tokens_body
      (λ t args u', from_tokens fuel namespace kw_doc node (Some t) args u')
      namespace kw_doc node kw_token arguments u.
Proof. done. Qed.

(** The body only calls [rec] on fewer argument tokens. *)
Lemma from_tokens_body_ext rec1 rec2 namespace kw_doc node kw_token
    arguments u :
  (∀ t args u', length args < length arguments →
                rec1 t args u' = rec2 t args u') →
  from_tokens_body rec1 namespace kw_doc node kw_token arguments u
  = from_tokens_body rec2 namespace kw_doc node kw_token arguments u.
Proof.
  intros Hrec. rewrite /from_tokens_body.
  destruct kw_token as [kw_token|]; [|done].
  destruct (is_not_variable_token kw_token); [|done].
  apply gen_for_ext. intros [lib name] _.
  destruct (match lib with Some _ => _ | None => _ end); [done|].
  destruct name as [name|]; [|done]. f_equal.
  destruct (_ && _); [|done].
  rewrite !any_run_keyword_replay. apply gen_bind_ext.
  intros i Hi%nested_invocations_shorter. by apply Hrec.
Qed.

(** The recursion of [get_keyword_references_from_tokens] is not cut
    short either: any bound above the number of argument tokens gives
    the same generator. *)
Lemma from_tokens_fuel f1 f2 namespace kw_doc node kw_token arguments u :
  length arguments < f1 → length arguments < f2 →
  from_tokens f1 namespace kw_doc node kw_token arguments u
  = from_tokens f2 namespace kw_doc node kw_token arguments u.
Proof.
  revert f2 kw_token arguments u.
  induction f1 as [|f1 IH]; intros [|f2] kw_token arguments u H1 H2;
    try lia.
  rewrite !from_tokens_S. apply from_tokens_body_ext.
  intros t args u' Hlt. apply IH; lia.
Qed.

(** [get_keyword_references_from_tokens] satisfies the equation its
    source text reads as. *)
Lemma get_keyword_references_from_tokens_unfold namespace kw_doc node
    kw_token arguments u :
  get_keyword_references_from_tokens namespace kw_doc node kw_token
    arguments u
  = from_tokens_body
      (λ t args u',
         get_keyword_references_from_tokens namespace kw_doc node
           (Some t) args u')
      namespace kw_doc node kw_token arguments u.
Proof.
  rewrite {1}/get_keyword_references_from_tokens from_tokens_S.
  apply from_tokens_body_ext. intros t args u' Hlt.
  rewrite /get_keyword_references_from_tokens.
  apply from_tokens_fuel; lia.
Qed.

End unwrap_properties.

(** ** The search accepts identical definitions only *)

Section search_properties.
Import References.
Context `{Helpers}.

Lemma from_tokens_keyword_use fuel namespace kw_doc node kw_token
    arguments u loc :
  loc ∈ yielded (from_tokens fuel namespace kw_doc node kw_token arguments u) →
  keyword_use namespace kw_doc node loc.
Proof.
  revert kw_token arguments u.
  induction fuel as [|fuel IH]; intros kw_token arguments u.
  { by intros ?%elem_of_nil. }
  rewrite from_tokens_S /from_tokens_body.
  destruct kw_token as [tok|]; [|by intros ?%elem_of_nil].
  destruct (is_not_variable_token tok) eqn:Hv; [|by intros ?%elem_of_nil].
  intros ([lib name] & Hin & Hloc)%elem_of_gen_for.
  destruct (match lib with Some _ => _ | None => _ end);
    [by apply elem_of_nil in Hloc|].
  destruct name as [name|]; [|by apply elem_of_nil in Hloc].
  apply elem_of_gen_seq in Hloc as [Hloc|Hloc].
  - case_bool_decide as Hm; [|by apply elem_of_nil in Hloc].
    destruct (find_keyword namespace _) as [kw|] eqn:Hk;
      [|by apply elem_of_nil in Hloc].
    destruct (keyworddoc_eq kw kw_doc) eqn:He;
      [|by apply elem_of_nil in Hloc].
    apply list_elem_of_singleton in Hloc as ->.
    apply bool_decide_eq_true in He.
    exists tok, (if u then unescape (value tok) else value tok),
      lib, name, kw.
    split_and!; try done. destruct u; auto.
  - destruct (_ && _); [|by apply elem_of_nil in Hloc].
    rewrite any_run_keyword_replay in Hloc.
    apply elem_of_gen_bind in Hloc as (i & _ & Hloc).
    by apply IH in Hloc.
Qed.

Lemma keyword_walk_use canceled k namespace kw_doc nodes result l loc :
  walk_result (keyword_walk canceled k namespace kw_doc nodes result)
    = inr l →
  loc ∈ l →
  loc ∈ result
  ∨ ∃ node, node ∈ nodes ∧ keyword_use namespace kw_doc node loc.
Proof.
  revert k result.
  induction nodes as [|node nodes IH]; intros k result; simpl.
  - intros [= <-] ?. by left.
  - destruct (canceled k); [done|].
    destruct (raised (references_at_node namespace kw_doc node)); [done|].
    simpl. intros Hw Hloc.
    destruct (IH _ _ Hw Hloc) as [Hr|(n & Hn & Hu)].
    + apply elem_of_app in Hr as [Hr|Hr]; [by left|]. right.
      exists node. split; [left|].
      rewrite /references_at_node in Hr.
      destruct (node_class node);
        try (by apply elem_of_nil in Hr);
        by apply from_tokens_keyword_use in Hr.
    + right. exists n. split; [by right|done].
Qed.

(** The block that the walk tracks is the block that encloses the
    node, as the latest test case or keyword that no section
    follows. *)
Lemma current_block_snoc visited node :
  current_block_of (visited ++ [node])
  = match node_class node with
    | SectionBlock => None
    | TestCase | Keyword => Some node
    | _ => current_block_of visited
    end.
Proof.
  rewrite /current_block_of reverse_snoc.
  by destruct node as [[] toks].
Qed.

Lemma current_block_nil : current_block_of [] = None.
Proof. done. Qed.

(** The references at one node, in a file that has a namespace. *)
Lemma variable_references_at_node_spec ns doc_uri variable current_block
    node :
  raised (variable_references_at_node (Some ns) doc_uri variable
            current_block node) = None
  ∧ ∀ loc,
      loc ∈ yielded (variable_references_at_node (Some ns) doc_uri variable
                       current_block node)
      ↔ ∃ toks token sub_token v,
          tokens node = Some toks
          ∧ token ∈ toks
          ∧ sub_token ∈ tokenize_variables token
          ∧ type sub_token = VARIABLE
          ∧ loc = MkLocation doc_uri (range_from_token sub_token)
          ∧ find_variable ns (value sub_token)
              (match current_block with
               | Some b => [b]
               | None => []
               end ++ [node])
              (range_start (range_from_token token)) = Some v
          ∧ var_oid v = var_oid variable.
Proof.
  assert (Hone : ∀ token sub_token,
    raised (variable_reference (Some ns) doc_uri variable current_block node
              token sub_token) = None).
  { intros token sub_token. rewrite /variable_reference.
    case_bool_decide; [|done].
    by destruct (match find_variable ns _ _ _ with
                 | Some v => variable_eq v variable
                 | None => false
                 end). }
  assert (Hinner : ∀ token,
    raised (gen_for (tokenize_variables token) (λ sub_token,
              variable_reference (Some ns) doc_uri variable current_block
                node token sub_token)) = None).
  { intros token. apply raised_gen_for. intros sub_token _. apply Hone. }
  rewrite /variable_references_at_node.
  destruct (tokens node) as [toks|] eqn:Htoks.
  - split; [apply raised_gen_for; intros token _; apply Hinner|].
    intros loc. rewrite elem_of_gen_for_iff; [|intros token _; apply Hinner].
    split.
    + intros (token & Htoken & Hloc).
      apply elem_of_gen_for_iff in Hloc as (sub_token & Hsub & Hloc);
        [|intros sub_token _; apply Hone].
      rewrite /variable_reference in Hloc.
      case_bool_decide as Hty; [|by apply elem_of_nil in Hloc].
      destruct (find_variable ns _ _ _) as [v|] eqn:Hfind;
        [|by apply elem_of_nil in Hloc].
      destruct (variable_eq v variable) eqn:He;
        [|by apply elem_of_nil in Hloc].
      apply list_elem_of_singleton in Hloc as ->.
      apply bool_decide_eq_true in He.
      by exists toks, token, sub_token, v.
    + intros (toks' & token & sub_token & v & [= <-] & Htoken & Hsub & Hty
              & -> & Hfind & Hid).
      exists token. split; [done|].
      apply elem_of_gen_for_iff; [intros ? _; apply Hone|].
      exists sub_token. split; [done|].
      rewrite /variable_reference bool_decide_true // Hfind.
      rewrite /variable_eq bool_decide_true //. left.
  - split; [done|]. intros loc. split; [by intros ?%elem_of_nil|].
    by intros (? & ? & ? & ? & ? & _).
Qed.

(** The walk over a file that has a namespace returns, and what it
    adds to its result are the uses of the variable at the nodes, each
    resolved through the scope chain of its node. *)
Lemma variable_walk_spec ns doc_uri variable visited nodes result :
  ∃ l,
    walk_result (variable_walk (Some ns) doc_uri variable nodes
                   (current_block_of visited) result) = inr (result ++ l)
    ∧ ∀ loc,
        loc ∈ l
        ↔ ∃ preceding node following toks token sub_token v,
            nodes = preceding ++ node :: following
            ∧ tokens node = Some toks
            ∧ token ∈ toks
            ∧ sub_token ∈ tokenize_variables token
            ∧ type sub_token = VARIABLE
            ∧ loc = MkLocation doc_uri (range_from_token sub_token)
            ∧ find_variable ns (value sub_token)
                (scope_chain (visited ++ preceding) node)
                (range_start (range_from_token token)) = Some v
            ∧ var_oid v = var_oid variable.
Proof.
  revert visited result.
  induction nodes as [|node nodes IH]; intros visited result; simpl.
  { exists []. split; [by rewrite app_nil_r|].
    intros loc. split; [by intros ?%elem_of_nil|].
    intros (preceding & ? & ? & ? & ? & ? & ? & Hnil & _).
    by destruct preceding. }
  rewrite -(current_block_snoc visited node).
  destruct (variable_references_at_node_spec ns doc_uri variable
              (current_block_of (visited ++ [node])) node) as [-> Hhere].
  simpl.
  destruct (IH (visited ++ [node])
              (result ++ yielded (variable_references_at_node (Some ns)
                                    doc_uri variable
                                    (current_block_of (visited ++ [node]))
                                    node))) as (l & -> & Hl).
  eexists. split; [by rewrite -app_assoc|].
  intros loc. rewrite elem_of_app Hhere Hl. split.
  - intros [(toks & token & sub_token & v & ?)
           |(preceding & node' & following & toks & token & sub_token & v
             & -> & Hrest)].
    + exists [], node, nodes, toks, token, sub_token, v.
      by rewrite app_nil_r /scope_chain.
    + exists (node :: preceding), node', following, toks, token, sub_token, v.
      split; [done|]. by rewrite (cons_middle node visited preceding)
                              (assoc_L (++)).
  - intros (preceding & node' & following & toks & token & sub_token & v
            & Hsplit & Hrest).
    destruct preceding as [|first preceding]; simplify_eq/=.
    + left. exists toks, token, sub_token, v.
      by rewrite app_nil_r /scope_chain in Hrest.
    + right. exists preceding, node', following, toks, token, sub_token, v.
      split; [done|]. by rewrite (cons_middle first visited preceding)
                              (assoc_L (++)) in Hrest.
Qed.

(** The walk over a file that has no namespace adds nothing to its
    result. *)
Lemma variable_walk_without_namespace doc_uri variable nodes current_block
    result l :
  walk_result (variable_walk None doc_uri variable nodes current_block
                 result) = inr l →
  l = result.
Proof.
  revert current_block result.
  induction nodes as [|node nodes IH]; intros cb result; simpl.
  { by intros [= <-]. }
  set (cb' := match node_class node with
              | SectionBlock => None
              | TestCase | Keyword => Some node
              | _ => cb
              end).
  assert (Hnone : yielded (variable_references_at_node None doc_uri variable
                             cb' node) = []).
  { destruct (yielded _) as [|loc locs] eqn:Hy; [done|].
    assert (Hloc : loc ∈ yielded (variable_references_at_node None doc_uri
                                    variable cb' node)).
    { rewrite Hy. left. }
    rewrite /variable_references_at_node in Hloc.
    destruct (tokens node); [|by apply elem_of_nil in Hloc].
    apply elem_of_gen_for in Hloc as (token & _ & Hloc).
    apply elem_of_gen_for in Hloc as (sub_token & _ & Hloc).
    rewrite /variable_reference in Hloc.
    case_bool_decide; by apply elem_of_nil in Hloc. }
  destruct (raised _); [done|]. simpl. rewrite Hnone app_nil_r. apply IH.
Qed.

(** What the walk over a file returns: the uses of the variable in
    the file. *)
Lemma variable_walk_uses ws variable file l :
  let doc := get_or_open_document ws file in
  walk_result (_find_variable_references_in_file ws variable file) = inr l →
  ∀ loc, loc ∈ l
         ↔ variable_use (get_namespace ws doc) doc variable
             (iter_nodes (get_model ws doc)) loc.
Proof.
  intros doc. rewrite /_find_variable_references_in_file. fold doc.
  destruct (get_namespace ws doc) as [ns|].
  - rewrite -current_block_nil.
    destruct (variable_walk_spec ns doc variable []
                (iter_nodes (get_model ws doc)) []) as (l' & -> & Hl).
    intros [= <-] loc. rewrite Hl /variable_use. split.
    + intros (preceding & node & following & toks & token & sub_token & v
              & ?). by exists ns, preceding, node, following, toks, token,
                      sub_token, v.
    + intros (ns' & preceding & node & following & toks & token & sub_token
              & v & [= <-] & ?).
      by exists preceding, node, following, toks, token, sub_token, v.
  - intros ->%variable_walk_without_namespace loc.
    split; [by intros ?%elem_of_nil|].
    by intros (? & ? & ? & ? & ? & ? & ? & ? & ? & _).
Qed.

(** C1: every location the keyword search reports for [kw_doc], from
    a call or from a call nested in run keywords, comes from a name
    that matches the declared name of [kw_doc] and that, resolved
    again in the namespace of the file, is the object [kw_doc]; every
    location the variable search reports for [variable] comes from a
    variable token that, resolved through the scope chain of its node,
    is the object [variable]; so nothing is reported in a file whose
    namespace resolves no name to the target object, whatever the
    names are. *)
Theorem C1_references_resolve_to_the_identical_definition :
  (∀ namespace kw_doc node kw_token arguments u loc,
     loc ∈ yielded (get_keyword_references_from_tokens namespace kw_doc
                      node kw_token arguments u) →
     keyword_use namespace kw_doc node loc)
  ∧ (∀ canceled namespace kw_doc l loc,
       walk_result (_find_keyword_references_in_namespace canceled
                      namespace kw_doc) = inr l →
       loc ∈ l →
       ∃ node, node ∈ iter_nodes (model namespace)
               ∧ keyword_use namespace kw_doc node loc)
  ∧ (∀ ws variable file l loc,
       walk_result (_find_variable_references_in_file ws variable file)
         = inr l →
       loc ∈ l →
       let doc := get_or_open_document ws file in
       variable_use (get_namespace ws doc) doc variable
         (iter_nodes (get_model ws doc)) loc)
  ∧ (∀ namespace kw_doc node kw_token arguments u,
       (∀ name kw, find_keyword namespace name = Some kw →
                   kw_oid kw ≠ kw_oid kw_doc) →
       yielded (get_keyword_references_from_tokens namespace kw_doc
                  node kw_token arguments u) = []).
Proof.
  split_and!.
  - intros *. apply from_tokens_keyword_use.
  - intros * Hw Hloc.
    destruct (keyword_walk_use _ _ _ _ _ _ _ _ Hw Hloc) as [Hr|Hu];
      [by apply elem_of_nil in Hr|done].
  - intros * Hw Hloc doc. by apply (variable_walk_uses ws variable file l Hw).
  - intros * Hother.
    destruct (yielded _) as [|loc l] eqn:Hy; [done|].
    assert (Hloc : loc ∈ yielded (get_keyword_references_from_tokens
                      namespace kw_doc node kw_token arguments u)).
    { rewrite Hy. left. }
    apply from_tokens_keyword_use in Hloc
      as (tok & kw_name & lib & name & kw & _ & _ & _ & _ & _ & Hk & Hid).
    by destruct (Hother _ _ Hk).
Qed.

End search_properties.

(** What C1 says of the call [Run Keywords  KwA  AND  KwB  arg1] when
    the references of [KwB] are searched. *)
Lemma C1_references_resolve_to_the_identical_definition_witness :
  let loc := References.MkLocation "file:///tests/suite.robot"
               (Samples.token_range (Samples.argument "KwB" 34)) in
  loc ∈ yielded
          (References.get_keyword_references_from_tokens
             (H:=Samples.sample_helpers) Samples.sample_namespace
             Samples.kw_b Samples.run_keywords_call
             (Some (Samples.keyword_token "Run Keywords"))
             [Samples.argument "KwA" 20; Samples.argument "AND" 27;
              Samples.argument "KwB" 34; Samples.argument "arg1" 41]
             false)
  ∧ References.keyword_use (H:=Samples.sample_helpers)
      Samples.sample_namespace Samples.kw_b Samples.run_keywords_call loc.
Proof.
  intros loc.
  assert (Hloc : loc ∈ yielded
          (References.get_keyword_references_from_tokens
             (H:=Samples.sample_helpers) Samples.sample_namespace
             Samples.kw_b Samples.run_keywords_call
             (Some (Samples.keyword_token "Run Keywords"))
             [Samples.argument "KwA" 20; Samples.argument "AND" 27;
              Samples.argument "KwB" 34; Samples.argument "arg1" 41]
             false)).
  { vm_compute. apply list_elem_of_here. }
  split; [exact Hloc|].
  exact (proj1 (C1_references_resolve_to_the_identical_definition
                  (H:=Samples.sample_helpers)) _ _ _ _ _ _ _ Hloc).
Defined.

(** ** The unwrapper against the table of the specification *)

Section unwrap_against_the_spec.
Import References.
Context `{Helpers}.

(** What the conditional branch does for a keyword that is a
    conditional wrapper and nothing else: it unwraps as the table says
    exactly when the token at index 1 is not a variable, whatever the
    number of conditions is. *)
Lemma conditional_wrapper_unwrapping namespace kw_token arguments kw a1 :
  is_not_variable_token kw_token = true →
  find_keyword namespace (value kw_token) = Some kw →
  is_any_run_keyword kw = true →
  is_run_keyword kw = false →
  is_run_keyword_with_condition kw = true →
  is_run_keywords kw = false →
  is_run_keyword_if kw = false →
  run_keyword_condition_count kw < length arguments →
  arguments !! 1 = Some a1 →
  nested_invocations namespace kw_token arguments
  = if is_not_variable_token a1
    then MkGen (conditional_by_the_spec (run_keyword_condition_count kw)
                  arguments) None
    else gen_pass.
Proof.
  intros Hv Hk Hany Hrk Hcond Hkws Hif Hlen Ha1.
  rewrite /nested_invocations /any_run_keyword Hv Hk Hany Hrk Hcond Hkws Hif.
  rewrite /= bool_decide_true // Ha1 /conditional_by_the_spec.
  destruct (is_not_variable_token a1); [|done].
  destruct (lookup_lt_is_Some_2 arguments _ Hlen) as [t ->]. done.
Qed.

(** Without [AND] among them, and without variables, the tokens of a
    run-keywords call are unwrapped as the table says. *)
Lemma run_keywords_without_separator fuel (arguments : list Token) :
  (length arguments ≤ fuel)%nat →
  Forall (λ t, is_AND t = false ∧ is_not_variable_token t = true) arguments →
  run_keywords_loop (λ t args u, gen_yield (t, args, u)) fuel arguments false
  = MkGen (run_keywords_by_the_spec arguments) None.
Proof.
  intros Hfuel Hall.
  assert (Hno : existsb is_AND arguments = false).
  { clear Hfuel.
    induction Hall as [|t l [Ht _] _ IH]; simpl; [done|]. by rewrite Ht. }
  rewrite /run_keywords_by_the_spec Hno.
  revert fuel Hfuel.
  induction Hall as [|t l [Ht Hv] Hall IH]; intros [|fuel] Hfuel; simpl;
    try done; simpl in Hfuel; try lia.
  simpl in Hno. rewrite Ht /= in Hno.
  assert (Hfind : List.find is_AND l = None).
  { clear -Hno. induction l as [|x l IH]; simpl in *; [done|].
    destruct (is_AND x); [done|]. auto. }
  rewrite Ht Hfind /nested Hv. rewrite IH; [done|done|lia].
Qed.

Lemma is_AND_false (t : Token) : value t ≠ "AND" → is_AND t = false.
Proof. intros Ht. by rewrite /is_AND bool_decide_false. Qed.

Lemma is_AND_true (t : Token) : value t = "AND" → is_AND t = true.
Proof. intros Ht. by rewrite /is_AND bool_decide_true. Qed.

Lemma is_ELSE_false (t : Token) :
  value t ≠ "ELSE" → value t ≠ "ELSE IF" → is_ELSE t = false.
Proof.
  intros H1 H2. rewrite /is_ELSE bool_decide_false //.
  rewrite !elem_of_cons elem_of_nil. naive_solver.
Qed.

Lemma is_ELSE_true (t : Token) :
  value t = "ELSE" ∨ value t = "ELSE IF" → is_ELSE t = true.
Proof.
  intros Ht. rewrite /is_ELSE bool_decide_true //.
  rewrite !elem_of_cons. naive_solver.
Qed.

(** C2: for a call of a conditional wrapper with [N] condition
    arguments and more than [N] argument tokens, of which the one at
    index [N] is a keyword name, the table gives the nested invocation
    of that name with the tokens after it.  The source guards the
    unwrapping with [is_not_variable_token(arguments[1])]: when the
    token at index 1 is a variable, which then is one of the conditions
    ([N] is not 1), no nested invocation is made. *)
Theorem C2_condition_guard_reads_the_token_at_index_one
    namespace kw_token arguments kw a1 t :
  is_not_variable_token kw_token = true →
  find_keyword namespace (value kw_token) = Some kw →
  is_any_run_keyword kw = true →
  is_run_keyword kw = false →
  is_run_keyword_with_condition kw = true →
  is_run_keywords kw = false →
  is_run_keyword_if kw = false →
  run_keyword_condition_count kw < length arguments →
  arguments !! run_keyword_condition_count kw = Some t →
  is_not_variable_token t = true →
  arguments !! 1 = Some a1 →
  is_not_variable_token a1 = false →
  run_keyword_condition_count kw ≠ 1
  ∧ conditional_by_the_spec (run_keyword_condition_count kw) arguments
    = [(t, drop (S (run_keyword_condition_count kw)) arguments, true)]
  ∧ nested_invocations namespace kw_token arguments = gen_pass.
Proof.
  intros Hv Hk Hany Hrk Hcond Hkws Hif Hlen Ht Htv Ha1 Ha1v.
  split_and!.
  - intros Hn. rewrite Hn in Ht. congruence.
  - by rewrite /conditional_by_the_spec Ht.
  - rewrite (conditional_wrapper_unwrapping _ _ _ kw a1) //.
    by rewrite Ha1v.
Qed.

(** C3: for [Run Keywords  KwA  AND  KwB  arg1] the table gives two
    nested invocations, [KwA] without arguments and [KwB] with [arg1].
    The loop of the source hands the tokens after the last [AND] to
    [KwB] as its arguments but does not consume them, so it goes on and
    makes a third invocation, of [arg1] as a keyword. *)
Theorem C3_run_keywords_unwraps_the_last_arguments_too
    namespace kw_token kw (a sep b arg1 : Token) :
  is_not_variable_token kw_token = true →
  find_keyword namespace (value kw_token) = Some kw →
  is_any_run_keyword kw = true →
  is_run_keyword kw = false →
  is_run_keyword_with_condition kw = false →
  is_run_keywords kw = true →
  value sep = "AND" →
  value a ≠ "AND" → value b ≠ "AND" → value arg1 ≠ "AND" →
  is_not_variable_token a = true →
  is_not_variable_token b = true →
  is_not_variable_token arg1 = true →
  run_keywords_by_the_spec [a; sep; b; arg1]
    = [(a, [], true); (b, [arg1], true)]
  ∧ nested_invocations namespace kw_token [a; sep; b; arg1]
    = MkGen [(a, [], true); (b, [arg1], true); (arg1, [], true)] None.
Proof.
  intros Hv Hk Hany Hrk Hcond Hkws Hsep Ha Hb Harg Hav Hbv Hargv.
  pose proof (is_AND_true _ Hsep) as Es.
  pose proof (is_AND_false _ Ha) as Ea.
  pose proof (is_AND_false _ Hb) as Eb.
  pose proof (is_AND_false _ Harg) as Earg.
  split.
  - by rewrite /run_keywords_by_the_spec /= Ea Es /= Eb Earg.
  - rewrite /nested_invocations /any_run_keyword Hv Hk Hany Hrk Hcond Hkws /=.
    rewrite Ea Es /= decide_True // /= /nested Hav Eb Earg /= Hbv ?Earg /=.
    by rewrite Hargv.
Qed.

(** C4: for the chain [Run Keyword If  ${cond}  KwA  ELSE IF  ${cond2}
    KwB  ELSE  KwC] the source makes the three nested invocations of the
    table.  For [Run Keyword If  ${cond}  KwA  arg1] the table gives one
    invocation, [KwA] with the argument [arg1]; the loop of the source
    gives a group that no marker follows no arguments, and goes on to
    invoke each of its remaining tokens as a keyword: [KwA] without
    arguments, then [arg1]. *)
Theorem C4_run_keyword_if_drops_the_arguments_of_the_last_group
    namespace kw_token kw (cond a else_if cond2 b else_ c arg1 : Token) :
  is_not_variable_token kw_token = true →
  find_keyword namespace (value kw_token) = Some kw →
  is_any_run_keyword kw = true →
  is_run_keyword kw = false →
  is_run_keyword_with_condition kw = false →
  is_run_keywords kw = false →
  is_run_keyword_if kw = true →
  value else_if = "ELSE IF" →
  value else_ = "ELSE" →
  Forall (λ t, value t ≠ "ELSE" ∧ value t ≠ "ELSE IF")
    [cond; a; cond2; b; c; arg1] →
  Forall (λ t, is_not_variable_token t = true) [a; b; c; arg1] →
  (run_keyword_if_by_the_spec [cond; a; else_if; cond2; b; else_; c]
     = [(a, [], true); (b, [], true); (c, [], true)]
   ∧ nested_invocations namespace kw_token
       [cond; a; else_if; cond2; b; else_; c]
     = MkGen [(a, [], true); (b, [], true); (c, [], true)] None)
  ∧ run_keyword_if_by_the_spec [cond; a; arg1] = [(a, [arg1], true)]
  ∧ nested_invocations namespace kw_token [cond; a; arg1]
    = MkGen [(a, [], true); (arg1, [], true)] None.
Proof.
  intros Hv Hk Hany Hrk Hcond Hkws Hif Hei He Hplain Hnv.
  repeat match goal with
         | H : Forall _ (_ :: _) |- _ =>
             apply Forall_cons in H as [? H]
         end.
  repeat match goal with H : _ ∧ _ |- _ => destruct H end.
  assert (Eei : is_ELSE else_if = true) by (apply is_ELSE_true; auto).
  assert (Ee : is_ELSE else_ = true) by (apply is_ELSE_true; auto).
  assert (Ea : is_ELSE a = false) by by apply is_ELSE_false.
  assert (Eb : is_ELSE b = false) by by apply is_ELSE_false.
  assert (Ec : is_ELSE c = false) by by apply is_ELSE_false.
  assert (Earg : is_ELSE arg1 = false) by by apply is_ELSE_false.
  assert (Ne : value else_ ≠ "ELSE IF") by (rewrite He; discriminate).
  split_and!.
  - rewrite /run_keyword_if_by_the_spec /=.
    repeat (case_bool_decide; try congruence; simpl). done.
  - rewrite /nested_invocations /any_run_keyword Hv Hk Hany Hrk Hcond Hkws Hif.
    rewrite /= Ea Eei /= decide_True // (bool_decide_true _ Hei) /=.
    rewrite /nested Eb Ee /= decide_True // (bool_decide_false _ Ne) /=.
    rewrite Ec. by repeat match goal with H : is_not_variable_token _ = _ |- _ =>
                            rewrite H end.
  - rewrite /run_keyword_if_by_the_spec /=.
    repeat (case_bool_decide; try congruence; simpl). done.
  - rewrite /nested_invocations /any_run_keyword Hv Hk Hany Hrk Hcond Hkws Hif.
    rewrite /= Ea Earg /= /nested.
    by repeat match goal with H : is_not_variable_token _ = _ |- _ =>
                rewrite H end.
Qed.

End unwrap_against_the_spec.

(** What C2 says of [Wait Until Keyword Succeeds  3x  ${interval}
    My Keyword]. *)
Lemma C2_condition_guard_reads_the_token_at_index_one_witness :
  let kw_token := Samples.keyword_token "Wait Until Keyword Succeeds" in
  let name := Samples.argument "My Keyword" 56 in
  let arguments :=
    [Samples.argument "3x" 35; Samples.argument "${interval}" 41; name] in
  References.find_keyword Samples.sample_namespace (References.value kw_token)
    = Some Samples.wait_until_doc
  ∧ References.run_keyword_condition_count Samples.wait_until_doc = 2
  ∧ References.conditional_by_the_spec 2 arguments = [(name, [], true)]
  ∧ References.nested_invocations (H:=Samples.sample_helpers)
      Samples.sample_namespace kw_token arguments = gen_pass.
Proof.
  intros kw_token name arguments.
  assert (Hk : References.find_keyword Samples.sample_namespace
                 (References.value kw_token) = Some Samples.wait_until_doc)
    by reflexivity.
  destruct (C2_condition_guard_reads_the_token_at_index_one
              (H:=Samples.sample_helpers) Samples.sample_namespace kw_token
              arguments Samples.wait_until_doc
              (Samples.argument "${interval}" 41) name)
    as (_ & Hspec & Hcode);
    try reflexivity; [simpl; lia|].
  split_and!; [exact Hk|reflexivity|exact Hspec|exact Hcode].
Defined.

(** The use of [My Keyword] in that call is not reported, though the
    invocation the table describes is a use of it. *)
Example wait_until_use_is_missed :
  let kw_token := Samples.keyword_token "Wait Until Keyword Succeeds" in
  let name := Samples.argument "My Keyword" 56 in
  let arguments :=
    [Samples.argument "3x" 35; Samples.argument "${interval}" 41; name] in
  References.get_keyword_references_from_tokens (H:=Samples.sample_helpers)
    Samples.sample_namespace Samples.my_keyword Samples.wait_until_call
    (Some name) [] true
  = gen_yield (References.MkLocation "file:///tests/suite.robot"
                 (Samples.token_range name))
  ∧ References.get_keyword_references_from_tokens (H:=Samples.sample_helpers)
      Samples.sample_namespace Samples.my_keyword Samples.wait_until_call
      (Some kw_token) arguments false
    = gen_pass.
Proof. intros kw_token name arguments. by vm_compute. Qed.

(** What C3 says of [Run Keywords  KwA  AND  KwB  arg1]. *)
Lemma C3_run_keywords_unwraps_the_last_arguments_too_witness :
  let kw_token := Samples.keyword_token "Run Keywords" in
  let a := Samples.argument "KwA" 20 in
  let b := Samples.argument "KwB" 34 in
  let arg1 := Samples.argument "arg1" 41 in
  let arguments := [a; Samples.argument "AND" 27; b; arg1] in
  References.find_keyword Samples.sample_namespace (References.value kw_token)
    = Some Samples.run_keywords_doc
  ∧ References.run_keywords_by_the_spec arguments
    = [(a, [], true); (b, [arg1], true)]
  ∧ References.nested_invocations (H:=Samples.sample_helpers)
      Samples.sample_namespace kw_token arguments
    = MkGen [(a, [], true); (b, [arg1], true); (arg1, [], true)] None.
Proof.
  intros kw_token a b arg1 arguments.
  assert (Hk : References.find_keyword Samples.sample_namespace
                 (References.value kw_token) = Some Samples.run_keywords_doc)
    by reflexivity.
  destruct (C3_run_keywords_unwraps_the_last_arguments_too
              (H:=Samples.sample_helpers) Samples.sample_namespace kw_token
              Samples.run_keywords_doc a (Samples.argument "AND" 27) b arg1)
    as (Hspec & Hcode);
    try reflexivity; try discriminate.
  split_and!; [exact Hk|exact Hspec|exact Hcode].
Defined.

(** When a keyword named [arg1] exists, the argument of [KwB] is
    reported as a use of it. *)
Example run_keywords_argument_reported_as_use :
  let arg1 := Samples.argument "arg1" 41 in
  References.get_keyword_references_from_tokens (H:=Samples.sample_helpers)
    Samples.sample_namespace Samples.arg1_keyword Samples.run_keywords_call
    (Some (Samples.keyword_token "Run Keywords"))
    [Samples.argument "KwA" 20; Samples.argument "AND" 27;
     Samples.argument "KwB" 34; arg1] false
  = gen_yield (References.MkLocation "file:///tests/suite.robot"
                 (Samples.token_range arg1)).
Proof. intros arg1. by vm_compute. Qed.

(** What C4 says of the chain of the specification and of
    [Run Keyword If  ${cond}  KwA  arg1]. *)
Lemma C4_run_keyword_if_drops_the_arguments_of_the_last_group_witness :
  let kw_token := Samples.keyword_token "Run Keyword If" in
  let cond := Samples.argument "${cond}" 22 in
  let a := Samples.argument "KwA" 33 in
  let b := Samples.argument "KwB" 63 in
  let c := Samples.argument "KwC" 78 in
  let chain :=
    [cond; a; Samples.argument "ELSE IF" 40; Samples.argument "${cond2}" 51;
     b; Samples.argument "ELSE" 70; c] in
  let arg1 := Samples.argument "arg1" 40 in
  References.find_keyword Samples.sample_namespace (References.value kw_token)
    = Some Samples.run_keyword_if_doc
  ∧ References.nested_invocations (H:=Samples.sample_helpers)
      Samples.sample_namespace kw_token chain
    = MkGen [(a, [], true); (b, [], true); (c, [], true)] None
  ∧ References.run_keyword_if_by_the_spec [cond; a; arg1]
    = [(a, [arg1], true)]
  ∧ References.nested_invocations (H:=Samples.sample_helpers)
      Samples.sample_namespace kw_token [cond; a; arg1]
    = MkGen [(a, [], true); (arg1, [], true)] None.
Proof.
  intros kw_token cond a b c chain arg1.
  assert (Hk : References.find_keyword Samples.sample_namespace
                 (References.value kw_token) = Some Samples.run_keyword_if_doc)
    by reflexivity.
  destruct (C4_run_keyword_if_drops_the_arguments_of_the_last_group
              (H:=Samples.sample_helpers) Samples.sample_namespace kw_token
              Samples.run_keyword_if_doc cond a
              (Samples.argument "ELSE IF" 40) (Samples.argument "${cond2}" 51)
              b (Samples.argument "ELSE" 70) c arg1)
    as ((_ & Hchain) & Hspec & Hcode);
    try reflexivity.
  - repeat constructor; discriminate.
  - repeat constructor.
  - split_and!; [exact Hk|exact Hchain|exact Hspec|exact Hcode].
Defined.

(** ** Cancellation *)

Section cancellation.
Import References.
Context `{Helpers}.

Lemma keyword_walk_checks canceled k namespace kw_doc nodes result :
  let w := keyword_walk canceled k namespace kw_doc nodes result in
  checks (trace w) = visits (trace w).
Proof.
  revert k result. induction nodes as [|node nodes IH]; intros k result;
    simpl; [done|].
  destruct (canceled k); [done|].
  destruct (raised (references_at_node namespace kw_doc node)); [done|].
  simpl. rewrite /checks /visits /=. f_equal. apply IH.
Qed.

Lemma keyword_walk_visits k namespace kw_doc nodes result l :
  walk_result (keyword_walk (λ _, false) k namespace kw_doc nodes result)
    = inr l →
  visits (trace (keyword_walk (λ _, false) k namespace kw_doc nodes result))
  = length nodes.
Proof.
  revert k result. induction nodes as [|node nodes IH]; intros k result;
    simpl; [done|].
  destruct (raised (references_at_node namespace kw_doc node)); [done|].
  simpl. intros Hw. rewrite /visits /=. f_equal. by eapply IH.
Qed.

Lemma variable_walk_checks namespace doc_uri variable nodes current_block
    result :
  let w := variable_walk namespace doc_uri variable nodes current_block
             result in
  checks (trace w) = 0 ∧ visits (trace w) = length (trace w).
Proof.
  revert current_block result.
  induction nodes as [|node nodes IH]; intros cb result; simpl; [done|].
  destruct (raised (variable_references_at_node _ _ _ _ _)); [done|].
  simpl. rewrite /checks /visits /=.
  destruct (IH (match node_class node with
                | SectionBlock => None
                | TestCase | Keyword => Some node
                | _ => cb
                end)
               (result ++ yielded (variable_references_at_node namespace
                  doc_uri variable
                  (match node_class node with
                   | SectionBlock => None
                   | TestCase | Keyword => Some node
                   | _ => cb
                   end) node))) as [IH1 IH2].
  split; [exact IH1|]. f_equal. exact IH2.
Qed.

Lemma variable_walk_visits namespace doc_uri variable nodes current_block
    result l :
  walk_result (variable_walk namespace doc_uri variable nodes current_block
                 result) = inr l →
  visits (trace (variable_walk namespace doc_uri variable nodes
                   current_block result)) = length nodes.
Proof.
  revert current_block result.
  induction nodes as [|node nodes IH]; intros cb result; simpl; [done|].
  destruct (raised (variable_references_at_node _ _ _ _ _)); [done|].
  simpl. intros Hw. rewrite /visits /=. f_equal. by eapply IH.
Qed.

End cancellation.

(** C7: the walk of the keyword search awaits [check_canceled] once for
    every node it takes from [iter_nodes]; the walk of the variable
    search takes nodes from [iter_nodes] and never awaits
    [check_canceled]: on the sample file it visits five nodes and
    checks the cancellation signal zero times. *)
Theorem C7_variable_walk_never_checks_cancellation :
  (∀ (H : References.Helpers) canceled namespace kw_doc,
     References.checks
       (References.trace
          (References._find_keyword_references_in_namespace canceled
             namespace kw_doc))
     = References.visits
         (References.trace
            (References._find_keyword_references_in_namespace canceled
               namespace kw_doc)))
  ∧ (∀ (H : References.Helpers) ws variable file,
       References.checks
         (References.trace
            (References._find_variable_references_in_file ws variable file))
       = 0)
  ∧ References.visits
      (References.trace
         (References._find_keyword_references_in_namespace
            (H:=Samples.sample_helpers) (λ _, false)
            Samples.sample_namespace Samples.kw_b)) = 5
  ∧ References.checks
      (References.trace
         (References._find_keyword_references_in_namespace
            (H:=Samples.sample_helpers) (λ _, false)
            Samples.sample_namespace Samples.kw_b)) = 5
  ∧ References.visits
      (References.trace
         (References._find_variable_references_in_file
            (H:=Samples.sample_helpers) Samples.sample_workspace
            Samples.sample_variable "/tests/suite.robot")) = 5
  ∧ References.checks
      (References.trace
         (References._find_variable_references_in_file
            (H:=Samples.sample_helpers) Samples.sample_workspace
            Samples.sample_variable "/tests/suite.robot")) = 0.
Proof.
  split_and!.
  - intros. apply keyword_walk_checks.
  - intros. apply variable_walk_checks.
  - by vm_compute.
  - by vm_compute.
  - by vm_compute.
  - by vm_compute.
Qed.

(** ** Absent prerequisites of the workspace search *)

(** The claim as it is worded fails for a document that has neither an
    owning workspace folder nor a namespace: the search returns the
    empty list, not [None]. *)
Lemma C9_absent_namespace_counterexample :
  ¬ (∀ (ws : References.Workspace) canceled document kw_doc,
       References.get_namespace ws document = None →
       References._find_keyword_references (H:=Samples.sample_helpers)
         ws canceled document kw_doc = None).
Proof.
  intros Hclaim.
  specialize (Hclaim Samples.stale_workspace Samples.never_canceled
                "file:///elsewhere/other.robot" Samples.kw_b eq_refl).
  vm_compute in Hclaim. discriminate Hclaim.
Qed.

Section absent_prerequisites.
Import References.
Context `{Helpers}.

(** C9, amended: for a document without an owning workspace folder
    both searches return the empty list; for a document with an owning
    workspace folder and without a namespace both return [None], not a
    list, and splicing that into a list display raises [TypeError]:
    [references_KeywordName] fails so when the namespace it found for
    the document is gone by the time the search asks for it. *)
Theorem C9_absent_folder_is_empty_absent_namespace_is_none
    (ws0 ws : Workspace) canceled document kw_doc variable :
  (get_workspace_folder ws document = None →
   _find_keyword_references ws canceled document kw_doc = Some []
   ∧ _find_variable_references ws document variable = Some [])
  ∧ (is_Some (get_workspace_folder ws document) →
     get_namespace ws document = None →
     _find_keyword_references ws canceled document kw_doc = None
     ∧ _find_variable_references ws document variable = None
     ∧ splice (_find_keyword_references ws canceled document kw_doc)
       = inl TypeError
     ∧ ∀ node include_declaration namespace name_token keyword_source,
         get_namespace ws0 document = Some namespace →
         get_token node [KEYWORD_NAME] = Some name_token →
         find_keyword namespace (value name_token) = Some kw_doc →
         doc_source kw_doc = Some keyword_source →
         keyword_source ≠ "" →
         is_error_handler kw_doc = false →
         references_KeywordName ws0 ws canceled node document
           include_declaration = inl TypeError).
Proof.
  split.
  - intros Hf. by rewrite /_find_keyword_references
                        /_find_variable_references Hf.
  - intros [folder Hf] Hn.
    assert (Hk : _find_keyword_references ws canceled document kw_doc
                 = None).
    { by rewrite /_find_keyword_references Hf Hn. }
    split_and!; [done| |by rewrite Hk|].
    + by rewrite /_find_variable_references Hf Hn.
    + intros node include_declaration namespace name_token keyword_source
        Hns Htok Hfind Hsrc Hne Herr.
      rewrite /references_KeywordName Hns Htok Hfind Hsrc Herr Hk /=.
      by rewrite bool_decide_false.
Qed.

End absent_prerequisites.

(** What C9 says of a script of the sample workspace whose
    namespace goes away, and of a document outside of the workspace. *)
Lemma C9_absent_folder_is_empty_absent_namespace_is_none_witness :
  References.get_workspace_folder Samples.stale_workspace
    "file:///elsewhere/other.robot" = None
  ∧ References._find_keyword_references (H:=Samples.sample_helpers)
      Samples.stale_workspace Samples.never_canceled
      "file:///elsewhere/other.robot" Samples.my_keyword = Some []
  ∧ is_Some (References.get_workspace_folder Samples.stale_workspace
               "file:///tests/suite.robot")
  ∧ References.get_namespace Samples.stale_workspace
      "file:///tests/suite.robot" = None
  ∧ References._find_keyword_references (H:=Samples.sample_helpers)
      Samples.stale_workspace Samples.never_canceled
      "file:///tests/suite.robot" Samples.my_keyword = None
  ∧ References.references_KeywordName (H:=Samples.sample_helpers)
      Samples.sample_workspace Samples.stale_workspace
      Samples.never_canceled Samples.my_keyword_header
      "file:///tests/suite.robot" true = inl TypeError.
Proof.
  assert (H1 : References.get_workspace_folder Samples.stale_workspace
                 "file:///elsewhere/other.robot" = None).
  { vm_compute. reflexivity. }
  assert (H2 : is_Some (References.get_workspace_folder
                          Samples.stale_workspace
                          "file:///tests/suite.robot")).
  { exists "/tests". vm_compute. reflexivity. }
  assert (H3 : References.get_namespace Samples.stale_workspace
                 "file:///tests/suite.robot" = None).
  { reflexivity. }
  pose proof (C9_absent_folder_is_empty_absent_namespace_is_none
                (H:=Samples.sample_helpers) Samples.sample_workspace
                Samples.stale_workspace Samples.never_canceled
                "file:///elsewhere/other.robot" Samples.my_keyword
                Samples.sample_variable) as [Ha _].
  pose proof (C9_absent_folder_is_empty_absent_namespace_is_none
                (H:=Samples.sample_helpers) Samples.sample_workspace
                Samples.stale_workspace Samples.never_canceled
                "file:///tests/suite.robot" Samples.my_keyword
                Samples.sample_variable) as [_ Hb].
  destruct (Ha H1) as [Ha1 _].
  destruct (Hb H2 H3) as (Hb1 & _ & _ & Hb4).
  split_and!; [exact H1|exact Ha1|exact H2|exact H3|exact Hb1|].
  apply (Hb4 Samples.my_keyword_header true Samples.sample_namespace
           (References.MkToken References.KEYWORD_NAME "My Keyword" 9 0)
           "/tests/keywords.resource").
  - reflexivity.
  - reflexivity.
  - reflexivity.
  - reflexivity.
  - discriminate.
  - reflexivity.
Defined.


(** * Further properties *)

(** ** The registry of listeners *)

Section registry_properties.
Import AsyncEvent.
Context {Args Res : Type}.
Implicit Types (self : AsyncEventResultIteratorBase).
Implicit Types (objs : gmap nat (callable Args Res)) (args : Args).

(** Adding a listener that is registered already changes nothing, and
    removing a listener that was just added succeeds and leaves the
    listeners that were there before, without it. *)
Theorem add_is_idempotent_and_undone_by_remove self callback :
  add (add self callback) callback = add self callback
  ∧ remove (add self callback) callback
    = inr (MkBase (listeners self ∖ {[callback]}))
  ∧ remove_listener (add self callback) callback
    = MkBase (listeners self ∖ {[callback]}).
Proof.
  destruct self as [ls]. rewrite /add /remove /remove_listener /set_remove /=.
  case_decide as Hin; [|exfalso; apply Hin; set_solver].
  assert (E1 : ls ∪ {[callback]} ∪ {[callback]} = ls ∪ {[callback]})
    by set_solver.
  assert (E2 : (ls ∪ {[callback]}) ∖ {[callback]} = ls ∖ {[callback]})
    by set_solver.
  by rewrite E1 E2.
Qed.

Lemma awaitables_of_fst_iff objs args refs r :
  r ∈ (awaitables_of objs args refs).*1 ↔ r ∈ refs ∧ is_Some (objs !! r).
Proof.
  split; [apply awaitables_of_fst|].
  intros [Hr [m Hm]]. apply list_elem_of_fmap.
  exists (r, m args). split; [done|]. by apply awaitables_of_elem.
Qed.

Lemma awaitables_of_NoDup objs args refs :
  NoDup refs → NoDup (awaitables_of objs args refs).*1.
Proof.
  induction 1 as [|x refs Hx Hnd IH]; simpl; [constructor|].
  rewrite /deref. destruct (objs !! x) as [m|]; simpl; [|done].
  constructor; [|done]. intros Hin. apply awaitables_of_fst in Hin as [? _].
  done.
Qed.

(** What the loop of the direct [_notify] does on a list of references:
    it goes through the live ones up to the first that raises. *)
Lemma _notify_loop_spec objs args refs :
  let aws := awaitables_of objs args refs in
  let run := _notify_loop objs args refs in
  match raised (produced run) with
  | None =>
      raised_exceptions aws = []
      ∧ yielded (produced run) = returned_values aws
      ∧ invoked run = aws.*1
  | Some e =>
      ∃ before r after,
        aws = before ++ (r, Raised e) :: after
        ∧ raised_exceptions before = []
        ∧ yielded (produced run) = returned_values before
        ∧ invoked run = before.*1 ++ [r]
  end.
Proof.
  induction refs as [|x refs IH]; cbv zeta in *; simpl; [done|].
  rewrite /deref. destruct (objs !! x) as [m|] eqn:Hx; simpl; [|exact IH].
  destruct (m args) as [v|e] eqn:Hm; simpl.
  - rewrite /gen_seq /=.
    destruct (raised (produced (_notify_loop objs args refs))) as [e|].
    + destruct IH as (before & r & after & Haws & Hb & Hy & Hi).
      exists ((x, Returned v) :: before), r, after.
      rewrite Haws Hy Hi. split_and!; done.
    + destruct IH as (Hr & Hy & Hi). simpl. rewrite Hy Hi.
      split_and!; try done.
  - exists [], x, (awaitables_of objs args refs). done.
Qed.

(** A direct dispatch calls the live listeners one after the other, in
    the order of iteration of the set: it returns the values of all of
    them when none raises, and otherwise it raises the exception of the
    first listener that raises, after which no listener is called. *)
Theorem direct_dispatch_ends_at_the_first_failure self objs args :
  let aws := awaitables_of objs args (elements (listeners self)) in
  let called := invoked (_notify self objs args) in
  match AsyncEvent_call self objs args with
  | inr values =>
      raised_exceptions aws = []
      ∧ values = returned_values aws
      ∧ called = aws.*1
  | inl e =>
      ∃ before r after,
        aws = before ++ (r, Raised e) :: after
        ∧ raised_exceptions before = []
        ∧ called = before.*1 ++ [r]
        ∧ ∀ r', r' ∈ after.*1 → r' ∉ called
  end.
Proof.
  intros aws called. rewrite /AsyncEvent_call.
  pose proof (_notify_loop_spec objs args (elements (listeners self))) as Hs.
  simpl in Hs. rewrite /called /_notify.
  destruct (raised (produced (_notify_loop objs args
                                (elements (listeners self))))) as [e|].
  - destruct Hs as (before & r & after & Haws & Hb & _ & Hi).
    exists before, r, after. split_and!; [done..|].
    intros r' Hafter Hcalled. rewrite Hi in Hcalled.
    assert (Hnd : NoDup aws.*1).
    { apply awaitables_of_NoDup, NoDup_elements. }
    rewrite /aws Haws fmap_app fmap_cons /= in Hnd.
    apply NoDup_app in Hnd as (_ & Hdisj & Hnd').
    apply NoDup_cons in Hnd' as [Hr _].
    apply elem_of_app in Hcalled as [Hc|Hc].
    + apply (Hdisj r' Hc). by right.
    + apply list_elem_of_singleton in Hc as ->. done.
  - destruct Hs as (? & ? & ?). done.
Qed.

Lemma step_keeps_alive (w : World (Args:=Args) (Res:=Res)) o :
  (∀ r, r ∈ listeners (w_self w) → is_Some (w_objs w !! r)) →
  ∀ r, r ∈ listeners (w_self (step w o)) → is_Some (w_objs (step w o) !! r).
Proof.
  intros Hinv r. destruct o as [c m|c|c]; simpl.
  - intros Hr. destruct (decide (r = c)) as [->|Hne].
    + rewrite lookup_insert_eq. by eexists.
    + rewrite lookup_insert_ne //. apply Hinv. set_solver.
  - destruct (remove (w_self w) c) as [e|self'] eqn:Hrm; [apply Hinv|].
    apply remove_inv in Hrm as [_ Hrm]. simpl. rewrite Hrm.
    intros Hr. apply Hinv. set_solver.
  - rewrite remove_listener_listeners. intros Hr.
    assert (c ≠ r) by set_solver.
    rewrite lookup_delete_ne //. apply Hinv. set_solver.
Qed.


End registry_properties.

(** ** Completion callbacks and the executor *)

Section callback_properties.
Import AsyncEvent.
Context {Args Res : Type}.
Implicit Types (self : AsyncEventResultIteratorBase).
Implicit Types (objs : gmap nat (callable Args Res)) (args : Args).

(** The dispatcher creates its own executor on the first dispatch that
    is not given one and keeps it from then on; a dispatch that is
    given an executor creates none; no dispatch changes the registered
    listeners, and what is dispatched does not depend on the executor. *)
Theorem executor_is_created_once (sched sched' : Scheduler Res)
    (self : AsyncThreadingEventResultIteratorBase) objs objs' args args'
    kw kw' supplied :
  let first := threading_notify sched self objs args None kw in
  let second := threading_notify sched' first.1 objs' args' None kw' in
  is_Some (__executor first.1)
  ∧ second.1 = first.1
  ∧ (is_Some (__executor self) → first.1 = self)
  ∧ (threading_notify sched self objs args (Some supplied) kw).1 = self
  ∧ threading_base first.1 = threading_base self
  ∧ (threading_notify sched self objs args (Some supplied) kw).2 = first.2.
Proof.
  intros first second. rewrite /second /first /threading_notify /=.
  destruct self as [base [ex|] prefix]; simpl; split_and!;
    try done; eauto; by intros [? ?].
Qed.

End callback_properties.

(** ** Two declarations of events *)

Section two_descriptors.
Import AsyncEvent.
Context {Args Res : Type}.
Implicit Types (d : AsyncEventDescriptorBase AsyncTaskingEventResultIteratorBase).
Implicit Types (store : gmap nat AsyncTaskingEventResultIteratorBase).
Implicit Types (objs : gmap nat (callable Args Res)).

(** Two event declarations never share a dispatcher: read for the first
    time through instances, two descriptors create two event objects at
    different addresses, and a listener added through one of them is not
    called by a dispatch through the other, which starts from the
    listeners of its own factory. *)
Theorem separate_declarations_have_separate_dispatchers
    (sched : Scheduler Res) d d' store objs (a b callback : nat)
    (args : Args) kw :
  __event d = None →
  __event d' = None →
  callback ∉ listeners (tasking_base (__factory d')) →
  ∃ d1 store1 x d1' store2 x' run,
    __get__ d store (Some a) = (d1, store1, TheEvent x)
    ∧ __get__ d' store1 (Some b) = (d1', store2, TheEvent x')
    ∧ x ≠ x'
    ∧ store2 !! x = Some (__factory d)
    ∧ store2 !! x' = Some (__factory d')
    ∧ read_through (λ ev, tasking_notify sched ev objs args kw) d'
        (update_through (tasking_add callback) d store a).2 b = Some run
    ∧ callback ∉ invoked run.
Proof.
  intros Hd Hd' Hout.
  destruct (get_first d store a Hd) as (x & Hx & Hget).
  destruct (get_first d' (<[x := __factory d]> store) b Hd')
    as (x' & Hx' & Hget').
  assert (Hne : x ≠ x').
  { intros <-. by rewrite lookup_insert_eq in Hx'. }
  destruct (get_first d' (alter (tasking_add callback) x
                            (<[x := __factory d]> store)) b Hd')
    as (y & Hy & Hgety).
  eexists _, _, x, _, _, x', _. split_and!; [exact Hget|exact Hget'|done| | | |].
  - rewrite lookup_insert_ne //. by rewrite lookup_insert_eq.
  - by rewrite lookup_insert_eq.
  - rewrite /update_through Hget /= /read_through Hgety.
    by rewrite lookup_insert_eq.
  - simpl. rewrite /tasking_notify /=. intros Hin.
    apply awaitables_of_fst in Hin as [Hin _].
    by apply elem_of_elements in Hin.
Qed.

End two_descriptors.

(** Two events declared on the references part, read through the
    instances [10] and [20]; the listener [3] is added to the first. *)
Lemma separate_declarations_have_separate_dispatchers_witness :
  AsyncEvent.__event Samples.sample_descriptor = None
  ∧ AsyncEvent.__event Samples.other_descriptor = None
  ∧ (3 ∉ AsyncEvent.listeners
           (AsyncEvent.tasking_base
              (AsyncEvent.__factory Samples.other_descriptor)))
  ∧ ∃ d1 store1 x d1' store2 x' run,
      AsyncEvent.__get__ Samples.sample_descriptor ∅ (Some 10)
      = (d1, store1, AsyncEvent.TheEvent x)
      ∧ AsyncEvent.__get__ Samples.other_descriptor store1 (Some 20)
        = (d1', store2, AsyncEvent.TheEvent x')
      ∧ x ≠ x'
      ∧ store2 !! x = Some (AsyncEvent.__factory Samples.sample_descriptor)
      ∧ store2 !! x' = Some (AsyncEvent.__factory Samples.other_descriptor)
      ∧ AsyncEvent.read_through
          (λ ev, AsyncEvent.tasking_notify Samples.last_first ev
                   Samples.sample_objs (0, Samples.suite)
                   AsyncEvent.no_kwargs)
          Samples.other_descriptor
          (AsyncEvent.update_through (AsyncEvent.tasking_add 3)
             Samples.sample_descriptor ∅ 10).2 20 = Some run
      ∧ 3 ∉ AsyncEvent.invoked run.
Proof.
  assert (H1 : AsyncEvent.__event Samples.sample_descriptor = None)
    by reflexivity.
  assert (H2 : AsyncEvent.__event Samples.other_descriptor = None)
    by reflexivity.
  assert (H3 : 3 ∉ AsyncEvent.listeners
                     (AsyncEvent.tasking_base
                        (AsyncEvent.__factory Samples.other_descriptor))).
  { simpl. apply not_elem_of_empty. }
  split; [exact H1|]. split; [exact H2|]. split; [exact H3|].
  exact (separate_declarations_have_separate_dispatchers Samples.last_first
           Samples.sample_descriptor Samples.other_descriptor ∅
           Samples.sample_objs 10 20 3 (0, Samples.suite)
           AsyncEvent.no_kwargs H1 H2 H3).
Defined.

(** ** The choice of a handler *)

Section handler_choice.
Import SyntaxDispatch.
Implicit Types (self : Attributes) (cls c : Cls).

Lemma Cls_nested_ind (P : Cls → Prop) :
  P AST →
  (∀ name bases, Forall P bases → P (Class name bases)) →
  ∀ c, P c.
Proof.
  intros HA HC. fix IH 1. intros [|name bases]; [exact HA|].
  apply HC. induction bases as [|b bs IHbs]; constructor;
    [apply IH|exact IHbs].
Qed.

(** The loop over [__bases__] returns the first method found. *)
Lemma _find_method_Class self name bases :
  _find_method self (Class name bases)
  = match self ("references_" +:+ name) with
    | Some true => Some ("references_" +:+ name)
    | _ => head (omap (_find_method self) bases)
    end.
Proof.
  simpl.
  assert (E : ∀ bs,
    (fix first (bs : list Cls) : option string :=
       match bs with
       | [] => None
       | base :: bs' =>
           match _find_method self base with
           | Some method => Some method
           | None => first bs'
           end
       end) bs = head (omap (_find_method self) bs)).
  { induction bs as [|b bs IHbs]; [done|]. simpl.
    destruct (_find_method self b); [done|exact IHbs]. }
  by rewrite E.
Qed.

Lemma looks_at_AST c : ¬ looks_at AST c.
Proof. inversion 1. Qed.

(** A handler is found exactly when the class of the node, or a class
    above it and below [ast.AST], has a callable attribute named
    [references_] followed by the name of the class; what is found is
    such an attribute, the one of the class itself when it has one; for
    [ast.AST] nothing is found. *)
Theorem find_method_searches_the_class_and_its_ancestors self cls :
  (∀ m, _find_method self cls = Some m →
        ∃ c, looks_at cls c ∧ m = "references_" +:+ class_name c
             ∧ self m = Some true)
  ∧ (_find_method self cls = None ↔
     ∀ c, looks_at cls c → self ("references_" +:+ class_name c) ≠ Some true)
  ∧ (self ("references_" +:+ class_name cls) = Some true → cls ≠ AST →
     _find_method self cls = Some ("references_" +:+ class_name cls))
  ∧ _find_method self AST = None.
Proof.
  split_and!; [| | |done].
  - induction cls as [|name bases IH] using Cls_nested_ind; [done|].
    intros m. rewrite _find_method_Class.
    assert (Hbases : head (omap (_find_method self) bases) = Some m →
      ∃ c, looks_at (Class name bases) c
           ∧ m = "references_" +:+ class_name c ∧ self m = Some true).
    { intros Hm. apply head_Some_elem_of, list_elem_of_omap in Hm
        as (base & Hbase & Hm).
      rewrite Forall_forall in IH.
      destruct (IH base Hbase m Hm) as (c & Hc & -> & Hself).
      exists c. split_and!; [|done..]. by eapply looks_at_base. }
    destruct (self ("references_" +:+ name)) as [[|]|] eqn:Hown;
      [|exact Hbases..].
    intros [= <-]. exists (Class name bases). split_and!; [constructor|done..].
  - induction cls as [|name bases IH] using Cls_nested_ind.
    { split; [|done]. intros _ c Hc. by apply looks_at_AST in Hc. }
    rewrite _find_method_Class. rewrite Forall_forall in IH.
    assert (Hbases : head (omap (_find_method self) bases) = None ↔
      ∀ base c, base ∈ bases → looks_at base c →
                self ("references_" +:+ class_name c) ≠ Some true).
    { rewrite head_None. split.
      - intros Hnil base c Hbase Hc. apply (IH base Hbase); [|done].
        destruct (_find_method self base) as [m|] eqn:Hm; [|done].
        assert (Hin : m ∈ omap (_find_method self) bases).
        { apply list_elem_of_omap. by exists base. }
        rewrite Hnil in Hin. by apply elem_of_nil in Hin.
      - intros Hno.
        destruct (omap (_find_method self) bases) as [|m l] eqn:Hl; [done|].
        assert (Hin : m ∈ omap (_find_method self) bases).
        { rewrite Hl. left. }
        apply list_elem_of_omap in Hin as (base & Hbase & Hm).
        assert (Hnone : _find_method self base = None).
        { apply (IH base Hbase). intros c. by apply Hno. }
        congruence. }
    split.
    + intros Hnone c Hc.
      destruct (self ("references_" +:+ name)) as [[|]|] eqn:Hown; [done|..];
        (inversion Hc; subst; simpl; [congruence|];
         by eapply (proj1 Hbases Hnone)).
    + intros Hno.
      destruct (self ("references_" +:+ name)) as [[|]|] eqn:Hown.
      * exfalso. by apply (Hno (Class name bases)); [constructor|].
      * apply Hbases. intros base c Hbase Hc. apply Hno.
        by eapply looks_at_base.
      * apply Hbases. intros base c Hbase Hc. apply Hno.
        by eapply looks_at_base.
  - intros Hown Hne. destruct cls as [|name bases]; [done|].
    rewrite _find_method_Class. simpl in Hown. by rewrite Hown.
Qed.

End handler_choice.

(** ** The keyword search does not fail *)

Section safe_search.
Import References.
Context `{Helpers}.

Section unwrapper.
Context {A : Type} (rec : Token → list Token → bool → Gen A).
Hypothesis rec_safe : ∀ t args u, raised (rec t args u) = None.

Lemma nested_safe t args : raised (nested rec t args) = None.
Proof. rewrite /nested. by destruct (is_not_variable_token t). Qed.

Lemma run_keywords_loop_safe fuel arguments has_separator :
  raised (run_keywords_loop rec fuel arguments has_separator) = None.
Proof.
  revert arguments has_separator.
  induction fuel as [|fuel IH]; intros [|t arguments] hs; simpl; try done.
  destruct (is_AND t); [apply IH|].
  destruct (List.find is_AND arguments) as [sep|] eqn:Hsep.
  - destruct (py_index_of_find _ _ _ Hsep) as (i & -> & _).
    apply raised_gen_seq; [apply nested_safe|apply IH].
  - apply raised_gen_seq; [apply nested_safe|apply IH].
Qed.

Lemma run_keyword_if_loop_safe fuel arguments :
  raised (run_keyword_if_loop rec fuel arguments) = None.
Proof.
  revert arguments.
  induction fuel as [|fuel IH]; intros [|t arguments]; simpl; try done.
  destruct (is_ELSE t); [apply IH|].
  destruct (List.find is_ELSE arguments) as [sep|] eqn:Hsep.
  - destruct (py_index_of_find _ _ _ Hsep) as (i & -> & _).
    apply raised_gen_seq; [apply nested_safe|apply IH].
  - apply raised_gen_seq; [apply nested_safe|apply IH].
Qed.

Lemma any_run_keyword_safe namespace kw_token arguments :
  conditions_first namespace →
  raised (any_run_keyword rec namespace kw_token arguments) = None.
Proof.
  intros Hsafe. rewrite /any_run_keyword.
  destruct (is_not_variable_token kw_token); simpl; [|done].
  destruct (find_keyword namespace (value kw_token)) as [kw|] eqn:Hkw;
    [|done].
  destruct (is_any_run_keyword kw); simpl; [|done].
  assert (Hkws : raised
    (if is_run_keywords kw
     then run_keywords_loop rec (length arguments) arguments false
     else if is_run_keyword_if kw && bool_decide (1 < length arguments)
     then run_keyword_if_loop rec (length arguments) (drop 1 arguments)
     else gen_pass) = None).
  { destruct (is_run_keywords kw); [apply run_keywords_loop_safe|].
    destruct (_ && _); [apply run_keyword_if_loop_safe|done]. }
  assert (Hcond : raised
    (if is_run_keyword_with_condition kw
        && bool_decide (run_keyword_condition_count kw < length arguments)
     then
       match arguments !! 1 with
       | None => gen_raise IndexError
       | Some a1 =>
           if is_not_variable_token a1 then
             match arguments !! run_keyword_condition_count kw with
             | Some t =>
                 rec t (drop (S (run_keyword_condition_count kw)) arguments)
                   true
             | None => gen_raise IndexError
             end
           else
             if is_run_keywords kw
             then run_keywords_loop rec (length arguments) arguments false
             else if is_run_keyword_if kw
                     && bool_decide (1 < length arguments)
             then run_keyword_if_loop rec (length arguments)
                    (drop 1 arguments)
             else gen_pass
       end
     else
       if is_run_keywords kw
       then run_keywords_loop rec (length arguments) arguments false
       else if is_run_keyword_if kw && bool_decide (1 < length arguments)
       then run_keyword_if_loop rec (length arguments) (drop 1 arguments)
       else gen_pass) = None).
  { destruct (is_run_keyword_with_condition kw) eqn:Hc; [|exact Hkws].
    rewrite andb_true_l.
    destruct (bool_decide (run_keyword_condition_count kw < length arguments))
      eqn:Hlen; [|exact Hkws].
    apply bool_decide_eq_true in Hlen.
    pose proof (Hsafe _ _ Hkw Hc) as Hpos.
    destruct (lookup_lt_is_Some_2 arguments 1 ltac:(lia)) as [a1 ->].
    destruct (is_not_variable_token a1); [|exact Hkws].
    destruct (lookup_lt_is_Some_2 arguments _ Hlen) as [t ->].
    apply rec_safe. }
  destruct (is_run_keyword kw); [|exact Hcond].
  rewrite andb_true_l.
  destruct (bool_decide (0 < length arguments)) eqn:Hlen; [|exact Hcond].
  apply bool_decide_eq_true in Hlen.
  destruct (lookup_lt_is_Some_2 arguments 0 Hlen) as [a0 ->].
  destruct (is_not_variable_token a0); [apply rec_safe|exact Hcond].
Qed.

End unwrapper.

Lemma from_tokens_safe fuel namespace kw_doc node kw_token arguments u :
  conditions_first namespace →
  raised (from_tokens fuel namespace kw_doc node kw_token arguments u) = None.
Proof.
  intros Hsafe. revert kw_token arguments u.
  induction fuel as [|fuel IH]; intros kw_token arguments u; [done|].
  rewrite from_tokens_S /from_tokens_body.
  destruct kw_token as [tok|]; [|done].
  destruct (is_not_variable_token tok); [|done].
  apply raised_gen_for. intros [lib name] _.
  destruct (match lib with Some _ => _ | None => _ end); [done|].
  destruct name as [name|]; [|done].
  apply raised_gen_seq.
  - case_bool_decide; [|done].
    destruct (find_keyword namespace _) as [kw|]; [|done].
    by destruct (keyworddoc_eq kw kw_doc).
  - destruct (_ && _); [|done].
    apply any_run_keyword_safe; [|done]. intros t args u'. apply IH.
Qed.

Lemma references_at_node_safe namespace kw_doc node :
  conditions_first namespace →
  raised (references_at_node namespace kw_doc node) = None.
Proof.
  intros Hsafe. rewrite /references_at_node.
  destruct (node_class node); try done; by apply from_tokens_safe.
Qed.

Lemma keyword_walk_complete canceled k namespace kw_doc nodes result :
  conditions_first namespace →
  (∀ j, canceled j = false) →
  let w := keyword_walk canceled k namespace kw_doc nodes result in
  walk_result w
  = inr (result ++ (nodes ≫= λ node,
                      yielded (references_at_node namespace kw_doc node)))
  ∧ visits (trace w) = length nodes.
Proof.
  intros Hsafe Hnot. revert k result.
  induction nodes as [|node nodes IH]; intros k result; simpl.
  { by rewrite app_nil_r. }
  rewrite Hnot references_at_node_safe //=.
  destruct (IH (S k) (result ++ yielded (references_at_node namespace kw_doc
                                           node))) as [-> Hv].
  split; [by rewrite -app_assoc|].
  rewrite /visits /=. f_equal. exact Hv.
Qed.

(** In a file where every keyword that runs a keyword after conditions
    has at least one condition, the search in a call never raises, and
    the walk over the file, when the request is not cancelled, visits
    every node and returns the references found at the nodes, in the
    order of the nodes. *)
Theorem keyword_walk_visits_every_node_and_does_not_fail
    canceled namespace kw_doc :
  conditions_first namespace →
  (∀ j, canceled j = false) →
  (∀ node kw_token arguments u,
     raised (get_keyword_references_from_tokens namespace kw_doc node
               kw_token arguments u) = None)
  ∧ walk_result (_find_keyword_references_in_namespace canceled namespace
                   kw_doc)
    = inr (iter_nodes (model namespace) ≫= λ node,
             yielded (references_at_node namespace kw_doc node))
  ∧ visits (trace (_find_keyword_references_in_namespace canceled namespace
                     kw_doc))
    = length (iter_nodes (model namespace)).
Proof.
  intros Hsafe Hnot. split.
  - intros. by apply from_tokens_safe.
  - by apply (keyword_walk_complete canceled 0 namespace kw_doc
                (iter_nodes (model namespace)) []).
Qed.

End safe_search.

Lemma sample_namespace_conditions_first :
  References.conditions_first Samples.sample_namespace.
Proof.
  intros name kw Hfind Hcond.
  change (Samples.lookup_keyword Samples.sample_keywords name = Some kw)
    in Hfind.
  apply List.find_some in Hfind as [Hin _].
  simpl in Hin.
  repeat (destruct Hin as [<-|Hin]; [simpl in *; first [lia|discriminate]|]).
  destruct Hin.
Qed.

(** The walk over the sample script for the references of [KwB], not
    cancelled. *)
Lemma keyword_walk_visits_every_node_and_does_not_fail_witness :
  References.walk_result
    (References._find_keyword_references_in_namespace
       (H:=Samples.sample_helpers) (λ _, false) Samples.sample_namespace
       Samples.kw_b)
  = inr (@References.iter_nodes Samples.sample_helpers
           (References.model Samples.sample_namespace)
           ≫= λ node,
             yielded (References.references_at_node
                        (H:=Samples.sample_helpers)
                        Samples.sample_namespace Samples.kw_b node))
  ∧ References.visits
      (References.trace
         (References._find_keyword_references_in_namespace
            (H:=Samples.sample_helpers) (λ _, false)
            Samples.sample_namespace Samples.kw_b))
    = length (@References.iter_nodes Samples.sample_helpers
                (References.model Samples.sample_namespace)).
Proof.
  exact (proj2 (keyword_walk_visits_every_node_and_does_not_fail
                  (H:=Samples.sample_helpers) (λ _, false)
                  Samples.sample_namespace Samples.kw_b
                  sample_namespace_conditions_first (λ _, eq_refl))).
Defined.

Section cancelled_walk.
Import References.
Context `{Helpers}.

Lemma keyword_walk_cancelled canceled k0 namespace kw_doc nodes result k :
  conditions_first namespace →
  (∀ j, j < k → canceled (k0 + j) = false) →
  canceled (k0 + k) = true →
  k < length nodes →
  let w := keyword_walk canceled k0 namespace kw_doc nodes result in
  walk_result w = inl CancelledError
  ∧ visits (trace w) = S k
  ∧ checks (trace w) = S k.
Proof.
  intros Hsafe. revert k0 nodes result.
  induction k as [|k IH]; intros k0 [|node nodes] result Hbefore Hk Hlen;
    simpl in *; try lia.
  - rewrite Nat.add_0_r in Hk. by rewrite Hk.
  - assert (H0 : canceled k0 = false).
    { rewrite -(Nat.add_0_r k0). apply Hbefore. lia. }
    rewrite H0 references_at_node_safe //=.
    destruct (IH (S k0) nodes
                (result ++ yielded (references_at_node namespace kw_doc node)))
      as (Hr & Hv & Hc).
    + intros j Hj. replace (S k0 + j) with (k0 + S j) by lia.
      apply Hbefore. lia.
    + by replace (S k0 + k) with (k0 + S k) by lia.
    + lia.
    + split_and!; [done|..]; rewrite /visits /checks /=; f_equal; done.
Qed.

(** When the request is found cancelled at the check made for the node
    of index [k], the walk of the keyword search ends there with
    [CancelledError]: it has taken [k + 1] nodes, no node after that
    one, and the locations it had found are given up, so that the file
    adds nothing to the result of the search in the workspace. *)
Theorem cancellation_ends_the_keyword_walk canceled namespace kw_doc k
    (others : list Walk) :
  conditions_first namespace →
  (∀ j, j < k → canceled j = false) →
  canceled k = true →
  k < length (iter_nodes (model namespace)) →
  let w := _find_keyword_references_in_namespace canceled namespace kw_doc in
  walk_result w = inl CancelledError
  ∧ visits (trace w) = S k
  ∧ checks (trace w) = S k
  ∧ gather (w :: others) = gather others.
Proof.
  intros Hsafe Hbefore Hk Hlen w.
  destruct (keyword_walk_cancelled canceled 0 namespace kw_doc
              (iter_nodes (model namespace)) [] k Hsafe Hbefore Hk Hlen)
    as (Hr & Hv & Hc).
  split_and!; [done..|].
  rewrite /gather /=. fold w. by rewrite Hr.
Qed.

End cancelled_walk.

(** The walk over the sample script, cancelled when it reaches the
    third of its five nodes. *)
Lemma cancellation_ends_the_keyword_walk_witness :
  let canceled := λ j : nat, bool_decide (j = 2) in
  let w := References._find_keyword_references_in_namespace
             (H:=Samples.sample_helpers) canceled
             Samples.sample_namespace Samples.kw_b in
  canceled 2 = true
  ∧ 2 < length (@References.iter_nodes Samples.sample_helpers
                    (References.model Samples.sample_namespace))
  ∧ References.walk_result w = inl CancelledError
  ∧ References.visits (References.trace w) = 3
  ∧ References.checks (References.trace w) = 3
  ∧ References.gather [w] = [].
Proof.
  intros canceled w.
  assert (Hbefore : ∀ j, j < 2 → canceled j = false).
  { intros j Hj. apply bool_decide_eq_false. lia. }
  assert (Hk : canceled 2 = true) by reflexivity.
  assert (Hlen : 2 < length (@References.iter_nodes Samples.sample_helpers
                               (References.model Samples.sample_namespace))).
  { simpl. lia. }
  split; [exact Hk|]. split; [exact Hlen|].
  exact (cancellation_ends_the_keyword_walk (H:=Samples.sample_helpers)
           canceled Samples.sample_namespace Samples.kw_b 2 []
           sample_namespace_conditions_first Hbefore Hk Hlen).
Defined.

(** ** The search in the workspace *)

Section workspace_search.
Import References.
Context `{Helpers}.

Lemma elem_of_gather (futures : list Walk) loc :
  loc ∈ gather futures
  ↔ ∃ w locs, w ∈ futures ∧ walk_result w = inr locs ∧ loc ∈ locs.
Proof.
  rewrite /gather list_elem_of_bind. split.
  - intros (w & Hloc & Hw). destruct (walk_result w) as [e|locs] eqn:Hr.
    + by apply elem_of_nil in Hloc.
    + by exists w, locs.
  - intros (w & locs & Hw & Hr & Hloc). exists w. by rewrite Hr.
Qed.

Lemma find_first {A} (P : A → bool) (l : list A) x :
  List.find P l = Some x →
  ∃ before after,
    l = before ++ x :: after ∧ Forall (λ y, P y = false) before ∧ P x = true.
Proof.
  induction l as [|y l IH]; simpl; [done|].
  destruct (P y) eqn:Hy.
  - intros [= ->]. by exists [], l.
  - intros Hfind. destruct (IH Hfind) as (before & after & -> & ? & ?).
    exists (y :: before), after. split_and!; [done| |done]. by constructor.
Qed.

(** The library that [owning_library] finds is the first of the
    entries that declares the keyword. *)
Lemma owning_library_spec kw_doc (entries : list (string * LibraryDoc)) :
  match owning_library kw_doc entries with
  | Some lib_doc =>
      ∃ before name after,
        entries = before ++ (name, lib_doc) :: after
        ∧ Forall (λ entry, existsb (keyworddoc_eq kw_doc) (keywords entry.2)
                           = false) before
        ∧ existsb (keyworddoc_eq kw_doc) (keywords lib_doc) = true
  | None =>
      ∀ entry, entry ∈ entries →
               existsb (keyworddoc_eq kw_doc) (keywords entry.2) = false
  end.
Proof.
  rewrite /owning_library.
  destruct (List.find _ entries) as [[name lib_doc]|] eqn:Hfind; simpl.
  - apply find_first in Hfind as (before & after & ? & ? & ?).
    by exists before, name, after.
  - intros entry Hin%list_elem_of_In.
    apply (List.find_none _ _ Hfind entry Hin).
Qed.

(** When the document has a workspace folder and a namespace, the
    keyword search returns a list whatever happens in the files: a file
    whose walk raises, because the request is cancelled there or the
    file has no namespace, adds nothing and takes nothing away.  The
    files are filtered by the library of the keyword: the first
    library that the document imports and that declares the keyword,
    else the first such resource, else the library of the document
    itself.  A file of the folder that is not the source of that
    library and does not import it is not walked.  The list holds the
    locations of the files of the folder whose walk returned, and only
    these; and it holds every reference found at a node of a file of
    the folder that imports that library, or is its source, when the
    walk of that file is not cancelled. *)
Theorem keyword_search_keeps_the_files_that_returned ws canceled document
    kw_doc folder namespace :
  get_workspace_folder ws document = Some folder →
  get_namespace ws document = Some namespace →
  let declares (lib_doc : LibraryDoc) :=
    existsb (keyworddoc_eq kw_doc) (keywords lib_doc) = true in
  ∃ l lib_doc,
    _find_keyword_references ws canceled document kw_doc = Some l
    ∧ ((∃ entry, entry ∈ get_libraries namespace ∧ declares entry.2) →
       ∃ before name after,
         get_libraries namespace = before ++ (name, lib_doc) :: after
         ∧ Forall (λ entry, ¬ declares entry.2) before
         ∧ declares lib_doc)
    ∧ ((∀ entry, entry ∈ get_libraries namespace → ¬ declares entry.2) →
       (∃ entry, entry ∈ get_resources namespace ∧ declares entry.2) →
       ∃ before name after,
         get_resources namespace = before ++ (name, lib_doc) :: after
         ∧ Forall (λ entry, ¬ declares entry.2) before
         ∧ declares lib_doc)
    ∧ ((∀ entry, entry ∈ get_libraries namespace ++ get_resources namespace →
                 ¬ declares entry.2) →
       lib_doc = get_library_doc namespace)
    ∧ (∀ file file_namespace source,
         get_namespace ws (get_or_open_document ws file)
         = Some file_namespace →
         lib_source lib_doc = Some source →
         file ≠ source →
         lib_doc_in lib_doc (get_libraries file_namespace) = false →
         lib_doc_in lib_doc (get_resources file_namespace) = false →
         _find_keyword_references_in_file ws (canceled file) kw_doc
           (Some lib_doc) file = MkWalk [] (inr []))
    ∧ (∀ loc, loc ∈ l ↔
         ∃ file locs,
           file ∈ iter_files ws folder
           ∧ walk_result (_find_keyword_references_in_file ws (canceled file)
                            kw_doc (Some lib_doc) file) = inr locs
           ∧ loc ∈ locs)
    ∧ (∀ file file_namespace node loc,
         file ∈ iter_files ws folder →
         get_namespace ws (get_or_open_document ws file)
         = Some file_namespace →
         lib_source lib_doc = Some file
         ∨ lib_doc_in lib_doc (get_libraries file_namespace) = true
         ∨ lib_doc_in lib_doc (get_resources file_namespace) = true →
         conditions_first file_namespace →
         (∀ j, canceled file j = false) →
         node ∈ iter_nodes (model file_namespace) →
         loc ∈ yielded (references_at_node file_namespace kw_doc node) →
         loc ∈ l).
Proof.
  intros Hfolder Hns declares.
  rewrite /_find_keyword_references Hfolder Hns.
  set (lib_doc :=
         match owning_library kw_doc (get_libraries namespace) with
         | Some l => l
         | None =>
             match owning_library kw_doc (get_resources namespace) with
             | Some l => l
             | None => get_library_doc namespace
             end
         end).
  set (l := gather ((λ f, _find_keyword_references_in_file ws (canceled f)
                            kw_doc (Some lib_doc) f) <$> iter_files ws folder)).
  exists l, lib_doc. split; [done|].
  pose proof (owning_library_spec kw_doc (get_libraries namespace)) as Hlibs.
  pose proof (owning_library_spec kw_doc (get_resources namespace)) as Hres.
  assert (Hl : ∀ loc, loc ∈ l ↔
     ∃ file locs,
       file ∈ iter_files ws folder
       ∧ walk_result (_find_keyword_references_in_file ws (canceled file)
                        kw_doc (Some lib_doc) file) = inr locs
       ∧ loc ∈ locs).
  { intros loc. rewrite elem_of_gather. split.
    - intros (w & locs & Hw & Hr & Hloc).
      apply list_elem_of_fmap in Hw as (file & -> & Hfile).
      by exists file, locs.
    - intros (file & locs & Hfile & Hr & Hloc).
      eexists _, locs. split_and!; [|exact Hr|done].
      apply list_elem_of_fmap. by exists file. }
  split_and!.
  - intros (entry & Hentry & Hdecl). rewrite /lib_doc.
    destruct (owning_library kw_doc (get_libraries namespace)) as [found|].
    + destruct Hlibs as (before & name & after & ? & Hbefore & ?).
      exists before, name, after. split_and!; [done| |done].
      eapply Forall_impl; [exact Hbefore|]. intros e He. rewrite /declares.
      congruence.
    + specialize (Hlibs entry Hentry). rewrite /declares in Hdecl.
      congruence.
  - intros Hnone (entry & Hentry & Hdecl). rewrite /lib_doc.
    destruct (owning_library kw_doc (get_libraries namespace)) as [found|].
    { destruct Hlibs as (before & name & after & Hin & _ & ?).
      destruct (Hnone (name, found)); [|done].
      rewrite Hin. apply elem_of_app. right. left. }
    destruct (owning_library kw_doc (get_resources namespace)) as [found|].
    + destruct Hres as (before & name & after & ? & Hbefore & ?).
      exists before, name, after. split_and!; [done| |done].
      eapply Forall_impl; [exact Hbefore|]. intros e He. rewrite /declares.
      congruence.
    + specialize (Hres entry Hentry). rewrite /declares in Hdecl.
      congruence.
  - intros Hnone. rewrite /lib_doc.
    destruct (owning_library kw_doc (get_libraries namespace)) as [found|].
    { destruct Hlibs as (before & name & after & Hin & _ & ?).
      destruct (Hnone (name, found)); [|done].
      apply elem_of_app. left. rewrite Hin. apply elem_of_app. right. left. }
    destruct (owning_library kw_doc (get_resources namespace)) as [found|];
      [|done].
    destruct Hres as (before & name & after & Hin & _ & ?).
    destruct (Hnone (name, found)); [|done].
    apply elem_of_app. right. rewrite Hin. apply elem_of_app. right. left.
  - intros file ns source Hfns Hsrc Hne Hlib Hresource.
    rewrite /_find_keyword_references_in_file Hfns Hsrc Hlib Hresource /=.
    by rewrite bool_decide_false.
  - exact Hl.
  - intros file ns node loc Hfile Hfns Himports Hsafe Hnot Hnode Hloc.
    apply Hl. eexists file, _. split_and!; [done| |].
    + rewrite /_find_keyword_references_in_file Hfns.
      match goal with
      | |- walk_result (if ?b then _ else _) = _ =>
          assert (Hwalked : b = false)
      end.
      { destruct (lib_source _) as [src|] eqn:Hsrc; [|done].
        destruct Himports as [[= ->]|[Hi|Hi]].
        - by rewrite bool_decide_true.
        - by rewrite Hi /= andb_false_r.
        - by rewrite Hi /= andb_false_r. }
      rewrite Hwalked.
      by apply (keyword_walk_complete (canceled file) 0 ns kw_doc
                  (iter_nodes (model ns)) []).
    + simpl. apply list_elem_of_bind. by exists node.
Qed.

Lemma variable_walk_returns ws variable file ns :
  get_namespace ws (get_or_open_document ws file) = Some ns →
  ∃ l, walk_result (_find_variable_references_in_file ws variable file)
       = inr l.
Proof.
  intros Hns. rewrite /_find_variable_references_in_file Hns.
  rewrite -current_block_nil.
  destruct (variable_walk_spec ns (get_or_open_document ws file) variable []
              (iter_nodes (get_model ws (get_or_open_document ws file))) [])
    as (l & -> & _).
  by eexists.
Qed.

(** The references to an argument or to a local variable are searched
    in the document of the request and nowhere else, whatever files the
    folder has; those to another variable are searched in the files of
    the folder.  The search returns the uses of the variable in the
    documents it searches, all of them and nothing else: the variable
    tokens whose name, resolved through the scope chain of their node,
    is the variable. *)
Theorem variable_search_finds_the_uses_in_the_documents_searched ws document
    variable folder :
  get_workspace_folder ws document = Some folder →
  is_Some (get_namespace ws document) →
  let searched :=
    match var_class variable with
    | ArgumentDefinition | LocalVariableDefinition => [to_path ws document]
    | OtherVariableDefinition => iter_files ws folder
    end in
  ∃ l,
    _find_variable_references ws document variable = Some l
    ∧ ∀ loc,
        loc ∈ l
        ↔ ∃ file,
            file ∈ searched
            ∧ variable_use
                (get_namespace ws (get_or_open_document ws file))
                (get_or_open_document ws file) variable
                (iter_nodes (get_model ws (get_or_open_document ws file)))
                loc.
Proof.
  intros Hfolder [namespace Hns] searched.
  rewrite /_find_variable_references Hfolder Hns.
  assert (Hfutures :
    match var_class variable with
    | ArgumentDefinition | LocalVariableDefinition =>
        [_find_variable_references_in_file ws variable (to_path ws document)]
    | OtherVariableDefinition =>
        (λ f, _find_variable_references_in_file ws variable f)
          <$> iter_files ws folder
    end
    = (λ f, _find_variable_references_in_file ws variable f) <$> searched).
  { rewrite /searched. by destruct (var_class variable). }
  rewrite Hfutures. eexists. split; [reflexivity|].
  intros loc. rewrite elem_of_gather. split.
  - intros (w & locs & Hw & Hr & Hloc).
    apply list_elem_of_fmap in Hw as (file & -> & Hfile).
    exists file. split; [done|].
    by apply (variable_walk_uses ws variable file locs Hr).
  - intros (file & Hfile & Huse).
    assert (Hfns : ∃ ns, get_namespace ws (get_or_open_document ws file)
                         = Some ns).
    { destruct Huse as (ns & ? & ? & ? & ? & ? & ? & ? & -> & _).
      by exists ns. }
    destruct Hfns as [ns Hfns].
    destruct (variable_walk_returns ws variable file ns Hfns) as [locs Hr].
    exists (_find_variable_references_in_file ws variable file), locs.
    split_and!; [|done|].
    + apply list_elem_of_fmap. by exists file.
    + by apply (variable_walk_uses ws variable file locs Hr).
Qed.

End workspace_search.

(** The searches for [KwB] and for [${cond}] from the sample script,
    in the folder that holds it. *)
Lemma keyword_search_keeps_the_files_that_returned_witness :
  References.get_workspace_folder Samples.sample_workspace
    "file:///tests/suite.robot" = Some "/tests"
  ∧ References.get_namespace Samples.sample_workspace
      "file:///tests/suite.robot" = Some Samples.sample_namespace
  ∧ ∃ l, References._find_keyword_references (H:=Samples.sample_helpers)
           Samples.sample_workspace Samples.never_canceled
           "file:///tests/suite.robot" Samples.kw_b = Some l.
Proof.
  assert (H1 : References.get_workspace_folder Samples.sample_workspace
                 "file:///tests/suite.robot" = Some "/tests").
  { vm_compute. reflexivity. }
  assert (H2 : References.get_namespace Samples.sample_workspace
                 "file:///tests/suite.robot" = Some Samples.sample_namespace).
  { reflexivity. }
  split; [exact H1|]. split; [exact H2|].
  destruct (keyword_search_keeps_the_files_that_returned
              (H:=Samples.sample_helpers) Samples.sample_workspace
              Samples.never_canceled "file:///tests/suite.robot"
              Samples.kw_b "/tests" Samples.sample_namespace H1 H2)
    as (l & _ & Hl & _).
  exists l. exact Hl.
Defined.

Lemma variable_search_finds_the_uses_in_the_documents_searched_witness :
  References.get_workspace_folder Samples.sample_workspace
    "file:///tests/suite.robot" = Some "/tests"
  ∧ is_Some (References.get_namespace Samples.sample_workspace
               "file:///tests/suite.robot")
  ∧ ∃ l, References._find_variable_references (H:=Samples.sample_helpers)
           Samples.sample_workspace "file:///tests/suite.robot"
           Samples.sample_variable = Some l
         ∧ References.MkLocation "file:///tests/suite.robot"
             (Samples.token_range (Samples.argument "${cond}" 22)) ∈ l.
Proof.
  assert (H1 : References.get_workspace_folder Samples.sample_workspace
                 "file:///tests/suite.robot" = Some "/tests").
  { vm_compute. reflexivity. }
  assert (H2 : is_Some (References.get_namespace Samples.sample_workspace
                          "file:///tests/suite.robot")).
  { exists Samples.sample_namespace. reflexivity. }
  split; [exact H1|]. split; [exact H2|].
  destruct (variable_search_finds_the_uses_in_the_documents_searched
              (H:=Samples.sample_helpers) Samples.sample_workspace
              "file:///tests/suite.robot" Samples.sample_variable "/tests"
              H1 H2) as (l & Hl & Hiff).
  exists l. split; [exact Hl|]. apply Hiff.
  exists "/tests/suite.robot". split; [left|].
  exists Samples.sample_namespace,
    [References.MkNode References.SectionBlock None; Samples.test_case;
     Samples.run_keywords_call],
    Samples.run_keyword_if_call, [Samples.wait_until_call],
    [Samples.keyword_token "Run Keyword If"; Samples.argument "${cond}" 22;
     Samples.argument "KwA" 33; Samples.argument "ELSE IF" 40;
     Samples.argument "${cond2}" 51; Samples.argument "KwB" 63;
     Samples.argument "ELSE" 70; Samples.argument "KwC" 78],
    (Samples.argument "${cond}" 22),
    (References.MkToken References.VARIABLE "${cond}" 3 22),
    Samples.sample_variable.
  split_and!; try reflexivity.
  - right. left.
  - left.
Defined.

(** ** The handlers *)

Section handlers.
Import References DefaultHandler.
Context `{Helpers} `{PositionHelpers}.

(** The location of the declaration of a variable, as the default
    handler gives it: none for a variable without a source. *)
Local Abbreviation declaration_of variable :=
  (match var_source variable with
   | Some variable_source =>
       if bool_decide (variable_source = "") then []
       else [MkLocation (uri_from_path variable_source) (var_range variable)]
   | None => []
   end).

Lemma sub_tokens_loop_declaration ws' namespace nodes document position
    sub_tokens :
  match sub_tokens_loop ws' namespace nodes document position false
          sub_tokens with
  | inr (Some l) =>
      ∃ sub_token variable,
        sub_token ∈ sub_tokens
        ∧ type sub_token = VARIABLE
        ∧ is_in_range position (range_from_token sub_token) = true
        ∧ find_variable namespace (value sub_token) nodes position
          = Some variable
        ∧ _find_variable_references ws' document variable = Some l
        ∧ sub_tokens_loop ws' namespace nodes document position true
            sub_tokens = inr (Some (declaration_of variable ++ l))
  | r => sub_tokens_loop ws' namespace nodes document position true
           sub_tokens = r
  end.
Proof.
  induction sub_tokens as [|sub_token rest IH]; simpl; [done|].
  assert (Hrest :
    match sub_tokens_loop ws' namespace nodes document position false
            rest with
    | inr (Some l) =>
        ∃ sub_token' variable,
          sub_token' ∈ sub_token :: rest
          ∧ type sub_token' = VARIABLE
          ∧ is_in_range position (range_from_token sub_token') = true
          ∧ find_variable namespace (value sub_token') nodes position
            = Some variable
          ∧ _find_variable_references ws' document variable = Some l
          ∧ sub_tokens_loop ws' namespace nodes document position true
              rest = inr (Some (declaration_of variable ++ l))
    | r => sub_tokens_loop ws' namespace nodes document position true
             rest = r
    end).
  { destruct (sub_tokens_loop ws' namespace nodes document position false
                rest) as [e|[l|]]; [done| |done].
    destruct IH as (s' & v & ? & ?). exists s', v. split; [by right|done]. }
  case_bool_decide as Hty; [|exact Hrest].
  destruct (is_in_range position _) eqn:Hrange; [|exact Hrest].
  destruct (find_variable namespace _ nodes position) as [variable|]
    eqn:Hfind; [|exact Hrest].
  destruct (_find_variable_references ws' document variable)
    as [references|] eqn:Hrefs; simpl; [|done].
  destruct (var_source variable) as [variable_source|] eqn:Hsource; simpl;
    exists sub_token, variable; rewrite Hsource;
    (split_and!; [left|done..|]); [|done].
  by case_bool_decide.
Qed.

Lemma tokens_loop_declaration ws' namespace nodes document position toks :
  match tokens_loop ws' namespace nodes document position false toks with
  | inr (Some l) =>
      ∃ token sub_token variable,
        token ∈ toks
        ∧ sub_token ∈ tokenize_variables_ignoring_errors token
        ∧ type sub_token = VARIABLE
        ∧ is_in_range position (range_from_token sub_token) = true
        ∧ find_variable namespace (value sub_token) nodes position
          = Some variable
        ∧ _find_variable_references ws' document variable = Some l
        ∧ tokens_loop ws' namespace nodes document position true toks
          = inr (Some (declaration_of variable ++ l))
  | r => tokens_loop ws' namespace nodes document position true toks = r
  end.
Proof.
  induction toks as [|token rest IH]; simpl; [done|].
  assert (Hrest :
    match tokens_loop ws' namespace nodes document position false rest with
    | inr (Some l) =>
        ∃ token' sub_token variable,
          token' ∈ token :: rest
          ∧ sub_token ∈ tokenize_variables_ignoring_errors token'
          ∧ type sub_token = VARIABLE
          ∧ is_in_range position (range_from_token sub_token) = true
          ∧ find_variable namespace (value sub_token) nodes position
            = Some variable
          ∧ _find_variable_references ws' document variable = Some l
          ∧ tokens_loop ws' namespace nodes document position true rest
            = inr (Some (declaration_of variable ++ l))
    | r => tokens_loop ws' namespace nodes document position true rest = r
    end).
  { destruct (tokens_loop ws' namespace nodes document position false rest)
      as [e|[l|]]; [done| |done].
    destruct IH as (t' & s' & v & ? & ?).
    exists t', s', v. split; [by right|done]. }
  pose proof (sub_tokens_loop_declaration ws' namespace nodes document
                position (tokenize_variables_ignoring_errors token)) as Hsub.
  destruct (sub_tokens_loop ws' namespace nodes document position false _)
    as [e|[l|]].
  - rewrite Hsub. destruct (passes_through e); [done|exact Hrest].
  - destruct Hsub as (s' & v & ? & ? & ? & ? & ? & ->).
    exists token, s', v. split_and!; [left|done..].
  - rewrite Hsub. exact Hrest.
Qed.

(** Asking for the declaration changes neither whether a handler
    answers nor the references it finds.  When
    [references_KeywordName] answers, its answer with
    [include_declaration] is the references of the keyword that the
    name resolves to, with one location in front: the source of that
    keyword, at the range of the name.  When the default handler
    answers, it answers for a variable found at the position, and its
    answer with [include_declaration] is the references of that
    variable with, in front, the source and range of the variable if
    it has a source and nothing otherwise. *)
Theorem include_declaration_only_adds_the_declaration ws ws' canceled node
    nodes document position :
  match references_KeywordName ws ws' canceled node document false with
  | inr (Some l) =>
      ∃ namespace name_token keyword keyword_source,
        get_namespace ws document = Some namespace
        ∧ get_token node [KEYWORD_NAME] = Some name_token
        ∧ find_keyword namespace (value name_token) = Some keyword
        ∧ doc_source keyword = Some keyword_source
        ∧ _find_keyword_references ws' canceled document keyword = Some l
        ∧ references_KeywordName ws ws' canceled node document true
          = inr (Some (MkLocation (uri_from_path keyword_source)
                         (range_from_token_or_node node name_token) :: l))
  | r => references_KeywordName ws ws' canceled node document true = r
  end
  ∧ match _references_default ws ws' nodes document position false with
    | inr (Some l) =>
        ∃ namespace node' token sub_token variable,
          get_namespace ws document = Some namespace
          ∧ last nodes = Some node'
          ∧ token ∈ get_tokens_at_position node' position
          ∧ sub_token ∈ tokenize_variables_ignoring_errors token
          ∧ type sub_token = VARIABLE
          ∧ is_in_range position (range_from_token sub_token) = true
          ∧ find_variable namespace (value sub_token) nodes position
            = Some variable
          ∧ _find_variable_references ws' document variable = Some l
          ∧ _references_default ws ws' nodes document position true
            = inr (Some (declaration_of variable ++ l))
    | r => _references_default ws ws' nodes document position true = r
    end.
Proof.
  split.
  - rewrite /references_KeywordName.
    destruct (get_namespace ws document) as [namespace|]; [|done].
    destruct (get_token node [KEYWORD_NAME]) as [name_token|]; [|done].
    destruct (find_keyword namespace (value name_token)) as [keyword|]
      eqn:Hk; [|done].
    destruct (doc_source keyword) as [keyword_source|] eqn:Hs; [|done].
    destruct (_ && _); [|done].
    destruct (_find_keyword_references ws' canceled document keyword)
      as [references|] eqn:Hrefs; simpl; [|done].
    by exists namespace, name_token, keyword, keyword_source.
  - rewrite /_references_default.
    destruct (get_namespace ws document) as [namespace|]; [|done].
    destruct (last nodes) as [node'|]; [|done].
    destruct (tokens node'); [|done].
    pose proof (tokens_loop_declaration ws' namespace nodes document position
                  (get_tokens_at_position node' position)) as Hloop.
    destruct (tokens_loop ws' namespace nodes document position false _)
      as [e|[found|]]; [done| |done].
    destruct Hloop as (token & sub_token & variable & ?).
    by exists namespace, node', token, sub_token, variable.
Qed.

Lemma sub_tokens_loop_stale ws' namespace nodes document position
    include_declaration sub_tokens :
  is_Some (get_workspace_folder ws' document) →
  get_namespace ws' document = None →
  (sub_tokens_loop ws' namespace nodes document position include_declaration
     sub_tokens = inr None
   ∨ sub_tokens_loop ws' namespace nodes document position
       include_declaration sub_tokens = inl TypeError)
  ∧ (∀ sub_token variable,
       sub_token ∈ sub_tokens →
       type sub_token = VARIABLE →
       is_in_range position (range_from_token sub_token) = true →
       find_variable namespace (value sub_token) nodes position
       = Some variable →
       sub_tokens_loop ws' namespace nodes document position
         include_declaration sub_tokens = inl TypeError).
Proof.
  intros [folder Hfolder] Hns.
  induction sub_tokens as [|first rest [IH1 IH2]]; simpl.
  { split; [by left|]. intros ? ? Hin. by apply elem_of_nil in Hin. }
  destruct (bool_decide (type first = VARIABLE)) eqn:Hty.
  - destruct (is_in_range position (range_from_token first)) eqn:Hrange.
    + destruct (find_variable namespace (value first) nodes position)
        as [variable|] eqn:Hfind.
      * rewrite /_find_variable_references Hfolder Hns /=. split; [by right|].
        done.
      * split; [exact IH1|]. intros sub_token variable Hin ? ? Hfind'.
        apply elem_of_cons in Hin as [->|Hin]; [congruence|].
        by eapply IH2.
    + split; [exact IH1|]. intros sub_token variable Hin ? Hrange' ?.
      apply elem_of_cons in Hin as [->|Hin]; [congruence|].
      by eapply IH2.
  - apply bool_decide_eq_false in Hty.
    split; [exact IH1|]. intros sub_token variable Hin Hty' ? ?.
    apply elem_of_cons in Hin as [->|Hin]; [done|].
    by eapply IH2.
Qed.

(** When the namespace of the document is gone by the time the
    variable search asks for it, the default handler returns [None]:
    for a token with a variable at the position that resolves, the
    search returns [None], splicing it raises [TypeError] in the inner
    loop, and the [except BaseException] of the handler drops it and
    goes on with the next token, where [references_KeywordName] lets
    the same [TypeError] through. *)
Theorem default_handler_drops_the_TypeError_of_a_lost_namespace ws ws' nodes
    document position include_declaration :
  is_Some (get_workspace_folder ws' document) →
  get_namespace ws' document = None →
  _references_default ws ws' nodes document position include_declaration
  = inr None
  ∧ (∀ namespace sub_tokens sub_token variable,
       sub_token ∈ sub_tokens →
       type sub_token = VARIABLE →
       is_in_range position (range_from_token sub_token) = true →
       find_variable namespace (value sub_token) nodes position
       = Some variable →
       sub_tokens_loop ws' namespace nodes document position
         include_declaration sub_tokens = inl TypeError)
  ∧ passes_through TypeError = false.
Proof.
  intros Hfolder Hns. split_and!; [| |done].
  - rewrite /_references_default.
    destruct (get_namespace ws document) as [namespace|]; [|done].
    destruct (last nodes) as [node|]; [|done].
    destruct (tokens node); [|done].
    induction (get_tokens_at_position node position) as [|token rest IH];
      simpl; [done|].
    destruct (sub_tokens_loop_stale ws' namespace nodes document position
                include_declaration
                (tokenize_variables_ignoring_errors token) Hfolder Hns)
      as [[-> | ->] _]; exact IH.
  - intros namespace sub_tokens sub_token variable Hin Hty Hrange Hfind.
    destruct (sub_tokens_loop_stale ws' namespace nodes document position
                include_declaration sub_tokens Hfolder Hns) as [_ Hraise].
    by eapply Hraise.
Qed.

End handlers.

(** ** Where the nested invocations and the locations come from *)

Section unwrapped_tokens.
Import References.
Context `{Helpers}.

Local Abbreviation record := (λ t args u, gen_yield (t, args, u)).

Lemma find_none_Forall (P : Token → bool) l :
  List.find P l = None → Forall (λ a, P a = false) l.
Proof.
  intros Hnone. apply Forall_forall. intros a Ha.
  apply (List.find_none P l Hnone). by apply list_elem_of_In.
Qed.

(** What the two loops keep: a nested name is a token of the
    arguments that is no separator and no variable, its arguments are
    tokens of the arguments, in their order, with no separator among
    them, and the name is escape-decoded. *)
Lemma nested_tokens t args (i : Invocation) :
  i ∈ yielded (nested record t args) →
  i = (t, args, true) ∧ is_not_variable_token t = true.
Proof.
  rewrite /nested. destruct (is_not_variable_token t); simpl.
  - by intros ->%list_elem_of_singleton.
  - by intros ?%elem_of_nil.
Qed.

Lemma run_keywords_loop_tokens fuel arguments has_separator
    (i : Invocation) :
  i ∈ yielded (run_keywords_loop record fuel arguments has_separator) →
  i.1.1 ∈ arguments
  ∧ i.1.2 `sublist_of` arguments
  ∧ is_AND i.1.1 = false
  ∧ is_not_variable_token i.1.1 = true
  ∧ Forall (λ a, is_AND a = false) i.1.2
  ∧ i.2 = true.
Proof.
  revert arguments has_separator.
  induction fuel as [|fuel IH]; intros [|t arguments] hs; simpl;
    try by intros ?%elem_of_nil.
  destruct (is_AND t) eqn:Ht.
  { intros (? & ? & ? & ? & ? & ?)%IH.
    split_and!; [by right|by constructor|done..]. }
  destruct (List.find is_AND arguments) as [sep|] eqn:Hsep.
  - destruct (py_index_of_find _ _ _ Hsep) as (j & -> & Hnone & _).
    intros [Hi|Hi]%elem_of_gen_seq.
    + apply nested_tokens in Hi as [-> Hv]. simpl.
      split_and!; [left| |done|done| |done].
      * constructor. apply sublist_take.
      * by apply find_none_Forall.
    + apply IH in Hi as (Hname & Hargs & ? & ? & ? & ?).
      split_and!; [| |done..].
      * right. by apply (subseteq_drop (S j) arguments).
      * constructor. etrans; [exact Hargs|apply sublist_drop].
  - intros [Hi|Hi]%elem_of_gen_seq.
    + apply nested_tokens in Hi as [-> Hv]. simpl.
      split_and!; [left| |done|done| |done].
      * constructor. destruct hs; [done|apply sublist_nil_l].
      * destruct hs; [by apply find_none_Forall|constructor].
    + apply IH in Hi as (Hname & Hargs & ? & ? & ? & ?).
      split_and!; [by right|by constructor|done..].
Qed.

Lemma run_keyword_if_loop_tokens fuel arguments (i : Invocation) :
  i ∈ yielded (run_keyword_if_loop record fuel arguments) →
  i.1.1 ∈ arguments
  ∧ i.1.2 `sublist_of` arguments
  ∧ is_ELSE i.1.1 = false
  ∧ is_not_variable_token i.1.1 = true
  ∧ Forall (λ a, is_ELSE a = false) i.1.2
  ∧ i.2 = true.
Proof.
  revert arguments.
  induction fuel as [|fuel IH]; intros [|t arguments]; simpl;
    try by intros ?%elem_of_nil.
  destruct (is_ELSE t) eqn:Ht.
  { intros (? & ? & ? & ? & ? & ?)%IH.
    split_and!; [by right|by constructor|done..]. }
  destruct (List.find is_ELSE arguments) as [sep|] eqn:Hsep.
  - destruct (py_index_of_find _ _ _ Hsep) as (j & -> & Hnone & _).
    intros [Hi|Hi]%elem_of_gen_seq.
    + apply nested_tokens in Hi as [-> Hv]. simpl.
      split_and!; [left| |done|done| |done].
      * constructor. apply sublist_take.
      * by apply find_none_Forall.
    + apply IH in Hi as (Hname & Hargs & ?).
      assert (Hrest : (if bool_decide (value sep = "ELSE IF")
                       then drop 1 (drop (S j) arguments)
                       else drop (S j) arguments) `sublist_of` arguments).
      { case_bool_decide; [|apply sublist_drop].
        etrans; apply sublist_drop. }
      split; [|split; [|done]].
      * right. by apply (sublist_subseteq _ _ Hrest).
      * constructor. by etrans.
  - intros [Hi|Hi]%elem_of_gen_seq.
    + apply nested_tokens in Hi as [-> Hv]. simpl.
      split_and!; [left| |done|done| |done].
      * constructor. apply sublist_nil_l.
      * constructor.
    + apply IH in Hi as (Hname & Hargs & ? & ? & ? & ?).
      split_and!; [by right|by constructor|done..].
Qed.

Lemma nested_invocations_tokens namespace kw_token arguments
    (i : Invocation) :
  i ∈ yielded (nested_invocations namespace kw_token arguments) →
  i.1.1 ∈ arguments ∧ i.1.2 `sublist_of` arguments.
Proof.
  rewrite /nested_invocations /any_run_keyword.
  destruct (is_not_variable_token kw_token); simpl;
    [|by intros ?%elem_of_nil].
  destruct (find_keyword namespace (value kw_token)) as [kw|];
    [|by intros ?%elem_of_nil].
  destruct (is_any_run_keyword kw); simpl; [|by intros ?%elem_of_nil].
  assert (Hkws : i ∈ yielded
      (if is_run_keywords kw
       then run_keywords_loop record (length arguments) arguments false
       else if is_run_keyword_if kw && bool_decide (1 < length arguments)
       then run_keyword_if_loop record (length arguments) (drop 1 arguments)
       else gen_pass) → i.1.1 ∈ arguments ∧ i.1.2 `sublist_of` arguments).
  { destruct (is_run_keywords kw).
    { intros (? & ? & _)%run_keywords_loop_tokens. done. }
    destruct (_ && _); [|by intros ?%elem_of_nil].
    intros (Hname & Hargs & _)%run_keyword_if_loop_tokens. split.
    - by apply (subseteq_drop 1 arguments).
    - etrans; [exact Hargs|apply sublist_drop]. }
  assert (Hcond : i ∈ yielded
      (if is_run_keyword_with_condition kw
          && bool_decide (run_keyword_condition_count kw < length arguments)
       then
         match arguments !! 1 with
         | None => gen_raise IndexError
         | Some a1 =>
             if is_not_variable_token a1 then
               match arguments !! run_keyword_condition_count kw with
               | Some t =>
                   record t
                     (drop (S (run_keyword_condition_count kw)) arguments)
                     true
               | None => gen_raise IndexError
               end
             else
               if is_run_keywords kw
               then run_keywords_loop record (length arguments)
                      arguments false
               else if is_run_keyword_if kw
                       && bool_decide (1 < length arguments)
               then run_keyword_if_loop record (length arguments)
                      (drop 1 arguments)
               else gen_pass
         end
       else
         if is_run_keywords kw
         then run_keywords_loop record (length arguments) arguments false
         else if is_run_keyword_if kw && bool_decide (1 < length arguments)
         then run_keyword_if_loop record (length arguments)
                (drop 1 arguments)
         else gen_pass) → i.1.1 ∈ arguments ∧ i.1.2 `sublist_of` arguments).
  { destruct (is_run_keyword_with_condition kw); [|exact Hkws].
    rewrite andb_true_l.
    destruct (bool_decide (run_keyword_condition_count kw < length arguments));
      [|exact Hkws].
    destruct (arguments !! 1) as [a1|]; [|by intros ?%elem_of_nil].
    destruct (is_not_variable_token a1); [|exact Hkws].
    destruct (arguments !! run_keyword_condition_count kw) as [t|] eqn:Ht;
      [|by intros ?%elem_of_nil].
    intros ->%list_elem_of_singleton. simpl. split.
    - by eapply list_elem_of_lookup_2.
    - apply sublist_drop. }
  destruct (is_run_keyword kw); [|exact Hcond].
  rewrite andb_true_l.
  destruct (bool_decide (0 < length arguments)); [|exact Hcond].
  destruct (arguments !! 0) as [a0|] eqn:H0; [|by intros ?%elem_of_nil].
  destruct (is_not_variable_token a0); [|exact Hcond].
  intros ->%list_elem_of_singleton. simpl. split.
  - by eapply list_elem_of_lookup_2.
  - apply sublist_drop.
Qed.

(** Unwrapping never makes up a token: the name of every nested
    invocation is one of the argument tokens of the call, its arguments
    are argument tokens of the call, in their order and fewer than the
    call has.  In the arguments of a keyword that runs several
    keywords, a separator [AND] is neither taken for a name nor passed
    as an argument, no variable is taken for a name, and every name is
    escape-decoded; likewise for the markers [ELSE] and [ELSE IF] of
    a keyword that runs a keyword on a condition. *)
Theorem unwrapping_takes_names_and_arguments_from_the_call
    namespace kw_token arguments :
  Forall (λ i : Invocation,
            i.1.1 ∈ arguments
            ∧ i.1.2 `sublist_of` arguments
            ∧ length i.1.2 < length arguments)
    (yielded (nested_invocations namespace kw_token arguments))
  ∧ (∀ kw,
       find_keyword namespace (value kw_token) = Some kw →
       is_run_keyword kw = false →
       is_run_keyword_with_condition kw = false →
       is_run_keywords kw = true →
       Forall (λ i : Invocation,
                 is_AND i.1.1 = false
                 ∧ is_not_variable_token i.1.1 = true
                 ∧ Forall (λ a, is_AND a = false) i.1.2
                 ∧ i.2 = true)
         (yielded (nested_invocations namespace kw_token arguments)))
  ∧ (∀ kw,
       find_keyword namespace (value kw_token) = Some kw →
       is_run_keyword kw = false →
       is_run_keyword_with_condition kw = false →
       is_run_keywords kw = false →
       is_run_keyword_if kw = true →
       Forall (λ i : Invocation,
                 is_ELSE i.1.1 = false
                 ∧ is_not_variable_token i.1.1 = true
                 ∧ Forall (λ a, is_ELSE a = false) i.1.2
                 ∧ i.2 = true)
         (yielded (nested_invocations namespace kw_token arguments))).
Proof.
  split_and!.
  - apply Forall_forall. intros i Hi.
    destruct (nested_invocations_tokens _ _ _ _ Hi) as [Hname Hargs].
    split_and!; [done..|]. by eapply nested_invocations_shorter.
  - intros kw Hkw Hrk Hcond Hkws.
    rewrite /nested_invocations /any_run_keyword Hkw Hrk Hcond Hkws /=.
    destruct (is_not_variable_token kw_token); simpl; [|constructor].
    destruct (is_any_run_keyword kw); simpl; [|constructor].
    apply Forall_forall. intros i Hi.
    apply run_keywords_loop_tokens in Hi as (_ & _ & ? & ? & ? & ?). done.
  - intros kw Hkw Hrk Hcond Hkws Hif.
    rewrite /nested_invocations /any_run_keyword Hkw Hrk Hcond Hkws Hif /=.
    destruct (is_not_variable_token kw_token); simpl; [|constructor].
    destruct (is_any_run_keyword kw); simpl; [|constructor].
    case_bool_decide; [|constructor].
    apply Forall_forall. intros i Hi.
    apply run_keyword_if_loop_tokens in Hi as (_ & _ & ? & ? & ? & ?). done.
Qed.

(** What stands behind a location reported for a call: a token of the
    call, the pair of owner and bare name that matched, and the owner
    being imported. *)
Lemma from_tokens_where fuel namespace kw_doc node kw_token arguments u loc :
  loc ∈ yielded (from_tokens fuel namespace kw_doc node (Some kw_token)
                   arguments u) →
  ∃ tok lib name,
    tok ∈ kw_token :: arguments
    ∧ is_not_variable_token tok = true
    ∧ loc = MkLocation (uri_from_path_normalized (source namespace))
              (range_from_token_or_node node tok)
    ∧ ((lib, Some name) ∈ iter_over_keyword_names_and_owners (value tok)
       ∨ (lib, Some name)
         ∈ iter_over_keyword_names_and_owners (unescape (value tok)))
    ∧ KeywordMatcher name = KeywordMatcher (doc_name kw_doc)
    ∧ (∀ q, lib = Some q →
         KeywordMatcher q ∈ get_libraries_matchers namespace
         ∨ KeywordMatcher q ∈ get_resources_matchers namespace).
Proof.
  revert kw_token arguments u.
  induction fuel as [|fuel IH]; intros tok0 arguments u;
    [by intros ?%elem_of_nil|].
  rewrite from_tokens_S /from_tokens_body.
  destruct (is_not_variable_token tok0) eqn:Hv; [|by intros ?%elem_of_nil].
  intros ([lib name] & Hin & Hloc)%elem_of_gen_for.
  destruct (match lib with Some _ => _ | None => _ end) eqn:Hq;
    [by apply elem_of_nil in Hloc|].
  destruct name as [name|]; [|by apply elem_of_nil in Hloc].
  apply elem_of_gen_seq in Hloc as [Hloc|Hloc].
  - case_bool_decide as Hm; [|by apply elem_of_nil in Hloc].
    destruct (find_keyword namespace _) as [kw|];
      [|by apply elem_of_nil in Hloc].
    destruct (keyworddoc_eq kw kw_doc); [|by apply elem_of_nil in Hloc].
    apply list_elem_of_singleton in Hloc as ->.
    exists tok0, lib, name. split_and!; [left|done|done| |done|].
    + destruct u; auto.
    + intros q ->. apply andb_false_iff in Hq as [Hq|Hq];
        apply negb_false_iff, bool_decide_eq_true in Hq; auto.
  - destruct (_ && _); [|by apply elem_of_nil in Hloc].
    rewrite any_run_keyword_replay in Hloc.
    apply elem_of_gen_bind in Hloc as (i & Hi & Hloc).
    apply IH in Hloc as (tok & lib' & name' & Htok & Hrest).
    exists tok, lib', name'. split; [|exact Hrest].
    destruct (nested_invocations_tokens _ _ _ _ Hi) as [Hname Hargs].
    right. apply elem_of_cons in Htok as [->|Htok]; [done|].
    by apply (sublist_subseteq _ _ Hargs).
Qed.

Lemma keyword_walk_elem canceled k namespace kw_doc nodes result l loc :
  walk_result (keyword_walk canceled k namespace kw_doc nodes result)
    = inr l →
  loc ∈ l →
  loc ∈ result
  ∨ ∃ node, node ∈ nodes
            ∧ loc ∈ yielded (references_at_node namespace kw_doc node).
Proof.
  revert k result.
  induction nodes as [|node nodes IH]; intros k result; simpl.
  - intros [= <-] ?. by left.
  - destruct (canceled k); [done|].
    destruct (raised (references_at_node namespace kw_doc node)); [done|].
    simpl. intros Hw Hloc.
    destruct (IH _ _ Hw Hloc) as [Hr|(n & Hn & Hu)].
    + apply elem_of_app in Hr as [Hr|Hr]; [by left|]. right.
      exists node. split; [left|done].
    + right. exists n. split; [by right|done].
Qed.

Lemma get_token_elem node types tok :
  get_token node types = Some tok →
  tok ∈ default [] (tokens node) ∧ type tok ∈ types.
Proof.
  intros [Hin Hty]%List.find_some. split.
  - by apply list_elem_of_In.
  - by apply bool_decide_eq_true in Hty.
Qed.

Lemma get_tokens_elem node types tok :
  tok ∈ get_tokens node types →
  tok ∈ default [] (tokens node) ∧ type tok ∈ types.
Proof.
  intros [Hin Hty]%list_elem_of_In%List.filter_In. split.
  - by apply list_elem_of_In.
  - by apply bool_decide_eq_true in Hty.
Qed.

(** The keyword search reports locations nowhere but at tokens of the
    call it looks at: at its name token or at one of its argument
    tokens, never at a variable, and in the file of the namespace.  So
    the walk over a file reports locations only at keyword, name and
    argument tokens of keyword calls, fixtures and templates of that
    file. *)
Theorem locations_are_at_tokens_of_the_calls namespace kw_doc :
  (∀ node kw_token arguments u,
     Forall (λ loc,
               ∃ tok, tok ∈ kw_token :: arguments
                      ∧ is_not_variable_token tok = true
                      ∧ loc = MkLocation
                                (uri_from_path_normalized (source namespace))
                                (range_from_token_or_node node tok))
       (yielded (get_keyword_references_from_tokens namespace kw_doc node
                   (Some kw_token) arguments u)))
  ∧ (∀ canceled l,
       walk_result (_find_keyword_references_in_namespace canceled namespace
                      kw_doc) = inr l →
       Forall (λ loc,
                 ∃ node tok,
                   node ∈ iter_nodes (model namespace)
                   ∧ node_class node
                     ∈ [KeywordCall; Fixture; Template; TestTemplate]
                   ∧ tok ∈ default [] (tokens node)
                   ∧ type tok ∈ [KEYWORD; NAME; ARGUMENT]
                   ∧ loc = MkLocation
                             (uri_from_path_normalized (source namespace))
                             (range_from_token_or_node node tok)) l).
Proof.
  assert (Hcall : ∀ node kw_token arguments u loc,
    loc ∈ yielded (get_keyword_references_from_tokens namespace kw_doc node
                     kw_token arguments u) →
    ∃ tok0 tok, kw_token = Some tok0 ∧ tok ∈ tok0 :: arguments
      ∧ is_not_variable_token tok = true
      ∧ loc = MkLocation (uri_from_path_normalized (source namespace))
                (range_from_token_or_node node tok)).
  { intros node [tok0|] arguments u loc Hloc;
      [|by apply elem_of_nil in Hloc].
    apply from_tokens_where in Hloc
      as (tok & _ & _ & Htok & Hv & -> & _).
    by exists tok0, tok. }
  split.
  - intros node kw_token arguments u. apply Forall_forall. intros loc Hloc.
    apply Hcall in Hloc as (tok0 & tok & [= <-] & ? & ? & ?).
    by exists tok.
  - intros canceled l Hw. apply Forall_forall. intros loc Hloc.
    destruct (keyword_walk_elem _ _ _ _ _ _ _ _ Hw Hloc)
      as [Hr|(node & Hnode & Hat)]; [by apply elem_of_nil in Hr|].
    exists node. rewrite /references_at_node in Hat.
    destruct (node_class node) eqn:Hclass;
      try (by apply elem_of_nil in Hat);
      apply Hcall in Hat as (tok0 & tok & Htok0 & Htok & _ & ->);
      apply get_token_elem in Htok0 as [Hin0 Hty0];
      exists tok;
      (apply elem_of_cons in Htok as [->|Htok];
       [|try (by apply elem_of_nil in Htok);
         apply get_tokens_elem in Htok as [Hin Hty]]);
      split_and!; try done; set_solver.
Qed.

(** A name with an owner in front counts as a use only when the owner
    is a library or a resource that the file imports: every location
    reported comes from a name that splits into an owner and a bare
    name such that the bare name matches the name of the target and
    the owner, when there is one, is among the imported libraries or
    resources of the file. *)
Theorem an_owner_in_a_name_has_to_be_imported namespace kw_doc node kw_token
    arguments u :
  Forall (λ loc,
            ∃ tok lib name,
              loc = MkLocation (uri_from_path_normalized (source namespace))
                      (range_from_token_or_node node tok)
              ∧ ((lib, Some name)
                 ∈ iter_over_keyword_names_and_owners (value tok)
                 ∨ (lib, Some name)
                   ∈ iter_over_keyword_names_and_owners (unescape (value tok)))
              ∧ KeywordMatcher name = KeywordMatcher (doc_name kw_doc)
              ∧ (∀ q, lib = Some q →
                   KeywordMatcher q ∈ get_libraries_matchers namespace
                   ∨ KeywordMatcher q ∈ get_resources_matchers namespace))
    (yielded (get_keyword_references_from_tokens namespace kw_doc node
                kw_token arguments u)).
Proof.
  apply Forall_forall. intros loc Hloc.
  destruct kw_token as [tok0|]; [|by apply elem_of_nil in Hloc].
  apply from_tokens_where in Hloc
    as (tok & lib & name & _ & _ & ? & ? & ? & ?).
  by exists tok, lib, name.
Qed.

End unwrapped_tokens.

(** ** The advertised capability *)

Section advertised_capability.
Import AsyncEvent FoldingRangePart FoldingCapability.
Implicit Types (objs : gmap nat (callable collect_args (list FoldingRange))).

Lemma run_ops_keeps_alive (w : World (Args:=collect_args)
                                 (Res:=list FoldingRange)) (ops : list op) :
  (∀ r, r ∈ listeners (w_self w) → is_Some (w_objs w !! r)) →
  ∀ r, r ∈ listeners (w_self (run_ops w ops)) →
       is_Some (w_objs (run_ops w ops) !! r).
Proof.
  rewrite /run_ops. revert w.
  induction ops as [|o ops IH]; intros w Hinv; simpl; [done|].
  apply IH. by apply step_keeps_alive.
Qed.

(** The server advertises folding ranges exactly when a request would
    call someone: in every state the event reaches from its creation by
    registrations, removals and the death of registered objects,
    [extend_capabilities] sets the capability when a dispatch of the
    event calls at least one listener, and leaves the capabilities as
    they are when it calls none.  It never withdraws the capability,
    and extending twice is extending once. *)
Theorem folding_is_advertised_when_a_listener_would_be_called
    (sched : Scheduler (list FoldingRange)) objs (ops : list op)
    executor prefix (capabilities : ServerCapabilities) args kw :
  let w := run_ops (MkWorld objs __init__) ops in
  let event := MkThreading (w_self w) executor prefix in
  let called := invoked (threading_notify sched event (w_objs w) args
                           None kw).2 in
  (called ≠ [] →
   extend_capabilities event capabilities = MkServerCapabilities (Some true))
  ∧ (called = [] → extend_capabilities event capabilities = capabilities)
  ∧ (folding_range_provider capabilities = Some true →
     folding_range_provider (extend_capabilities event capabilities)
     = Some true)
  ∧ extend_capabilities event (extend_capabilities event capabilities)
    = extend_capabilities event capabilities.
Proof.
  intros w event called.
  assert (Hcalled : ∀ r, r ∈ called ↔ r ∈ listeners (w_self w)).
  { intros r. rewrite /called /threading_notify /= awaitables_of_fst_iff.
    rewrite elem_of_elements. split; [by intros [? _]|].
    intros Hr. split; [done|].
    apply (run_ops_keeps_alive (MkWorld objs __init__) ops); [|done].
    simpl. set_solver. }
  assert (Hsize : size (listeners (w_self w)) ≠ 0 ↔ called ≠ []).
  { rewrite size_non_empty_iff. split.
    - intros Hne Hnil. apply Hne. apply set_equiv. intros r.
      rewrite -Hcalled Hnil. set_solver.
    - intros Hne Hempty. destruct called as [|r rest] eqn:Hc; [done|].
      assert (Hr : r ∈ listeners (w_self w)).
      { apply Hcalled. left. }
      apply Hempty in Hr. set_solver. }
  rewrite /extend_capabilities /=. split_and!.
  - intros Hne. by rewrite bool_decide_true; [|apply Hsize].
  - intros Hnil. rewrite bool_decide_false; [done|].
    rewrite Hsize. by intros ?.
  - intros Hadv. case_bool_decide; [done|exact Hadv].
  - by case_bool_decide.
Qed.

End advertised_capability.

(** ** Concurrent dispatch, with the loop that creates the futures *)

Section submission_properties.
Import AsyncEvent Submission.
Context {Args Res : Type}.
Implicit Types (objs : gmap nat (Listener Args Res)) (args : Args).
Implicit Types (sched : Scheduler Res) (refs : list nat).

Local Abbreviation live_of objs refs :=
  (omap (λ r, (λ method, (r, method)) <$> objs !! r) refs).

Local Abbreviation future_of args :=
  (λ rl : nat * Listener Args Res,
     match coroutine rl.2 args with
     | inr o => Some (rl.1, o)
     | inl _ => None
     end).

Local Abbreviation passes args :=
  (λ rl : nat * Listener Args Res, fails_in_loop args rl.2 = None).

Lemma live_of_fst objs refs r :
  r ∈ (live_of objs refs).*1 ↔ r ∈ refs ∧ is_Some (objs !! r).
Proof.
  induction refs as [|x refs IH]; simpl.
  { split; [by intros ?%elem_of_nil|by intros [?%elem_of_nil _]]. }
  destruct (objs !! x) as [m|] eqn:Hx; simpl.
  - rewrite !elem_of_cons IH. split.
    + intros [->|[? ?]]; [split; [by left|by eexists]|split; [by right|done]].
    + intros [[->|?] ?]; [by left|by right].
  - rewrite elem_of_cons IH. split; [intros [? ?]; split; [by right|done]|].
    intros [[->|?] Hr]; [|done]. rewrite Hx in Hr. by destruct Hr.
Qed.

Lemma live_of_NoDup objs refs : NoDup refs → NoDup (live_of objs refs).*1.
Proof.
  induction 1 as [|x refs Hx Hnd IH]; simpl; [constructor|].
  destruct (objs !! x) as [m|]; simpl; [|done].
  constructor; [|done]. by intros [? _]%live_of_fst.
Qed.

Lemma live_of_lookup objs refs r method :
  (r, method) ∈ live_of objs refs → objs !! r = Some method.
Proof.
  intros (x & Hx & Hr)%list_elem_of_omap.
  destruct (objs !! x) as [m|] eqn:Hm; simplify_eq/=. done.
Qed.

(** The first loop, when no listener fails in it. *)
Lemma submit_complete objs args refs :
  Forall (passes args) (live_of objs refs) →
  submit objs args refs
  = MkSubmitted (live_of objs refs).*1
      (omap (future_of args) (live_of objs refs)) None.
Proof.
  induction refs as [|x refs IH]; simpl; [done|].
  destruct (objs !! x) as [m|]; simpl; [|exact IH].
  intros [Hm Hrest]%Forall_cons. rewrite /fails_in_loop /= in Hm.
  destruct (coroutine m args) as [e|o]; [done|].
  destruct (__qualname__ m); [|done].
  by rewrite (IH Hrest).
Qed.

(** The first loop, when a listener fails in it. *)
Lemma submit_aborted objs args refs before r method after e :
  live_of objs refs = before ++ (r, method) :: after →
  Forall (passes args) before →
  fails_in_loop args method = Some e →
  submit objs args refs
  = MkSubmitted (before.*1 ++ [r]) (omap (future_of args) before) (Some e).
Proof.
  revert before.
  induction refs as [|x refs IH]; intros before; simpl.
  { by destruct before. }
  destruct (objs !! x) as [m|]; simpl; [|apply IH].
  destruct before as [|[x' m'] before]; simpl.
  - intros [= -> -> _] _. rewrite /fails_in_loop.
    destruct (coroutine method args) as [e'|o]; [by intros [= ->]|].
    destruct (__qualname__ method); [done|by intros [= <-]].
  - intros [= <- <- Hrest] [Hm Hbefore]%Forall_cons Hfail.
    rewrite /fails_in_loop /= in Hm.
    destruct (coroutine m args) as [e'|o]; [done|].
    destruct (__qualname__ m); [|done].
    by rewrite (IH before Hrest Hbefore Hfail).
Qed.

Lemma first_failure args (registered : list (nat * Listener Args Res)) :
  Forall (passes args) registered
  ∨ ∃ before r method after e,
      registered = before ++ (r, method) :: after
      ∧ Forall (passes args) before
      ∧ fails_in_loop args method = Some e.
Proof.
  induction registered as [|[r m] registered IH]; [by left|].
  destruct (fails_in_loop args m) as [e|] eqn:Hm.
  { right. by exists [], r, m, registered, e. }
  destruct IH as [Hall|(before & r' & m' & after & e & -> & Hbefore & Hfail)].
  - left. by constructor.
  - right. exists ((r, m) :: before), r', m', after, e.
    split_and!; [done| |done]. by constructor.
Qed.



Lemma length_futures args (registered : list (nat * Listener Args Res)) :
  Forall (passes args) registered →
  length (omap (future_of args) registered) = length registered.
Proof.
  induction 1 as [|[r m] registered Hm Hall IH]; csimpl; [done|].
  rewrite /fails_in_loop /= in Hm.
  destruct (coroutine m args); [done|]. csimpl. by rewrite IH.
Qed.


(** A concurrent dispatch reaches every registered live listener once,
    in the order of iteration of the set, as long as none fails in the
    loop that creates the futures: then it reaches exactly these
    listeners and, when exceptions are not ignored, collects one entry
    for each.  When a listener fails in that loop, the listeners
    reached are the live ones up to that one, no listener after it is
    called, and the generator raises before it yields anything. *)
Theorem concurrent_dispatch_reaches_each_live_listener_once sched
    (self : AsyncEventResultIteratorBase) objs args kw prefix :
  let run := tasking_notify sched (MkTasking self prefix) objs args kw in
  let registered := live objs (listeners self) in
  NoDup (invoked run)
  ∧ (∀ r, r ∈ invoked run → r ∈ listeners self ∧ is_Some (objs !! r))
  ∧ match raised (produced run) with
    | None =>
        Forall (λ rl, fails_in_loop args rl.2 = None) registered
        ∧ invoked run = registered.*1
        ∧ (ignore_exceptions kw = Some false →
           length (yielded (produced run)) = length registered)
    | Some e =>
        ∃ before r method after,
          registered = before ++ (r, method) :: after
          ∧ Forall (λ rl, fails_in_loop args rl.2 = None) before
          ∧ fails_in_loop args method = Some e
          ∧ invoked run = before.*1 ++ [r]
          ∧ (∀ r', r' ∈ after.*1 → r' ∉ invoked run)
          ∧ yielded (produced run) = []
    end.
Proof.
  intros run registered.
  assert (Hnd : NoDup registered.*1).
  { apply live_of_NoDup, NoDup_elements. }
  assert (Hin : ∀ r, r ∈ registered.*1 →
                     r ∈ listeners self ∧ is_Some (objs !! r)).
  { intros r [? ?]%live_of_fst. split; [by apply elem_of_elements|done]. }
  destruct (first_failure args registered)
    as [Hall|(before & r & method & after & e & Hsplit & Hbefore & Hfail)].
  - pose proof (submit_complete objs args _ Hall) as Hsubmit.
    rewrite /run /tasking_notify /notify /= Hsubmit /=. fold registered.
    split_and!; [done..|].
    intros Hkw. rewrite /ignore_exceptions_of Hkw /=.
    rewrite bind_await_entry_surfacing length_fmap as_completed_perm.
    by apply length_futures.
  - pose proof (submit_aborted objs args _ before r method after e Hsplit
                  Hbefore Hfail) as Hsubmit.
    rewrite /run /tasking_notify /notify /= Hsubmit /=.
    assert (Hreached : before.*1 ++ [r] = (before ++ [(r, method)]).*1).
    { by rewrite fmap_app. }
    rewrite Hsplit in Hnd, Hin.
    rewrite (assoc_L (++) before [(r, method)] after) fmap_app -Hreached
      in Hnd, Hin.
    apply NoDup_app in Hnd as (Hnd1 & Hdisj & _).
    split_and!; [done| |].
    + intros r' Hr'. apply Hin. apply elem_of_app. by left.
    + exists before, r, method, after. split_and!; [done..| |done].
      intros r' Hafter Hr'. by apply (Hdisj r' Hr').
Qed.

End submission_properties.



(** ** Folding ranges, with the loop that creates the futures *)

Section folding_range_request.
Import AsyncEvent Submission FoldingRangePart.
Implicit Types (sched : Scheduler (list FoldingRange)).
Implicit Types (objs : gmap nat (Listener collect_args (list FoldingRange))).
Implicit Types (documents : gmap string TextDocument).

Lemma threading_call_complete sched (event : collect_event) objs args kw :
  Forall (λ rl, fails_in_loop args rl.2 = None)
    (live objs (listeners (threading_base event))) →
  AsyncThreadingEvent_call sched event objs args kw
  = inr (as_completed sched
           (omap (λ rl : nat * Listener collect_args (list FoldingRange),
                    match coroutine rl.2 args with
                    | inr o => Some (rl.1, o)
                    | inl _ => None
                    end)
              (live objs (listeners (threading_base event))))
           ≫= await_entry (ignore_exceptions_of kw)).
Proof.
  intros Hall. pose proof (submit_complete objs args _ Hall) as Hsubmit.
  by rewrite /AsyncThreadingEvent_call /threading_notify /notify /= Hsubmit.
Qed.

Lemma threading_call_aborted sched (event : collect_event) objs args kw
    before r method after e :
  live objs (listeners (threading_base event))
  = before ++ (r, method) :: after →
  Forall (λ rl, fails_in_loop args rl.2 = None) before →
  fails_in_loop args method = Some e →
  AsyncThreadingEvent_call sched event objs args kw = inl e.
Proof.
  intros Hsplit Hbefore Hfail.
  pose proof (submit_aborted objs args _ before r method after e Hsplit
                Hbefore Hfail) as Hsubmit.
  by rewrite /AsyncThreadingEvent_call /threading_notify /notify /= Hsubmit.
Qed.


(** The answer to a folding range request does not depend on the
    order in which the listeners finish: either the request raises,
    the same exception whatever the order, [KeyError] when the
    document is not known and otherwise the exception of a listener
    that failed in the loop that creates the futures; or it returns,
    whatever the order, the same ranges up to their order, and logs
    nothing. *)
Theorem folding_ranges_do_not_depend_on_completion_order sched sched'
    (self : nat) (collect_folding_range : collect_event) objs documents uri :
  match _text_document_folding_range sched self collect_folding_range objs
          documents uri,
        _text_document_folding_range sched' self collect_folding_range objs
          documents uri with
  | inr (results, logged), inr (results', logged') =>
      is_Some (documents !! uri) ∧ results ≡ₚ results'
      ∧ logged = [] ∧ logged' = []
  | inl e, inl e' =>
      e = e'
      ∧ match documents !! uri with
        | None => e = KeyError
        | Some document =>
            ∃ r method,
              (r, method)
              ∈ live objs (listeners (threading_base collect_folding_range))
              ∧ fails_in_loop (self, document) method = Some e
        end
  | _, _ => False
  end.
Proof.
  rewrite /_text_document_folding_range.
  destruct (documents !! uri) as [document|]; [|done].
  destruct (first_failure (self, document)
              (live objs (listeners (threading_base collect_folding_range))))
    as [Hall|(before & r & method & after & e & Hsplit & Hbefore & Hfail)].
  - rewrite !(threading_call_complete _ _ objs (self, document) no_kwargs
                Hall).
    rewrite !bind_await_entry_ignoring !aggregate_values /=.
    split_and!; [by eexists| |done|done].
    apply join_Permutation, returned_values_perm.
    by rewrite !as_completed_perm.
  - rewrite !(threading_call_aborted _ _ objs (self, document) no_kwargs
                before r method after e Hsplit Hbefore Hfail).
    split; [done|]. exists r, method. split; [|done].
    rewrite Hsplit. apply elem_of_app. right. left.
Qed.

End folding_range_request.


(** ** Completion callbacks, with the loop that creates the futures *)

Section completion_callbacks.
Import AsyncEvent Submission.
Context {Args Res : Type} (is_None : Res → bool).
Implicit Types (objs : gmap nat (Listener Args Res)) (args : Args).
Implicit Types (sched : Scheduler Res) (refs : list nat).
Implicit Types (callback : result_callback Res) (f : future Res).

(** What a done-callback does: nothing for a future that raised
    [KeyboardInterrupt]; otherwise it reports the outcome and, when the
    callback raises anything else at a result, calls it again with
    what it raised. *)
Lemma done_shape callback f :
  (f.2 = Raised KeyboardInterrupt ∧ (_done is_None (Some callback) f).1 = [])
  ∨ (f.2 ≠ Raised KeyboardInterrupt
     ∧ ∃ rest,
         (_done is_None (Some callback) f).1 = report is_None f :: rest
         ∧ (rest = []
            ∨ ∃ r e, f.2 = Returned r
                     ∧ callback (as_optional is_None r) None = Some e
                     ∧ rest = [(None, Some e)])).
Proof.
  rewrite /_done /report. destruct f as [l [r|e]]; simpl.
  - right. split; [done|].
    destruct (callback (as_optional is_None r) None) as [e|] eqn:Hc.
    + destruct e; simpl; try (by exists []; auto);
        eexists [(None, Some _)]; (split; [done|]); right; by eexists r, _.
    + exists []. auto.
  - destruct e; try (by right; split; [done|]; exists []; auto).
    by left.
Qed.

Lemma submit_awaitables objs args refs f :
  f ∈ awaitables (submit objs args refs) →
  ∃ method,
    f.1 ∈ refs ∧ objs !! f.1 = Some method ∧ coroutine method args = inr f.2.
Proof.
  induction refs as [|x refs IH]; simpl; [by intros ?%elem_of_nil|].
  destruct (objs !! x) as [m|] eqn:Hx.
  - destruct (coroutine m args) as [e|o] eqn:Hm; simpl;
      [by intros ?%elem_of_nil|].
    destruct (__qualname__ m); simpl; [|by intros ?%elem_of_nil].
    intros [->|Hf]%elem_of_cons.
    + exists m. split; [left|done].
    + destruct (IH Hf) as (method & ? & ?). exists method.
      split; [by right|done].
  - intros Hf. destruct (IH Hf) as (method & ? & ?). exists method.
    split; [by right|done].
Qed.

Lemma quiet_calls callback (l : list (future Res)) :
  (∀ f, f ∈ l → length (_done is_None (Some callback) f).1 = 1) →
  length (l ≫= λ f, (_done is_None (Some callback) f).1) = length l.
Proof.
  induction l as [|f l IH]; intros Hone; [done|].
  rewrite bind_cons length_app Hone; [|left]. simpl. f_equal.
  apply IH. intros f' Hf'. apply Hone. by right.
Qed.

(** A dispatch without [result_callback] makes no call.  With one, no
    call passes both a result and an exception, and a call passes
    neither only for a listener that returned the value [None].  When
    no listener fails in the loop that creates the futures, the
    callback is told the outcome of every registered live listener,
    its value or its exception, whether exceptions are ignored in the
    collected results or not; and when, besides, the callback never
    raises, it is called once for each of them. *)
Theorem result_callback_is_told_every_outcome sched
    (self : AsyncEventResultIteratorBase) objs args callback :
  let registered := live objs (listeners self) in
  let calls :=
    callback_calls is_None sched (listeners self) objs args (Some callback) in
  callback_calls is_None sched (listeners self) objs args None = []
  ∧ (∀ result error,
       (result, error) ∈ calls →
       ¬ (is_Some result ∧ is_Some error)
       ∧ (result = None → error = None →
          ∃ r method v,
            (r, method) ∈ registered
            ∧ value_of args method = Some v ∧ is_None v = true))
  ∧ (Forall (λ rl, fails_in_loop args rl.2 = None) registered →
     (∀ r method,
        (r, method) ∈ registered →
        (∀ v, value_of args method = Some v →
              (as_optional is_None v, None) ∈ calls)
        ∧ (∀ e, error_of args method = Some e → e ≠ KeyboardInterrupt →
                (None, Some e) ∈ calls))
     ∧ ((∀ result error, callback result error = None) →
        (∀ rl, rl ∈ registered →
               error_of args rl.2 ≠ Some KeyboardInterrupt) →
        length calls = length registered)).
Proof.
  intros registered calls. split_and!.
  - rewrite /callback_calls.
    generalize (as_completed sched
                  (awaitables (submit objs args (elements (listeners self))))).
    intros l. by induction l.
  - intros result error.
    rewrite /calls /callback_calls list_elem_of_bind.
    intros (f & Hin & Hf). rewrite as_completed_perm in Hf.
    apply submit_awaitables in Hf as (method & Hr & Hm & Hco).
    assert (Hreg : (f.1, method) ∈ registered).
    { apply list_elem_of_omap. exists f.1. by rewrite Hm. }
    assert (Hreport : (result, error) = report is_None f →
      ¬ (is_Some result ∧ is_Some error)
      ∧ (result = None → error = None →
         ∃ r method v, (r, method) ∈ registered
                       ∧ value_of args method = Some v ∧ is_None v = true)).
    { rewrite /report. destruct (f.2) as [v|e] eqn:Hout; intros [= -> ->].
      - split; [by intros [_ [? ?]]|]. rewrite /as_optional.
        destruct (is_None v) eqn:Hv; [|done]. intros _ _.
        exists f.1, method, v. by rewrite /value_of Hco.
      - split; [by intros [[? ?] _]|done]. }
    destruct (done_shape callback f) as [[_ Hnil]|(_ & rest & Heq & Hrest)].
    { rewrite Hnil in Hin. by apply elem_of_nil in Hin. }
    rewrite Heq in Hin. apply elem_of_cons in Hin as [Hin|Hin]; [auto|].
    destruct Hrest as [->|(r & e & _ & _ & ->)].
    + by apply elem_of_nil in Hin.
    + apply list_elem_of_singleton in Hin as [= -> ->].
      split; [by intros [[? ?] _]|done].
  - intros Hall.
    pose proof (submit_complete objs args _ Hall) as Hsubmit.
    assert (Hcalls : ∀ f,
      f ∈ awaitables (submit objs args (elements (listeners self))) →
      f.2 ≠ Raised KeyboardInterrupt → report is_None f ∈ calls).
    { intros f Hf Hki. rewrite /calls /callback_calls list_elem_of_bind.
      exists f. split; [|by rewrite as_completed_perm].
      destruct (done_shape callback f) as [[? _]|(_ & rest & -> & _)];
        [done|left]. }
    split.
    + intros r method Hreg. split.
      * intros v Hv. rewrite /value_of in Hv.
        destruct (coroutine method args) as [?|[v'|?]] eqn:Hco;
          simplify_eq.
        apply (Hcalls (r, Returned v)); [|done].
        rewrite Hsubmit /=. apply list_elem_of_omap.
        exists (r, method). by rewrite /= Hco.
      * intros e He Hki. rewrite /error_of in He.
        destruct (coroutine method args) as [?|[?|e']] eqn:Hco;
          simplify_eq.
        apply (Hcalls (r, Raised e)); [|simpl; congruence].
        rewrite Hsubmit /=. apply list_elem_of_omap.
        exists (r, method). by rewrite /= Hco.
    + intros Hquiet Hki.
      rewrite /calls /callback_calls Hsubmit. cbn [awaitables].
      rewrite quiet_calls.
      * rewrite as_completed_perm. by apply length_futures.
      * intros f Hf. rewrite as_completed_perm in Hf.
        apply list_elem_of_omap in Hf as ([r method] & Hreg & Hf).
        simpl in Hf.
        destruct (coroutine method args) as [?|o] eqn:Hco; simplify_eq.
        rewrite /_done /=. destruct o as [v|e]; [by rewrite Hquiet|].
        assert (e ≠ KeyboardInterrupt).
        { intros ->. apply (Hki _ Hreg). by rewrite /error_of /= Hco. }
        by destruct e.
Qed.

End completion_callbacks.

(** The position of [${cond}] in the call of [Run Keyword If], asked
    when the namespace of the script is gone. *)
Lemma default_handler_drops_the_TypeError_of_a_lost_namespace_witness :
  is_Some (References.get_workspace_folder Samples.stale_workspace
             "file:///tests/suite.robot")
  ∧ References.get_namespace Samples.stale_workspace
      "file:///tests/suite.robot" = None
  ∧ DefaultHandler._references_default (H:=Samples.sample_helpers)
      (H0:=Samples.sample_position_helpers)
      Samples.sample_workspace Samples.stale_workspace
      [Samples.test_case; Samples.run_keyword_if_call]
      "file:///tests/suite.robot" (References.MkPosition 3 24) true
    = inr None
  ∧ DefaultHandler.sub_tokens_loop (H:=Samples.sample_helpers)
      (H0:=Samples.sample_position_helpers)
      Samples.stale_workspace Samples.sample_namespace
      [Samples.test_case; Samples.run_keyword_if_call]
      "file:///tests/suite.robot" (References.MkPosition 3 24) true
      [References.MkToken References.VARIABLE "${cond}" 3 22]
    = inl TypeError.
Proof.
  assert (H1 : is_Some (References.get_workspace_folder
                          Samples.stale_workspace
                          "file:///tests/suite.robot")).
  { exists "/tests". vm_compute. reflexivity. }
  assert (H2 : References.get_namespace Samples.stale_workspace
                 "file:///tests/suite.robot" = None) by reflexivity.
  destruct (default_handler_drops_the_TypeError_of_a_lost_namespace
              (H:=Samples.sample_helpers)
              (H0:=Samples.sample_position_helpers)
              Samples.sample_workspace Samples.stale_workspace
              [Samples.test_case; Samples.run_keyword_if_call]
              "file:///tests/suite.robot" (References.MkPosition 3 24) true
              H1 H2) as (Hnone & Hraise & _).
  split; [exact H1|]. split; [exact H2|]. split; [exact Hnone|].
  apply (Hraise Samples.sample_namespace _
           (References.MkToken References.VARIABLE "${cond}" 3 22)
           Samples.sample_variable).
  - left.
  - reflexivity.
  - vm_compute. reflexivity.
  - reflexivity.
Defined.

(** ** The two descriptions of a concurrent dispatch agree *)

Section agreement.
Import AsyncEvent.
Context {Args Res : Type}.

(** On listeners that do not fail in the loop that creates the
    futures, the loop is [awaitables_of] and the dispatch is the one
    described without that loop. *)
Lemma submit_of_callables (objs : gmap nat (callable Args Res)) qualname args
    refs :
  Submission.submit (Submission.listener_of qualname <$> objs) args refs
  = Submission.MkSubmitted (awaitables_of objs args refs).*1
      (awaitables_of objs args refs) None.
Proof.
  induction refs as [|x refs IH]; simpl; [done|].
  rewrite lookup_fmap /deref. destruct (objs !! x) as [m|]; simpl; [|done].
  by rewrite IH.
Qed.

Lemma tasking_notify_of_callables (sched : Scheduler Res) self
    (objs : gmap nat (callable Args Res)) qualname args kw :
  Submission.tasking_notify sched self
    (Submission.listener_of qualname <$> objs) args kw
  = tasking_notify sched self objs args kw.
Proof.
  by rewrite /Submission.tasking_notify /Submission.notify
       submit_of_callables.
Qed.

Lemma threading_notify_of_callables (sched : Scheduler Res) self
    (objs : gmap nat (callable Args Res)) qualname args executor kw :
  Submission.threading_notify sched self
    (Submission.listener_of qualname <$> objs) args executor kw
  = threading_notify sched self objs args executor kw.
Proof.
  by rewrite /Submission.threading_notify /Submission.notify
       submit_of_callables.
Qed.

End agreement.
